(** * A shallow embedding of the CYOA terminal engine

    The development follows the JavaScript sources module by module:
    [fileParser.js] (the story-file parser), [inventoryManager.js]
    (the item store), [gameState.js] (history, user name, save slots) and
    [menuHandler.js] (the keyboard-driven traversal of the story graph).

    JavaScript strings are sequences of UTF-16 code units; they are modelled
    as lists of code units ([N]), so that [trim], [split] and the regular
    expressions of the parser see exactly the characters the engine sees
    (the arrow of a choice line, U+2192, is the single code unit 8594). *)

From Stdlib Require Import ZArith NArith List String Ascii Bool Lia.
From stdpp Require Import base option list gmap.

Local Open Scope N_scope.

(** ** JavaScript strings and the built-ins the engine calls *)

Module JS.

Abbreviation str := (list N).

(** A literal as a JavaScript string: the UTF-8 bytes of the literal are
    decoded into UTF-16 code units. *)
Fixpoint lit (s : string) : str :=
  match s with
  | EmptyString => []
  | String a r =>
      let b0 := N_of_ascii a in
      if b0 <? 192 then b0 :: lit r
      else
        match r with
        | String a1 r1 =>
            let b1 := N_of_ascii a1 - 128 in
            if b0 <? 224 then ((b0 - 192) * 64 + b1) :: lit r1
            else
              match r1 with
              | String a2 r2 =>
                  let b2 := N_of_ascii a2 - 128 in
                  if b0 <? 240 then ((b0 - 224) * 4096 + b1 * 64 + b2) :: lit r2
                  else
                    match r2 with
                    | String a3 r3 =>
                        let b3 := N_of_ascii a3 - 128 in
                        let cp := (b0 - 240) * 262144 + b1 * 4096 + b2 * 64 + b3 - 65536 in
                        (55296 + cp / 1024) :: (56320 + cp mod 1024) :: lit r3
                    | EmptyString => [b0]
                    end
              | EmptyString => [b0]
              end
        | EmptyString => [b0]
        end
  end.

Definition strEq (a b : str) : bool := bool_decide (a = b).

(** A string is falsy exactly when it is empty. *)
Definition truthy (s : str) : bool :=
  match s with [] => false | _ => true end.

(** [undefined] and [null] are falsy as well. *)
Definition truthyOpt (o : option str) : bool :=
  match o with Some s => truthy s | None => false end.

(** WhiteSpace and LineTerminator code units: what [trim] strips and what
    [\s] matches. *)
Definition isWhiteSpace (c : N) : bool :=
  (9 <=? c) && (c <=? 13) || (c =? 32) || (c =? 160) || (c =? 5760)
  || (8192 <=? c) && (c <=? 8202) || (c =? 8232) || (c =? 8233)
  || (c =? 8239) || (c =? 8287) || (c =? 12288) || (c =? 65279).

(** What [.] matches: everything but the four line terminators. *)
Definition isDot (c : N) : bool :=
  negb ((c =? 10) || (c =? 13) || (c =? 8232) || (c =? 8233)).

Definition isDigit (c : N) : bool := (48 <=? c) && (c <=? 57).

Fixpoint trimStart (s : str) : str :=
  match s with
  | c :: r => if isWhiteSpace c then trimStart r else s
  | [] => []
  end.

Definition trimEnd (s : str) : str := rev (trimStart (rev s)).

Definition trim (s : str) : str := trimEnd (trimStart s).

Fixpoint startsWith (p s : str) : bool :=
  match p, s with
  | [], _ => true
  | a :: p', b :: s' => (a =? b) && startsWith p' s'
  | _ :: _, [] => false
  end.

Definition endsWith (p s : str) : bool := startsWith (rev p) (rev s).

Fixpoint includes (p s : str) : bool :=
  startsWith p s || match s with [] => false | _ :: r => includes p r end.

(** [s.split(c)] for a one-character separator: never an empty array. *)
Fixpoint split (sep : N) (s : str) : list str :=
  match s with
  | [] => [[]]
  | c :: r =>
      if c =? sep then [] :: split sep r
      else match split sep r with
           | piece :: rest => (c :: piece) :: rest
           | [] => [[c]]
           end
  end.

Fixpoint join (sep : str) (l : list str) : str :=
  match l with
  | [] => []
  | [x] => x
  | x :: r => x ++ sep ++ join sep r
  end.

(** [s.replace(pat, rep)] with a string pattern and a replacement that holds
    no [$]: the first occurrence only. *)
Fixpoint replace (pat rep s : str) : str :=
  if startsWith pat s then rep ++ drop (length pat) s
  else match s with
       | [] => []
       | c :: r => c :: replace pat rep r
       end.

(** [s.substring(n)] for [n] within the string or past its end. *)
Definition substring (n : nat) (s : str) : str := drop n s.

(** ASCII letters only; the engine lower-cases section contents and ending
    names, and compares the result with ASCII words. *)
Definition toLowerCase (s : str) : str :=
  map (fun c => if (65 <=? c) && (c <=? 90) then c + 32 else c) s.

(** A text between double quotes, as the error messages show a line. *)
Definition quoted (s : str) : str := [34] ++ s ++ [34].

(** Template-literal interpolation of a possibly-null string. *)
Definition interp (o : option str) : str :=
  match o with Some s => s | None => lit "null" end.

(** *** Numbers

    The numbers of the engine are doubles.  [parseInt] only produces whole
    numbers (or NaN), and the item store only adds and subtracts them: whole
    numbers are [Z], and the model computes with them exactly.  A double
    does so as long as the numbers stay within [safeInteger]; beyond, the
    engine rounds where the model does not, and the model is not the
    engine's arithmetic.  A property that says what a quantity is or
    becomes is therefore stated for safe integers.

    [parseFloat] and [Number] read decimal literals; their result is kept as
    the exact decimal the text denotes (the engine holds the double nearest
    to it), together with the test of whether that double is zero. *)

(** [Number.isSafeInteger]: the whole numbers strictly between [-2^53] and
    [2^53].  A double holds each of them exactly, and the sum or difference
    of two of them that is again one of them is computed exactly. *)
Definition safeInteger (z : Z) : Prop := (- 2 ^ 53 < z < 2 ^ 53)%Z.

Definition digitVal (c : N) : option N :=
  if isDigit c then Some (c - 48)
  else if (97 <=? c) && (c <=? 102) then Some (c - 87)
  else if (65 <=? c) && (c <=? 70) then Some (c - 55)
  else None.

(** The longest prefix of digits in the given radix: value read so far,
    number of digits, rest of the input. *)
Fixpoint digits (radix : N) (acc : N) (n : nat) (s : str) : N * nat * str :=
  match s with
  | c :: r =>
      match digitVal c with
      | Some d => if d <? radix then digits radix (acc * radix + d) (S n) r
                  else (acc, n, s)
      | None => (acc, n, s)
      end
  | [] => (acc, n, s)
  end.

Definition readSign (s : str) : bool * str :=
  match s with
  | 45 :: r => (true, r)
  | 43 :: r => (false, r)
  | _ => (false, s)
  end.

(** [parseInt(s)] without a radix; [None] is NaN.  The result is the whole
    number the digits denote; it is the number [parseInt] returns when it is
    a [safeInteger] (for longer digit sequences [parseInt] returns a double
    near it). *)
Definition parseInt (s : str) : option Z :=
  let '(neg, s1) := readSign (trimStart s) in
  let '(radix, s2) :=
    match s1 with
    | 48 :: 120 :: r | 48 :: 88 :: r => (16, r)
    | _ => (10, s1)
    end in
  let '(v, n, _) := digits radix 0 0%nat s2 in
  match n with
  | O => None
  | S _ => Some (if neg then (- Z.of_N v)%Z else Z.of_N v)
  end.

(** [parseInt] of a destructured piece that may be [undefined]. *)
Definition parseIntOpt (o : option str) : option Z :=
  match o with Some s => parseInt s | None => None end.

(** [parseInt(x) || 1] *)
Definition orOne (o : option Z) : Z :=
  match o with
  | Some z => if (z =? 0)%Z then 1%Z else z
  | None => 1%Z
  end.

Inductive number :=
| NaN
| Infinity (neg : bool)
| Dec (neg : bool) (mant : N) (exp10 : Z).   (* +-mant * 10^exp10 *)

(** A StrDecimalLiteral at the head of [s], as long as possible. *)
Definition readDecimal (s : str) : option (number * str) :=
  let '(neg, s1) := readSign s in
  if startsWith (lit "Infinity") s1 then Some (Infinity neg, drop 8 s1)
  else
    let '(ip, ni, s2) := digits 10 0 0%nat s1 in
    let '(m, nf, s3) :=
      match s2 with
      | 46 :: r =>
          let '(m, nf, r') := digits 10 ip 0%nat r in
          match ni, nf with
          | O, O => (ip, O, s2)
          | _, _ => (m, nf, r')
          end
      | _ => (ip, O, s2)
      end in
    match ni, nf with
    | O, O => None
    | _, _ =>
        let '(e, s4) :=
          match s3 with
          | 101 :: r | 69 :: r =>
              let '(eneg, r1) := readSign r in
              let '(ev, ne, r2) := digits 10 0 0%nat r1 in
              match ne with
              | O => (0%Z, s3)
              | S _ => (if eneg then (- Z.of_N ev)%Z else Z.of_N ev, r2)
              end
          | _ => (0%Z, s3)
          end in
        Some (Dec neg m (e - Z.of_nat nf)%Z, s4)
    end.

Definition parseFloat (s : str) : number :=
  match readDecimal (trimStart s) with
  | Some (n, _) => n
  | None => NaN
  end.

Definition parseFloatOpt (o : option str) : number :=
  match o with Some s => parseFloat s | None => NaN end.

(** [Number(s)]: the whole trimmed text must be a numeric literal. *)
Definition Number (s : str) : number :=
  let t := trim s in
  let whole radix r :=
    match digits radix 0 0%nat r with
    | (v, S _, []) => Dec false v 0
    | _ => NaN
    end in
  match t with
  | [] => Dec false 0 0
  | 48 :: 120 :: r | 48 :: 88 :: r => whole 16 r
  | 48 :: 111 :: r | 48 :: 79 :: r => whole 8 r
  | 48 :: 98 :: r | 48 :: 66 :: r => whole 2 r
  | _ => match readDecimal t with
         | Some (n, []) => n
         | _ => NaN
         end
  end.

Definition isNaN (n : number) : bool :=
  match n with NaN => true | _ => false end.

(** The double nearest to [mant * 10^exp10] is zero iff the decimal is at
    most [2^-1075], half the smallest subnormal. *)
Definition isZero (n : number) : bool :=
  match n with
  | NaN | Infinity _ => false
  | Dec _ m e =>
      if (m =? 0) then true
      else if (0 <=? e)%Z then false
      else (Z.of_N m * 2 ^ 1075 <=? 10 ^ (- e))%Z
  end.

(** A number is falsy when it is NaN or zero. *)
Definition truthyNum (n : number) : bool := negb (isNaN n) && negb (isZero n).

(** The whole number a numeric value denotes, when it denotes one (exactly:
    the double of the engine is that number when it is a [safeInteger]). *)
Definition toWhole (n : number) : option Z :=
  match n with
  | Dec neg m e =>
      let sgn z := if neg then (- z)%Z else z in
      if (0 <=? e)%Z then Some (sgn (Z.of_N m * 10 ^ e)%Z)
      else if (Z.of_N m mod 10 ^ (- e) =? 0)%Z
           then Some (sgn (Z.of_N m / 10 ^ (- e))%Z)
           else None
  | _ => None
  end.

(** *** Plain objects

    An object literal inherits the properties of [Object.prototype].
    Reading [obj[name]] when the object has no property of its own by that
    name finds the inherited value for these names (a function, or the
    prototype itself: a truthy value), and [undefined] for every other
    name.  This is [Object.prototype] as the language defines it; the
    parser can add to it (see [plainFile] below), and the model is of the
    engine as long as it has not. *)
Definition prototypeNames : list str :=
  [lit "constructor"; lit "__proto__"; lit "hasOwnProperty"; lit "isPrototypeOf";
   lit "propertyIsEnumerable"; lit "toLocaleString"; lit "toString"; lit "valueOf";
   lit "__defineGetter__"; lit "__defineSetter__"; lit "__lookupGetter__";
   lit "__lookupSetter__"].

Definition inherited (name : str) : bool := existsb (strEq name) prototypeNames.

(** [obj[key] = value] on an object literal, for a value that is not an
    object: the name [__proto__] is an accessor of [Object.prototype] whose
    setter ignores such a value, so nothing is stored; any other name
    becomes, or stays, a property of the object itself. *)
Definition assign {V} (key : str) (value : V) (obj : gmap str V) : gmap str V :=
  if strEq key (lit "__proto__") then obj else <[key := value]> obj.

End JS.

Import JS.

(** ** Backtracking regular expressions

    The two patterns of the parser are anchored at the start of the line, use
    greedy and lazy repetition and numbered capture groups.  The matcher below
    explores alternatives in the order a backtracking engine does, so the
    captures are those of the first successful path. *)

Module Regex.

Inductive re :=
| Chr (p : N -> bool)
| Eps
| Seq (a b : re)
| Alt (a b : re)
| Star (greedy : bool) (a : re)
| Group (i : nat) (a : re)
| End.

Definition Plus (greedy : bool) (a : re) : re := Seq a (Star greedy a).
Definition Opt (a : re) : re := Alt a Eps.
Definition Is (c : N) : re := Chr (N.eqb c).

Fixpoint Word (s : str) : re :=
  match s with
  | [] => Eps
  | c :: r => Seq (Is c) (Word r)
  end.

(** Captures, most recent first. *)
Definition caps := list (nat * str).

Fixpoint group (i : nat) (c : caps) : option str :=
  match c with
  | [] => None
  | (j, s) :: r => if Nat.eqb i j then Some s else group i r
  end.

(** The loop of a repetition: [step] matches the repeated expression once.
    A greedy repetition tries one more iteration before it tries what
    follows, a lazy one the other way round.  An iteration that consumes
    nothing is rejected, as in ECMAScript; so the loop iterates at most once
    per character left, and the characters left are its fuel.  (No capture
    group of the two patterns sits inside a repetition: captures need no
    reset between iterations.) *)
Definition starLoop
    (step : str -> caps -> (str -> caps -> option caps) -> option caps)
    (greedy : bool) (k : str -> caps -> option caps)
    : nat -> str -> caps -> option caps :=
  fix loop (fuel : nat) (s : str) (c : caps) {struct fuel} : option caps :=
    let again :=
      match fuel with
      | O => None
      | S fuel' =>
          step s c (fun s' c' =>
            if (length s' <? length s)%nat then loop fuel' s' c' else None)
      end in
    if greedy then
      match again with
      | Some res => Some res
      | None => k s c
      end
    else
      match k s c with
      | Some res => Some res
      | None => again
      end.

(** [exec extra r s c k]: match [r] at the head of [s], then hand the rest of
    the input and the captures to the continuation [k]; alternatives are
    tried in the order of a backtracking engine.  [extra] is fuel given to
    the repetitions on top of the characters left; the engine runs with
    none. *)
Fixpoint exec (extra : nat) (r : re) (s : str) (c : caps)
    (k : str -> caps -> option caps) {struct r} : option caps :=
  match r with
  | Chr p =>
      match s with
      | x :: s' => if p x then k s' c else None
      | [] => None
      end
  | Eps => k s c
  | Seq a b => exec extra a s c (fun s' c' => exec extra b s' c' k)
  | Alt a b =>
      match exec extra a s c k with
      | Some res => Some res
      | None => exec extra b s c k
      end
  | Group i a =>
      exec extra a s c
        (fun s' c' => k s' ((i, take (length s - length s') s) :: c'))
  | End =>
      match s with
      | [] => k s c
      | _ :: _ => None
      end
  | Star greedy a => starLoop (exec extra a) greedy k (extra + length s) s c
  end.

(** [s.match(/^.../)] for a pattern anchored at the start. *)
Definition matchAnchored (r : re) (s : str) : option caps :=
  exec 0 r s [] (fun _ c => Some c).

End Regex.

Import Regex.

(** ** Errors

    A thrown [Error] carries its message; dereferencing [null] throws a
    [TypeError]. *)

Inductive exn :=
| Error (msg : str)
| TypeError.

Inductive result (A : Type) :=
| Ok (a : A)
| Throw (e : exn).
Arguments Ok {A} a.
Arguments Throw {A} e.

Definition bind {A B} (r : result A) (f : A -> result B) : result B :=
  match r with
  | Ok a => f a
  | Throw e => Throw e
  end.

Notation "'try!' x := c 'in' k" := (bind c (fun x => k))
  (at level 10, x name, c at level 100, k at level 200).

(** [for (const x of xs) body], stopping at the first throw. *)
Fixpoint forEach {A S} (body : S -> A -> result S) (xs : list A) (s : S) : result S :=
  match xs with
  | [] => Ok s
  | x :: r => try! s' := body s x in forEach body r s'
  end.

Definition isOk {A} (r : result A) : bool :=
  match r with Ok _ => true | Throw _ => false end.

(** ** fileParser.js *)

Module FileParser.

Record Choice := {
  label : str;
  description : str;
  target : str;
  conditions : list str;
  consequences : list str
}.

Record Step := {
  narrative : str;
  choices : list Choice
}.

Record Endings := {
  success : str;
  failure : str;
  neutral : str
}.

(** A value of a key-value block: a number when the text reads as one, the
    text itself otherwise. *)
Inductive kvalue :=
| KNum (n : number)
| KStr (s : str).

Record Condition := { condition : str; action : str }.

Record RandomEvent := { chance : number; outcome : str }.

(** [/^([A-D])\)\s*(.+?)\s*(?:->|→)\s*(STEP_\d+|ENDING_SUCCESS|ENDING_FAILURE|ENDING_NEUTRAL)(?:\s*\{\s*(.+?)\s*\})?$/] *)
Definition choiceRegex : re :=
  let ws := Star true (Chr isWhiteSpace) in
  Seq (Group 1 (Chr (fun c => (65 <=? c) && (c <=? 68))))
  (Seq (Is 41)
  (Seq ws
  (Seq (Group 2 (Plus false (Chr isDot)))
  (Seq ws
  (Seq (Alt (Word (lit "->")) (Is 8594))
  (Seq ws
  (Seq (Group 3 (Alt (Seq (Word (lit "STEP_")) (Plus true (Chr isDigit)))
                (Alt (Word (lit "ENDING_SUCCESS"))
                (Alt (Word (lit "ENDING_FAILURE"))
                     (Word (lit "ENDING_NEUTRAL"))))))
  (Seq (Opt (Seq ws (Seq (Is 123) (Seq ws
            (Seq (Group 4 (Plus false (Chr isDot))) (Seq ws (Is 125)))))))
       End)))))))).

(** [/^IF\s+(.+)\s+THEN\s+(.+)$/] *)
Definition conditionRegex : re :=
  let ws1 := Plus true (Chr isWhiteSpace) in
  Seq (Word (lit "IF"))
  (Seq ws1
  (Seq (Group 1 (Plus true (Chr isDot)))
  (Seq ws1
  (Seq (Word (lit "THEN"))
  (Seq ws1
  (Seq (Group 2 (Plus true (Chr isDot))) End)))))).

Definition orEmpty (o : option str) : str :=
  match o with Some s => s | None => [] end.

(** The loop over the extras of a choice: [IF] extras become conditions,
    [SET] and [USE] extras consequences, anything else is dropped. *)
Fixpoint addExtras (extras : list str) (conds conss : list str) : list str * list str :=
  match extras with
  | [] => (conds, conss)
  | extra :: r =>
      if startsWith (lit "IF") extra
      then addExtras r (conds ++ [trim (substring 2 extra)]) conss
      else if startsWith (lit "SET") extra || startsWith (lit "USE") extra
      then addExtras r conds (conss ++ [extra])
      else addExtras r conds conss
  end.

Definition malformedChoice (trimmedLine : str) : exn :=
  Error (lit "Malformed choice line: " ++ quoted trimmedLine).

(** The body of the loop of [parseChoices] for one line. *)
Definition parseChoiceLine (choices : list Choice) (line : str) : result (list Choice) :=
  let trimmedLine := trim line in
  match matchAnchored choiceRegex trimmedLine with
  | Some m =>
      let '(conds, conss) :=
        match group 4 m with
        | Some extras => addExtras (map trim (split 59 extras)) [] []
        | None => ([], [])
        end in
      Ok (choices ++ [ {| label := orEmpty (group 1 m);
                          description := trim (orEmpty (group 2 m));
                          target := orEmpty (group 3 m);
                          conditions := conds;
                          consequences := conss |} ])
  | None =>
      if (0 <? length trimmedLine)%nat then Throw (malformedChoice trimmedLine)
      else Ok choices
  end.

Definition parseChoices (contentLines : list str) : result (list Choice) :=
  forEach parseChoiceLine contentLines [].

(** [isNaN(Number(value)) ? value : Number(value)] *)
Definition coerce (value : str) : kvalue :=
  if isNaN (Number value) then KStr value else KNum (Number value).

Definition malformedKeyValue (trimmedLine : str) : exn :=
  Error (lit "Malformed key-value line: " ++ quoted trimmedLine).

(** [parseKeyValue].  In the source file the whole function stands on one
    physical line (line 174), and on that line everything after the first
    [//] is a comment: as shipped, the text of the function ends at
    [if (trimmedLine.length === 0) return;] and its braces are never
    closed.  What is embedded here is the function with its line breaks
    restored, as its statements read; the properties below rely on it only
    to read the [INVENTORY] block of an example, and none is stated of its
    colon test or of its errors. *)
Definition parseKeyValueLine (obj : gmap str kvalue) (line : str) : result (gmap str kvalue) :=
  let trimmedLine := trim line in
  if (length trimmedLine =? 0)%nat then Ok obj
  else if includes (lit ":") trimmedLine then
    match split 58 trimmedLine with
    | [k; v] =>
        if negb (truthy (trim k)) || negb (truthy (trim v))
        then Throw (malformedKeyValue trimmedLine)
        else Ok (assign (trim k) (coerce (trim v)) obj)
    | _ => Throw (malformedKeyValue trimmedLine)
    end
  else Throw (malformedKeyValue trimmedLine).

Definition parseKeyValue (content : str) : result (gmap str kvalue) :=
  forEach parseKeyValueLine (split 10 content) ∅.

Definition malformedCondition (trimmedLine : str) : exn :=
  Error (lit "Malformed condition line: " ++ quoted trimmedLine).

Definition parseConditionLine (conds : list Condition) (line : str) : result (list Condition) :=
  let trimmedLine := trim line in
  if (length trimmedLine =? 0)%nat then Ok conds
  else match matchAnchored conditionRegex trimmedLine with
       | Some m =>
           Ok (conds ++ [ {| condition := trim (orEmpty (group 1 m));
                             action := trim (orEmpty (group 2 m)) |} ])
       | None => Throw (malformedCondition trimmedLine)
       end.

Definition parseConditions (content : str) : result (list Condition) :=
  forEach parseConditionLine (split 10 content) [].

Definition parseCheckpoints (content : str) : list str :=
  map (replace (lit "STEP_") [])
      (List.filter (startsWith (lit "STEP_")) (map trim (split 10 content))).

(** The event object a line of a [RANDOM_EVENT] block builds up: a property
    is [None] while it is absent (or, for [outcome], [undefined]). *)
Record EventDraft := { evChance : option number; evOutcome : option str }.

(** [const [key, value] = part.split(':').map(s => s.trim())] and the two
    assignments that follow. *)
Definition readEventPart (event : EventDraft) (part : str) : EventDraft :=
  let pieces := map trim (split 58 part) in
  let key := orEmpty (pieces !! 0%nat) in
  let value := pieces !! 1%nat in
  if strEq key (lit "chance")
  then {| evChance := Some (parseFloatOpt value); evOutcome := evOutcome event |}
  else if strEq key (lit "outcome")
  then {| evChance := evChance event; evOutcome := value |}
  else event.

Definition malformedRandomEvent (trimmedLine : str) : exn :=
  Error (lit "Malformed random event line: " ++ quoted trimmedLine).

(** [event.chance && event.outcome] *)
Definition eventComplete (event : EventDraft) : option RandomEvent :=
  match evChance event, evOutcome event with
  | Some c, Some o =>
      if truthyNum c && truthy o then Some {| chance := c; outcome := o |} else None
  | _, _ => None
  end.

(** The event read from the comma-separated parts of a line. *)
Definition readEvent (trimmedLine : str) : EventDraft :=
  fold_left readEventPart (map trim (split 44 trimmedLine))
            {| evChance := None; evOutcome := None |}.

Definition parseRandomEventLine (events : list RandomEvent) (line : str)
    : result (list RandomEvent) :=
  let trimmedLine := trim line in
  if (length trimmedLine =? 0)%nat then Ok events
  else
    match eventComplete (readEvent trimmedLine) with
    | Some ev => Ok (events ++ [ev])
    | None => Throw (malformedRandomEvent trimmedLine)
    end.

Definition parseRandomEvent (content : str) : result (list RandomEvent) :=
  forEach parseRandomEventLine (split 10 content) [].

Definition malformedConsequenceAction (action : str) : exn :=
  Error (lit "Malformed consequence action: " ++ quoted action).

Definition malformedConsequence (trimmedLine : str) : exn :=
  Error (lit "Malformed consequence line: " ++ quoted trimmedLine).

(** The body of [actions.forEach]: [consequence[target] = ...] stores
    nothing when the target is [__proto__]. *)
Definition readAction (consequence : gmap str kvalue) (action : str)
    : result (gmap str kvalue) :=
  match split 58 action with
  | [t; v] => Ok (assign (trim t) (coerce (trim v)) consequence)
  | _ => Throw (malformedConsequenceAction action)
  end.

Definition parseConsequenceLine (acc : list (gmap str kvalue)) (line : str)
    : result (list (gmap str kvalue)) :=
  let trimmedLine := trim line in
  if (length trimmedLine =? 0)%nat then Ok acc
  else
    try! consequence := forEach readAction (map trim (split 44 trimmedLine)) ∅ in
    if (0 <? size consequence)%nat then Ok (acc ++ [consequence])
    else Throw (malformedConsequence trimmedLine).

Definition parseConsequence (content : str) : result (list (gmap str kvalue)) :=
  forEach parseConsequenceLine (split 10 content) [].

(** The object [parseFile] returns.  [menuHandler.js] later stores the step
    being shown in it, as the property [currentStep]. *)
Module GameData.

Record t := {
  gameName : str;
  mainMenuItems : list str;
  inventory : gmap str kvalue;
  stats : gmap str kvalue;
  variables : gmap str kvalue;
  steps : gmap str Step;
  endings : Endings;
  conditions : list Condition;
  checkpoints : list str;
  randomEvents : list RandomEvent;
  consequences : list (gmap str kvalue);
  askForName : bool;
  currentStep : option str
}.

Definition empty : t := {|
  gameName := []; mainMenuItems := [];
  inventory := ∅; stats := ∅; variables := ∅; steps := ∅;
  endings := {| success := []; failure := []; neutral := [] |};
  conditions := []; checkpoints := []; randomEvents := []; consequences := [];
  askForName := false; currentStep := None |}.

Definition setGameName (x : str) (g : t) : t :=
  {| gameName := x; mainMenuItems := mainMenuItems g;
     inventory := inventory g; stats := stats g; variables := variables g;
     steps := steps g; endings := endings g; conditions := conditions g;
     checkpoints := checkpoints g; randomEvents := randomEvents g;
     consequences := consequences g; askForName := askForName g;
     currentStep := currentStep g |}.
Definition setMainMenuItems (x : list str) (g : t) : t :=
  {| gameName := gameName g; mainMenuItems := x;
     inventory := inventory g; stats := stats g; variables := variables g;
     steps := steps g; endings := endings g; conditions := conditions g;
     checkpoints := checkpoints g; randomEvents := randomEvents g;
     consequences := consequences g; askForName := askForName g;
     currentStep := currentStep g |}.
Definition setInventory (x : gmap str kvalue) (g : t) : t :=
  {| gameName := gameName g; mainMenuItems := mainMenuItems g;
     inventory := x; stats := stats g; variables := variables g;
     steps := steps g; endings := endings g; conditions := conditions g;
     checkpoints := checkpoints g; randomEvents := randomEvents g;
     consequences := consequences g; askForName := askForName g;
     currentStep := currentStep g |}.
Definition setStats (x : gmap str kvalue) (g : t) : t :=
  {| gameName := gameName g; mainMenuItems := mainMenuItems g;
     inventory := inventory g; stats := x; variables := variables g;
     steps := steps g; endings := endings g; conditions := conditions g;
     checkpoints := checkpoints g; randomEvents := randomEvents g;
     consequences := consequences g; askForName := askForName g;
     currentStep := currentStep g |}.
Definition setVariables (x : gmap str kvalue) (g : t) : t :=
  {| gameName := gameName g; mainMenuItems := mainMenuItems g;
     inventory := inventory g; stats := stats g; variables := x;
     steps := steps g; endings := endings g; conditions := conditions g;
     checkpoints := checkpoints g; randomEvents := randomEvents g;
     consequences := consequences g; askForName := askForName g;
     currentStep := currentStep g |}.
Definition setSteps (x : gmap str Step) (g : t) : t :=
  {| gameName := gameName g; mainMenuItems := mainMenuItems g;
     inventory := inventory g; stats := stats g; variables := variables g;
     steps := x; endings := endings g; conditions := conditions g;
     checkpoints := checkpoints g; randomEvents := randomEvents g;
     consequences := consequences g; askForName := askForName g;
     currentStep := currentStep g |}.
Definition setEndings (x : Endings) (g : t) : t :=
  {| gameName := gameName g; mainMenuItems := mainMenuItems g;
     inventory := inventory g; stats := stats g; variables := variables g;
     steps := steps g; endings := x; conditions := conditions g;
     checkpoints := checkpoints g; randomEvents := randomEvents g;
     consequences := consequences g; askForName := askForName g;
     currentStep := currentStep g |}.
Definition setConditions (x : list Condition) (g : t) : t :=
  {| gameName := gameName g; mainMenuItems := mainMenuItems g;
     inventory := inventory g; stats := stats g; variables := variables g;
     steps := steps g; endings := endings g; conditions := x;
     checkpoints := checkpoints g; randomEvents := randomEvents g;
     consequences := consequences g; askForName := askForName g;
     currentStep := currentStep g |}.
Definition setCheckpoints (x : list str) (g : t) : t :=
  {| gameName := gameName g; mainMenuItems := mainMenuItems g;
     inventory := inventory g; stats := stats g; variables := variables g;
     steps := steps g; endings := endings g; conditions := conditions g;
     checkpoints := x; randomEvents := randomEvents g;
     consequences := consequences g; askForName := askForName g;
     currentStep := currentStep g |}.
Definition setRandomEvents (x : list RandomEvent) (g : t) : t :=
  {| gameName := gameName g; mainMenuItems := mainMenuItems g;
     inventory := inventory g; stats := stats g; variables := variables g;
     steps := steps g; endings := endings g; conditions := conditions g;
     checkpoints := checkpoints g; randomEvents := x;
     consequences := consequences g; askForName := askForName g;
     currentStep := currentStep g |}.
Definition setConsequences (x : list (gmap str kvalue)) (g : t) : t :=
  {| gameName := gameName g; mainMenuItems := mainMenuItems g;
     inventory := inventory g; stats := stats g; variables := variables g;
     steps := steps g; endings := endings g; conditions := conditions g;
     checkpoints := checkpoints g; randomEvents := randomEvents g;
     consequences := x; askForName := askForName g;
     currentStep := currentStep g |}.
Definition setAskForName (x : bool) (g : t) : t :=
  {| gameName := gameName g; mainMenuItems := mainMenuItems g;
     inventory := inventory g; stats := stats g; variables := variables g;
     steps := steps g; endings := endings g; conditions := conditions g;
     checkpoints := checkpoints g; randomEvents := randomEvents g;
     consequences := consequences g; askForName := x;
     currentStep := currentStep g |}.
Definition setCurrentStep (x : option str) (g : t) : t :=
  {| gameName := gameName g; mainMenuItems := mainMenuItems g;
     inventory := inventory g; stats := stats g; variables := variables g;
     steps := steps g; endings := endings g; conditions := conditions g;
     checkpoints := checkpoints g; randomEvents := randomEvents g;
     consequences := consequences g; askForName := askForName g;
     currentStep := x |}.

End GameData.

Record ParserState := {
  gameData : GameData.t;
  currentSection : option str;       (* e.g. GAME_NAME, STEP_1, INVENTORY *)
  currentSubSection : option str;    (* NARRATIVE or CHOICES, within STEP_X *)
  currentContentBuffer : list str
}.

(** [if (!gameData.steps[stepKey]) gameData.steps[stepKey] = {...}]: a step
    is created when the steps have none by that name and inherit none
    either (what [gameData.steps] inherits from [Object.prototype] is
    truthy). *)
Definition ensureStep (stepKey : str) (steps : gmap str Step) : gmap str Step :=
  match steps !! stepKey with
  | Some _ => steps
  | None =>
      if inherited stepKey then steps
      else <[stepKey := {| narrative := []; choices := [] |}]> steps
  end.

(** [gameData.steps[stepKey].narrative = text] and
    [gameData.steps[stepKey].choices = cs]: after [ensureStep] the step is
    one of the game, or an object the steps inherit; writing to the latter
    leaves the steps of the game as they are. *)
Definition setNarrative (stepKey text : str) (steps : gmap str Step) : gmap str Step :=
  match steps !! stepKey with
  | Some st => <[stepKey := {| narrative := text; choices := choices st |}]> steps
  | None => steps
  end.

Definition setChoices (stepKey : str) (cs : list Choice) (steps : gmap str Step)
    : gmap str Step :=
  match steps !! stepKey with
  | Some st => <[stepKey := {| narrative := narrative st; choices := cs |}]> steps
  | None => steps
  end.

(** The [switch] of [processBuffer] over the top-level sections. *)
Definition storeSection (section sectionContent : str) (g : GameData.t)
    : result GameData.t :=
  if strEq section (lit "GAME_NAME") then Ok (GameData.setGameName sectionContent g)
  else if strEq section (lit "MAIN_MENU") then
    Ok (GameData.setMainMenuItems
          (List.filter (fun item => (0 <? length item)%nat)
                       (map trim (split 10 sectionContent))) g)
  else if strEq section (lit "INVENTORY") then
    try! kv := parseKeyValue sectionContent in Ok (GameData.setInventory kv g)
  else if strEq section (lit "STATS") then
    try! kv := parseKeyValue sectionContent in Ok (GameData.setStats kv g)
  else if strEq section (lit "VARIABLES") then
    try! kv := parseKeyValue sectionContent in Ok (GameData.setVariables kv g)
  else if strEq section (lit "ENDING_SUCCESS") then
    let e := GameData.endings g in
    Ok (GameData.setEndings
          {| success := sectionContent; failure := failure e; neutral := neutral e |} g)
  else if strEq section (lit "ENDING_FAILURE") then
    let e := GameData.endings g in
    Ok (GameData.setEndings
          {| success := success e; failure := sectionContent; neutral := neutral e |} g)
  else if strEq section (lit "ENDING_NEUTRAL") then
    let e := GameData.endings g in
    Ok (GameData.setEndings
          {| success := success e; failure := failure e; neutral := sectionContent |} g)
  else if strEq section (lit "CONDITIONS") then
    try! cs := parseConditions sectionContent in Ok (GameData.setConditions cs g)
  else if strEq section (lit "CHECKPOINT") then
    Ok (GameData.setCheckpoints (parseCheckpoints sectionContent) g)
  else if strEq section (lit "RANDOM_EVENT") then
    try! es := parseRandomEvent sectionContent in Ok (GameData.setRandomEvents es g)
  else if strEq section (lit "CONSEQUENCE") then
    try! cs := parseConsequence sectionContent in Ok (GameData.setConsequences cs g)
  else if strEq section (lit "NAME") then
    Ok (GameData.setAskForName (strEq (toLowerCase sectionContent) (lit "true")) g)
  else Ok g.

Definition processBuffer (st : ParserState) : result ParserState :=
  let g := gameData st in
  let buffer := currentContentBuffer st in
  try! g' :=
    if truthyOpt (currentSubSection st) then
      match currentSection st with
      | None => Throw TypeError          (* currentSection.replace on null *)
      | Some section =>
          let stepKey := replace (lit "STEP_") [] section in
          let steps := ensureStep stepKey (GameData.steps g) in
          if strEq (interp (currentSubSection st)) (lit "NARRATIVE") then
            Ok (GameData.setSteps
                  (setNarrative stepKey (trim (join [10] buffer)) steps) g)
          else if strEq (interp (currentSubSection st)) (lit "CHOICES") then
            try! cs := parseChoices buffer in
            Ok (GameData.setSteps (setChoices stepKey cs steps) g)
          else Ok (GameData.setSteps steps g)
      end
    else if truthyOpt (currentSection st) then
      storeSection (interp (currentSection st)) (trim (join [10] buffer)) g
    else Ok g in
  Ok {| gameData := g';
        currentSection := currentSection st;
        currentSubSection := currentSubSection st;
        currentContentBuffer := [] |}.

Definition outsideStep (tag : str) : exn :=
  Error (lit "Invalid .adv file format: [" ++ tag
         ++ lit "] found outside of a [STEP_X] block.").

(** The body of the main loop for one line. *)
Definition scanLine (st : ParserState) (line : str) : result ParserState :=
  let trimmedLine := trim line in
  if startsWith (lit "[") trimmedLine && endsWith (lit "]") trimmedLine then
    try! st := processBuffer st in
    let tag := take (length trimmedLine - 2) (drop 1 trimmedLine) in
    let g := gameData st in
    if startsWith (lit "STEP_") tag then
      Ok {| gameData :=
              GameData.setSteps
                (ensureStep (replace (lit "STEP_") [] tag) (GameData.steps g)) g;
            currentSection := Some tag;
            currentSubSection := None;
            currentContentBuffer := currentContentBuffer st |}
    else if strEq tag (lit "NARRATIVE") || strEq tag (lit "CHOICES") then
      if negb (truthyOpt (currentSection st))
         || negb (startsWith (lit "STEP_") (interp (currentSection st)))
      then Throw (outsideStep tag)
      else Ok {| gameData := g;
                 currentSection := currentSection st;
                 currentSubSection := Some tag;
                 currentContentBuffer := currentContentBuffer st |}
    else if startsWith (lit "/") tag then
      if strEq tag (lit "/" ++ interp (currentSubSection st)) then
        Ok {| gameData := g;
              currentSection := currentSection st;
              currentSubSection := None;
              currentContentBuffer := currentContentBuffer st |}
      else if strEq tag (lit "/" ++ interp (currentSection st)) then
        Ok {| gameData := g;
              currentSection := None;
              currentSubSection := currentSubSection st;
              currentContentBuffer := currentContentBuffer st |}
      else Ok st
    else
      Ok {| gameData := g;
            currentSection := Some tag;
            currentSubSection := None;
            currentContentBuffer := currentContentBuffer st |}
  else
    Ok {| gameData := gameData st;
          currentSection := currentSection st;
          currentSubSection := currentSubSection st;
          currentContentBuffer := currentContentBuffer st ++ [line] |}.

Definition missingGameName : exn :=
  Error (lit "Invalid .adv file format: Missing [GAME_NAME] section.").
Definition missingMainMenu : exn :=
  Error (lit "Invalid .adv file format: Missing or empty [MAIN_MENU] section.").
Definition missingSteps : exn :=
  Error (lit "Invalid .adv file format: No [STEP_X] sections found.").

Definition finalValidation (g : GameData.t) : result GameData.t :=
  if negb (truthy (GameData.gameName g)) then Throw missingGameName
  else if (length (GameData.mainMenuItems g) =? 0)%nat then Throw missingMainMenu
  else if (size (GameData.steps g) =? 0)%nat then Throw missingSteps
  else Ok g.

Definition parseFile (content : str) : result GameData.t :=
  let lines := split 10 content in
  try! st := forEach scanLine lines
               {| gameData := GameData.empty;
                  currentSection := None;
                  currentSubSection := None;
                  currentContentBuffer := [] |} in
  try! st := processBuffer st in
  finalValidation (gameData st).

End FileParser.

Import FileParser.

(** ** inventoryManager.js

    The store maps an item name to the quantity on hand.  Quantities are
    whole numbers: that is what [parseInt] hands to [addItem] and
    [removeItem].

    The store of the engine is an object literal holding doubles.  The
    model is that store where the two agree: for an item name that is
    [ordinary] (a name the object does not inherit: for an inherited name
    the engine reads a function where the model reads 0), and for
    quantities that are safe integers (beyond, the engine rounds).  The
    properties that say what a quantity becomes state these bounds as
    hypotheses ([exactFor], below). *)

Module InventoryManager.

Definition ordinary (itemName : str) : Prop := inherited itemName = false.

(** [this.inventory[itemName] || 0], for a name the store does not
    inherit. *)
Definition onHand (inv : gmap str Z) (itemName : str) : Z :=
  match inv !! itemName with
  | Some q => q
  | None => 0%Z
  end.

Definition hasItem (inv : gmap str Z) (itemName : str) (requiredQuantity : Z) : bool :=
  if negb (truthy itemName) then false
  else (requiredQuantity <=? onHand inv itemName)%Z.

(** The methods that mutate the store return their result together with the
    store they leave behind. *)
Definition addItem (inv : gmap str Z) (itemName : str) (quantity : Z)
    : bool * gmap str Z :=
  if negb (truthy itemName) || (quantity <=? 0)%Z then (false, inv)
  else (true, <[itemName := (onHand inv itemName + quantity)%Z]> inv).

Definition removeItem (inv : gmap str Z) (itemName : str) (quantity : Z)
    : bool * gmap str Z :=
  if negb (truthy itemName) || (quantity <=? 0)%Z then (false, inv)
  else if negb (hasItem inv itemName quantity) then (false, inv)
  else
    let left := (onHand inv itemName - quantity)%Z in
    if (left <=? 0)%Z then (true, delete itemName inv)
    else (true, <[itemName := left]> inv).

Definition getItemQuantity (inv : gmap str Z) (itemName : str) : Z :=
  onHand inv itemName.

(** [const [itemName, quantityStr] = spec.split(':').map(s => s.trim())] *)
Definition itemAndQuantity (spec : str) : str * option str :=
  let pieces := map trim (split 58 spec) in
  (orEmpty (pieces !! 0%nat), pieces !! 1%nat).

Definition checkInventoryCondition (inv : gmap str Z) (condition : str) : bool :=
  if negb (truthy condition) then true
  else if includes (lit ":") condition then
    let '(itemName, quantityStr) := itemAndQuantity condition in
    hasItem inv itemName (orOne (parseIntOpt quantityStr))
  else hasItem inv (trim condition) 1.

Definition applyInventoryConsequence (inv : gmap str Z) (consequence : str)
    : bool * gmap str Z :=
  if negb (truthy consequence) then (false, inv)
  else
    let trimmed := trim consequence in
    if startsWith (lit "USE ") trimmed then
      let itemSpec := trim (substring 4 trimmed) in
      let '(itemName, quantityStr) :=
        if includes (lit ":") itemSpec then itemAndQuantity itemSpec
        else (itemSpec, Some (lit "1")) in
      removeItem inv itemName (orOne (parseIntOpt quantityStr))
    else if startsWith (lit "SET ") trimmed && includes (lit "inventory:") trimmed then
      let spec := trim (substring 4 trimmed) in
      if startsWith (lit "inventory:") spec then
        let '(itemName, quantityStr) := itemAndQuantity (substring 10 spec) in
        let quantity := orOne (parseIntOpt quantityStr) in
        if (0 <? quantity)%Z then addItem inv itemName quantity
        else if (quantity <? 0)%Z then removeItem inv itemName (Z.abs quantity)
        else (false, inv)
      else (false, inv)
    else (false, inv).

Definition getTotalItemCount (inv : gmap str Z) : Z :=
  map_fold (fun _ quantity sum => (sum + quantity)%Z) 0%Z inv.

Definition isEmpty (inv : gmap str Z) : bool := (size inv =? 0)%nat.

(** What [serialize] returns, and what a save file may hold in its place:
    [None] is a property that is missing. *)
Record Saved := {
  savedInventory : option (gmap str Z);
  totalItems : option Z
}.

Definition serialize (inv : gmap str Z) : Saved :=
  {| savedInventory := Some inv; totalItems := Some (getTotalItemCount inv) |}.

(** Any object is truthy, an empty one too. *)
Definition deserialize (data : option Saved) : gmap str Z :=
  match data with
  | Some {| savedInventory := Some inv |} => inv
  | _ => ∅
  end.

(** The quantities of the [INVENTORY] section: the entries that are whole
    numbers.  The engine copies every entry; an entry holding text or a
    fraction has no counterpart in a store of whole quantities and is left
    out of the model, which is the store of the engine for the games whose
    [INVENTORY] section holds whole quantities only. *)
Definition quantities (inventory : gmap str kvalue) : gmap str Z :=
  omap (fun v => match v with KNum n => toWhole n | KStr _ => None end) inventory.

(** The store [initializeInventory] installs as the global manager. *)
Definition initializeInventory (gameData : GameData.t) : gmap str Z :=
  quantities (GameData.inventory gameData).

Definition resetInventory : gmap str Z := ∅.

(** What [\w] matches. *)
Definition isWordChar (c : N) : bool :=
  isDigit c || (65 <=? c) && (c <=? 90) || (97 <=? c) && (c <=? 122) || (c =? 95).

(** [l.toUpperCase()] for a character [\w] matches. *)
Definition upper (c : N) : N :=
  if (97 <=? c) && (c <=? 122) then c - 32 else c.

(** [s.replace(/\b\w/g, l => l.toUpperCase())]: a word character is at a
    word boundary when the character before it, if any, is not one. *)
Fixpoint capitaliseFrom (afterWordChar : bool) (s : str) : str :=
  match s with
  | [] => []
  | c :: r =>
      (if isWordChar c && negb afterWordChar then upper c else c)
      :: capitaliseFrom (isWordChar c) r
  end.

Definition formatItemName (itemName : str) : str :=
  capitaliseFrom false (map (fun c => if c =? 95 then 32 else c) itemName).

End InventoryManager.

(** ** gameState.js

    The module keeps the history of visited steps, the position in it, the
    play statistics and the user name; saves live in [localStorage] as JSON
    text, modelled by the value the text parses to. *)

Module GameState.

Record Stats := { playTime : Z; choicesMade : Z }.

(** A saved game as read back from JSON: a property may be missing. *)
Record Save := {
  savedUserName : option str;
  savedStoryHistory : option (list str);
  savedCurrentHistoryIndex : option Z;
  savedCurrentStep : option str;
  savedGameStats : option Stats;
  savedInventory : option InventoryManager.Saved
}.

Record t := {
  storyHistory : list str;
  currentHistoryIndex : Z;     (* -1: no history yet *)
  gameStats : Stats;
  userName : str;
  localStorage : gmap str Save
}.

Definition initial : t := {|
  storyHistory := [];
  currentHistoryIndex := -1;
  gameStats := {| playTime := 0; choicesMade := 0 |};
  userName := [];
  localStorage := ∅ |}.

(** What a template literal makes of an argument. *)
Inductive arg :=
| AString (s : str)
| AObject (o : Save)
| AUndefined.

Definition toString (a : arg) : str :=
  match a with
  | AString s => s
  | AObject _ => lit "[object Object]"
  | AUndefined => lit "undefined"
  end.

Definition savestateKey (gameName slot : arg) : str :=
  lit "piGameSavestate_" ++ toString gameName ++ lit "_" ++ toString slot.

Definition saveGameState (gameName slot : arg) (gameState : Save) (g : t) : bool * t :=
  (true,
   {| storyHistory := storyHistory g;
      currentHistoryIndex := currentHistoryIndex g;
      gameStats := gameStats g;
      userName := userName g;
      localStorage := <[savestateKey gameName slot := gameState]> (localStorage g) |}).

(** [loadGameState] restores the module state and the global inventory from
    the slot, and returns the saved object, or [null] when the slot is
    empty. *)
Definition loadGameState (gameName slot : arg) (g : t) (inv : gmap str Z)
    : option Save * t * gmap str Z :=
  match localStorage g !! savestateKey gameName slot with
  | Some o =>
      (Some o,
       {| storyHistory := default [] (savedStoryHistory o);
          currentHistoryIndex := default (-1)%Z (savedCurrentHistoryIndex o);
          gameStats := default {| playTime := 0; choicesMade := 0 |} (savedGameStats o);
          userName := default [] (savedUserName o);
          localStorage := localStorage g |},
       match savedInventory o with
       | Some data => InventoryManager.deserialize (Some data)
       | None => inv
       end)
  | None => (None, g, inv)
  end.

(** [a.slice(0, e)] *)
Definition slice0 {A} (e : Z) (l : list A) : list A :=
  if (0 <=? e)%Z then take (Z.to_nat e) l
  else take (Z.to_nat (Z.of_nat (length l) + e)) l.

Definition pushStoryToHistory (story : str) (g : t) : t :=
  let h :=
    if (currentHistoryIndex g <? Z.of_nat (length (storyHistory g)) - 1)%Z
    then slice0 (currentHistoryIndex g + 1) (storyHistory g)
    else storyHistory g in
  {| storyHistory := h ++ [story];
     currentHistoryIndex := Z.of_nat (length (h ++ [story])) - 1;
     gameStats := gameStats g;
     userName := userName g;
     localStorage := localStorage g |}.

Definition goBackInHistory (g : t) : option str * t :=
  if (0 <? currentHistoryIndex g)%Z then
    let i := (currentHistoryIndex g - 1)%Z in
    (storyHistory g !! Z.to_nat i,
     {| storyHistory := storyHistory g;
        currentHistoryIndex := i;
        gameStats := gameStats g;
        userName := userName g;
        localStorage := localStorage g |})
  else (None, g).

Definition canGoBack (g : t) : bool := (0 <? currentHistoryIndex g)%Z.

Definition clearStoryHistory (g : t) : t :=
  {| storyHistory := [];
     currentHistoryIndex := -1;
     gameStats := gameStats g;
     userName := userName g;
     localStorage := localStorage g |}.

Definition setUserName (name : str) (g : t) : t :=
  {| storyHistory := storyHistory g;
     currentHistoryIndex := currentHistoryIndex g;
     gameStats := gameStats g;
     userName := name;
     localStorage := localStorage g |}.

Definition getUserName (g : t) : str := userName g.

Definition getSerializableGameState (currentStep : option str) (g : t)
    (inv : gmap str Z) : Save :=
  {| savedUserName := Some (userName g);
     savedStoryHistory := Some (storyHistory g);
     savedCurrentHistoryIndex := Some (currentHistoryIndex g);
     savedCurrentStep := currentStep;
     savedGameStats := Some (gameStats g);
     savedInventory := Some (InventoryManager.serialize inv) |}.

Definition hasInventoryItem (inv : gmap str Z) (itemName : str) (quantity : Z) : bool :=
  InventoryManager.hasItem inv itemName quantity.

Definition incrementChoicesMade (g : t) : t :=
  {| storyHistory := storyHistory g;
     currentHistoryIndex := currentHistoryIndex g;
     gameStats := {| playTime := playTime (gameStats g);
                     choicesMade := choicesMade (gameStats g) + 1 |};
     userName := userName g;
     localStorage := localStorage g |}.

(** [key.substring(key.lastIndexOf(c) + 1)]: the whole key when [c] does not
    occur in it. *)
Fixpoint afterLast (c : N) (key : str) : str :=
  match key with
  | [] => []
  | x :: r =>
      if includes [c] r then afterLast c r
      else if x =? c then r
      else key
  end.

(** The slots saved for a game: of every key of the storage that begins with
    the prefix of the game, what follows its last underscore.  The storage
    hands out its keys in an order of its own; the model lists them in the
    order of the map. *)
Definition listSaveGames (gameName : arg) (g : t) : list str :=
  map (afterLast 95)
      (List.filter (startsWith (lit "piGameSavestate_" ++ toString gameName ++ lit "_"))
                   (map fst (map_to_list (localStorage g)))).

End GameState.

(** ** menuHandler.js

    The handler owns the menu on screen, the loaded game (with the step
    being shown) and the back-navigation flag; it drives the history of
    [gameState.js].  The terminal is modelled by the sequence of calls that
    write to it (for a prompt line, the call and the message it is given).
    A timer that delays or fades a display runs once the handler that set
    it has returned, and before the next key: what it writes comes after
    what the handler wrote. *)

Module MenuHandler.

Inductive ui :=
| Cleared                                 (* terminal.innerHTML = '' *)
| Text (s : str)                          (* a span appended *)
| Prompt (message : option str)           (* the call addNewPromptLine(terminal, message) *)
| Rendered (items : list str) (selected : nat)   (* renderMenuItems *)
| FontSize (size : str)
| FontColor (color : str).

Record t := {
  selectedMenuItemIndex : nat;
  currentMenuItems : list str;
  currentMenuType : str;
  gameData : GameData.t;
  isGoingBack : bool;
  gameState : GameState.t;
  inventoryManager : gmap str Z;          (* the global inventory manager *)
  overlayVisible : bool;
  terminal : list ui
}.

Inductive key := ArrowUp | ArrowDown | Enter | OtherKey.

Definition write (u : list ui) (w : t) : t :=
  {| selectedMenuItemIndex := selectedMenuItemIndex w;
     currentMenuItems := currentMenuItems w;
     currentMenuType := currentMenuType w;
     gameData := gameData w;
     isGoingBack := isGoingBack w;
     gameState := gameState w;
     inventoryManager := inventoryManager w;
     overlayVisible := overlayVisible w;
     terminal := terminal w ++ u |}.

Definition renderMenuItems (w : t) : t :=
  write [Rendered (currentMenuItems w) (selectedMenuItemIndex w)] w.

(** [currentMenuItems = items; currentMenuType = type; selectedMenuItemIndex = 0] *)
Definition setMenu (items : list str) (type : str) (w : t) : t :=
  {| selectedMenuItemIndex := 0;
     currentMenuItems := items;
     currentMenuType := type;
     gameData := gameData w;
     isGoingBack := isGoingBack w;
     gameState := gameState w;
     inventoryManager := inventoryManager w;
     overlayVisible := overlayVisible w;
     terminal := terminal w |}.

Definition setItems (items : list str) (w : t) : t :=
  {| selectedMenuItemIndex := selectedMenuItemIndex w;
     currentMenuItems := items;
     currentMenuType := currentMenuType w;
     gameData := gameData w;
     isGoingBack := isGoingBack w;
     gameState := gameState w;
     inventoryManager := inventoryManager w;
     overlayVisible := overlayVisible w;
     terminal := terminal w |}.

Definition setSelected (i : nat) (w : t) : t :=
  {| selectedMenuItemIndex := i;
     currentMenuItems := currentMenuItems w;
     currentMenuType := currentMenuType w;
     gameData := gameData w;
     isGoingBack := isGoingBack w;
     gameState := gameState w;
     inventoryManager := inventoryManager w;
     overlayVisible := overlayVisible w;
     terminal := terminal w |}.

Definition setGameData (g : GameData.t) (w : t) : t :=
  {| selectedMenuItemIndex := selectedMenuItemIndex w;
     currentMenuItems := currentMenuItems w;
     currentMenuType := currentMenuType w;
     gameData := g;
     isGoingBack := isGoingBack w;
     gameState := gameState w;
     inventoryManager := inventoryManager w;
     overlayVisible := overlayVisible w;
     terminal := terminal w |}.

Definition setCurrentStep (step : option str) (w : t) : t :=
  setGameData (GameData.setCurrentStep step (gameData w)) w.

Definition setIsGoingBack (b : bool) (w : t) : t :=
  {| selectedMenuItemIndex := selectedMenuItemIndex w;
     currentMenuItems := currentMenuItems w;
     currentMenuType := currentMenuType w;
     gameData := gameData w;
     isGoingBack := b;
     gameState := gameState w;
     inventoryManager := inventoryManager w;
     overlayVisible := overlayVisible w;
     terminal := terminal w |}.

Definition setGameState (g : GameState.t) (w : t) : t :=
  {| selectedMenuItemIndex := selectedMenuItemIndex w;
     currentMenuItems := currentMenuItems w;
     currentMenuType := currentMenuType w;
     gameData := gameData w;
     isGoingBack := isGoingBack w;
     gameState := g;
     inventoryManager := inventoryManager w;
     overlayVisible := overlayVisible w;
     terminal := terminal w |}.

Definition setInventoryManager (inv : gmap str Z) (w : t) : t :=
  {| selectedMenuItemIndex := selectedMenuItemIndex w;
     currentMenuItems := currentMenuItems w;
     currentMenuType := currentMenuType w;
     gameData := gameData w;
     isGoingBack := isGoingBack w;
     gameState := gameState w;
     inventoryManager := inv;
     overlayVisible := overlayVisible w;
     terminal := terminal w |}.

Definition setOverlayVisible (b : bool) (w : t) : t :=
  {| selectedMenuItemIndex := selectedMenuItemIndex w;
     currentMenuItems := currentMenuItems w;
     currentMenuType := currentMenuType w;
     gameData := gameData w;
     isGoingBack := isGoingBack w;
     gameState := gameState w;
     inventoryManager := inventoryManager w;
     overlayVisible := b;
     terminal := terminal w |}.

Definition optionsMenuItems : list str :=
  [lit "Font Size"; lit "Font Color"; lit "Back"].

Definition fontSizeMenuItems : list str :=
  [lit "12px"; lit "14px"; lit "16px (Default)"; lit "18px"; lit "20px"; lit "Back"].

Definition fontColorMenuItems : list str :=
  [lit "Red"; lit "Orange"; lit "Yellow"; lit "Green"; lit "Blue"; lit "Indigo";
   lit "Violet"; lit "White (Default)"; lit "Cyan"; lit "Back"].

Definition displayMainMenu (data : GameData.t) (w : t) : t :=
  let w := setGameData data w in
  let w := write [Cleared] w in
  let w := setGameState (GameState.clearStoryHistory (gameState w)) w in
  let w := setMenu (GameData.mainMenuItems data) (lit "main") w in
  let w := write [Text (lit "Main Menu:" ++ [10])] w in
  renderMenuItems w.

(** What a replacement string stands for at one match of a pattern without
    groups: [$$] is a dollar sign, [$&] the text matched, [$`] the text
    before the match and [$'] the text after it; any other character, a
    dollar sign before a digit or [<] included, stands for itself. *)
Fixpoint getSubstitution (matched before after : str) (replacement : str) : str :=
  match replacement with
  | 36 :: 36 :: r => 36 :: getSubstitution matched before after r
  | 36 :: 38 :: r => matched ++ getSubstitution matched before after r
  | 36 :: 96 :: r => before ++ getSubstitution matched before after r
  | 36 :: 39 :: r => after ++ getSubstitution matched before after r
  | c :: r => c :: getSubstitution matched before after r
  | [] => []
  end.

(** [s.replace(/\[USER\]/g, name)]: every occurrence of the pattern, a
    literal text, from left to right; [before] is the part of the string
    already passed. *)
Fixpoint replaceAllFrom (pat rep : str) (before : str) (skip : nat) (s : str) : str :=
  match s with
  | [] => []
  | c :: r =>
      match skip with
      | S k => replaceAllFrom pat rep (before ++ [c]) k r
      | O =>
          if startsWith pat s
          then getSubstitution pat before (drop (length pat) s) rep
               ++ replaceAllFrom pat rep (before ++ [c]) (length pat - 1) r
          else c :: replaceAllFrom pat rep (before ++ [c]) 0 r
      end
  end.

Definition personalise (userName text : str) : str :=
  if truthy userName then replaceAllFrom (lit "[USER]") userName [] 0 text else text.

Definition stepNotFound (stepKey : str) : str :=
  lit "Error: Step " ++ stepKey ++ lit " not found.".

Definition returnItem (n : nat) : str :=
  [N.of_nat (97 + n) mod 65536] ++ lit ") Return to the previous page".

(** What the menu of a step offers: one item per choice, in order. *)
Definition choiceItems (userName : str) (cs : list Choice) : list str :=
  map (fun c => label c ++ lit ") " ++ personalise userName (description c)) cs.

(** How [displayStoryAndMenu] begins: the step being left is pushed on the
    history unless this is a back navigation, the flag is lowered, and the
    step to show becomes the current step. *)
Definition entering (stepKey : str) (w : t) : t :=
  setCurrentStep (Some stepKey)
    (setIsGoingBack false
       (if negb (isGoingBack w) && truthyOpt (GameData.currentStep (gameData w))
        then setGameState
               (GameState.pushStoryToHistory
                  (interp (GameData.currentStep (gameData w))) (gameState w)) w
        else w)).

(** What a call of [displayStoryAndMenu] does before it returns, for a step
    key the steps do not inherit (the keys of a parsed game and the targets
    of its choices are such). *)
Definition displayStoryAndMenuSync (stepKey : str) (w : t) : t :=
  let w := entering stepKey w in
  match GameData.steps (gameData w) !! stepKey with
  | None => write [Prompt (Some (stepNotFound stepKey))] w
  | Some step =>
      let name := GameState.getUserName (gameState w) in
      let w := write [Text (personalise name (narrative step) ++ [10; 10])] w in
      if (0 <? length (choices step))%nat then
        let items := choiceItems name (choices step) in
        let items :=
          if GameState.canGoBack (gameState w)
          then items ++ [returnItem (length items)]
          else items in
        renderMenuItems (setMenu items (lit "story_choices") w)
      else
        let w := write [Prompt None] w in
        {| selectedMenuItemIndex := selectedMenuItemIndex w;
           currentMenuItems := [];
           currentMenuType := [];
           gameData := gameData w;
           isGoingBack := isGoingBack w;
           gameState := gameState w;
           inventoryManager := inventoryManager w;
           overlayVisible := overlayVisible w;
           terminal := terminal w |}
  end.

(** [displayStoryAndMenu(terminal, stepKey)], as the last thing a handler
    does: the call, and then the timer it has set, which clears the
    terminal 150 ms later. *)
Definition displayStoryAndMenu (stepKey : str) (w : t) : t :=
  write [Cleared] (displayStoryAndMenuSync stepKey w).

Definition displayOptionsMenu (w : t) : t :=
  let w := write [Cleared] w in
  let w := setMenu optionsMenuItems (lit "options") w in
  renderMenuItems (write [Text (lit "Options Menu:" ++ [10])] w).

Definition displayFontSizeMenu (w : t) : t :=
  let w := write [Cleared] w in
  let w := setMenu fontSizeMenuItems (lit "font_size") w in
  renderMenuItems (write [Text (lit "Font Size:" ++ [10])] w).

Definition displayFontColorMenu (w : t) : t :=
  let w := write [Cleared] w in
  let w := setMenu fontColorMenuItems (lit "font_color") w in
  renderMenuItems (write [Text (lit "Font Color:" ++ [10])] w).

(** [gameData.endings[endingType]] *)
Definition endingText (e : Endings) (endingType : str) : option str :=
  if strEq endingType (lit "success") then Some (success e)
  else if strEq endingType (lit "failure") then Some (failure e)
  else if strEq endingType (lit "neutral") then Some (neutral e)
  else None.

Definition endingMenuItems : list str :=
  [lit "Return to the previous page"; lit "Quit to the command prompt"].

Definition isOneOf (s : str) (l : list str) : bool := existsb (strEq s) l.

(** Back navigation, as both menus that offer it perform it:
    [isGoingBack = true], then [goBackInHistory()], then the step found is
    displayed again, or a message when there is none. *)
Definition goBack (w : t) : t :=
  let w := setIsGoingBack true w in
  let '(previousStep, gs) := GameState.goBackInHistory (gameState w) in
  let w := setGameState gs w in
  if truthyOpt previousStep then displayStoryAndMenu (interp previousStep) w
  else write [Prompt (Some (lit "No previous page to return to."))] w.

(** The choice under the cursor: [currentStep.choices[choiceIndex]] when
    the step being shown exists. *)
Definition choiceAt (w : t) : option Choice :=
  match GameData.steps (gameData w) !! interp (GameData.currentStep (gameData w)) with
  | Some currentStep => choices currentStep !! selectedMenuItemIndex w
  | None => None
  end.

Definition endingNotFound (endingType : str) : str :=
  lit "Error: Ending " ++ endingType ++ lit " not found.".

(** The [story_choices] branch of the Enter key. *)
Definition selectStoryChoice (selectedItem : option str) (w : t) : result t :=
  let g := gameData w in
  match choiceAt w with
  | Some choice =>
      let targetStep := replace (lit "STEP_") [] (target choice) in
      if startsWith (lit "ENDING_") targetStep then
        let endingType := toLowerCase (replace (lit "ENDING_") [] targetStep) in
        if truthyOpt (endingText (GameData.endings g) endingType) then
          let w := write [Cleared;
                          Text (interp (endingText (GameData.endings g) endingType)
                                ++ [10; 10]);
                          Text (lit "Congratulations! You completed "
                                ++ GameData.gameName g ++ lit "!" ++ [10; 10])] w in
          Ok (renderMenuItems (setMenu endingMenuItems (lit "ending_options") w))
        else Ok (write [Prompt (Some (endingNotFound endingType))] w)
      else
        Ok (displayStoryAndMenu targetStep (setCurrentStep (Some targetStep) w))
  | None =>
      match selectedItem with
      | None => Throw TypeError            (* selectedItem.includes on undefined *)
      | Some item =>
          if includes (lit "Return to the previous page") item then Ok (goBack w)
          else Ok (write [Prompt (Some (lit "Invalid choice."))] w)
      end
  end.

(** The [ending_options] branch: the [case] labels are compared with the
    selected item as the source spells them. *)
Definition selectEndingOption (selectedItem : option str) (w : t) : t :=
  match selectedItem with
  | Some item =>
      if strEq item (lit "Return to the previous Page") then goBack w
      else if strEq item (lit "Quit to command prompt") then
        let w := write [Cleared; Prompt None] w in
        {| selectedMenuItemIndex := selectedMenuItemIndex w;
           currentMenuItems := [];
           currentMenuType := [];
           gameData := gameData w;
           isGoingBack := isGoingBack w;
           gameState := gameState w;
           inventoryManager := inventoryManager w;
           overlayVisible := overlayVisible w;
           terminal := terminal w |}
      else write [Prompt (Some (lit "Invalid choice."))] w
  | None => write [Prompt (Some (lit "Invalid choice."))] w
  end.

(** [handleMenuNavigation(e, terminal)]: the new state and the value
    returned (the selected item when the menu was left, [null] otherwise).
    [answer] is what the player types if asked for a name. *)
Definition handleMenuNavigation (e : key) (answer : str) (w : t)
    : result (option str * t) :=
  let n := length (currentMenuItems w) in
  if (0 <? n)%nat then
    match e with
    | ArrowUp =>
        Ok (None, renderMenuItems
                    (setSelected ((selectedMenuItemIndex w + n - 1) mod n)%nat w))
    | ArrowDown =>
        Ok (None, renderMenuItems
                    (setSelected ((selectedMenuItemIndex w + 1) mod n)%nat w))
    | Enter =>
        let selectedItem := currentMenuItems w !! selectedMenuItemIndex w in
        let type := currentMenuType w in
        if strEq type (lit "main") then
          match selectedItem with
          | None => Ok (None, write [Prompt None] w)
          | Some item =>
              if strEq item (lit "Start New Game") then
                let w :=
                  if GameData.askForName (gameData w)
                  then setGameState (GameState.setUserName answer (gameState w)) w
                  else w in
                let w := setCurrentStep (Some (lit "1")) w in
                Ok (selectedItem, displayStoryAndMenu (lit "1") w)
              else if strEq item (lit "Load Game") then Ok (None, w)
              else if strEq item (lit "Options") then Ok (None, displayOptionsMenu w)
              else if strEq item (lit "Exit") then
                Ok (selectedItem, setItems [] (write [Cleared; Prompt None] w))
              else Ok (None, write [Prompt None] w)
          end
        else if strEq type (lit "options") then
          match selectedItem with
          | None => Ok (None, write [Prompt None] w)
          | Some item =>
              if strEq item (lit "Font Size") then Ok (None, displayFontSizeMenu w)
              else if strEq item (lit "Font Color") then Ok (None, displayFontColorMenu w)
              else if strEq item (lit "Back") then
                Ok (None, setItems [] (write [Cleared; Prompt None] w))
              else Ok (None, write [Prompt None] w)
          end
        else if strEq type (lit "font_size") then
          match selectedItem with
          | None => Ok (None, write [Prompt None] w)
          | Some item =>
              if isOneOf item [lit "12px"; lit "14px"; lit "16px (Default)";
                               lit "18px"; lit "20px"] then
                Ok (None, displayOptionsMenu
                            (write [FontSize (replace (lit " (Default)") [] item)] w))
              else if strEq item (lit "Back") then Ok (None, displayOptionsMenu w)
              else Ok (None, write [Prompt None] w)
          end
        else if strEq type (lit "font_color") then
          match selectedItem with
          | None => Ok (None, write [Prompt None] w)
          | Some item =>
              if isOneOf item [lit "Red"; lit "Orange"; lit "Yellow"; lit "Green";
                               lit "Blue"; lit "Indigo"; lit "Violet";
                               lit "White (Default)"; lit "Cyan"] then
                Ok (None, displayOptionsMenu
                            (write [FontColor (replace (lit " (Default)") [] item)] w))
              else if strEq item (lit "Back") then Ok (None, displayOptionsMenu w)
              else Ok (None, write [Prompt None] w)
          end
        else if strEq type (lit "story_choices") then
          try! w' := selectStoryChoice selectedItem w in Ok (None, w')
        else if strEq type (lit "ending_options") then
          Ok (None, selectEndingOption selectedItem w)
        else Ok (None, w)
    | OtherKey => Ok (None, w)
    end
  else Ok (None, w).

(** The handler of a save file once read: [parsed] is what [JSON.parse]
    made of it, or the message of the error it threw.  The saved object is handed to
    [loadGameState] as its first argument. *)
Definition onSaveFileRead (parsed : GameState.Save + str) (w : t) : t :=
  match parsed with
  | inr message => write [Prompt (Some (lit "Error parsing save file: " ++ message))] w
  | inl saved =>
      let '(_, gs, inv) :=
        GameState.loadGameState (GameState.AObject saved) GameState.AUndefined
                                (gameState w) (inventoryManager w) in
      let w := setInventoryManager inv (setGameState gs w) in
      if truthyOpt (GameState.savedCurrentStep saved) then
        displayStoryAndMenu (interp (GameState.savedCurrentStep saved))
          (setCurrentStep (GameState.savedCurrentStep saved) w)
      else write [Prompt (Some (lit "Loaded game state, but no current step found."))] w
  end.

(** [toggleOverlayMenu(terminal)], followed by what the handler that calls
    it goes on to do ([rest]): the timer of the step shown again, if any,
    runs after that. *)
Definition toggleOverlayMenuThen (rest : t -> t) (w : t) : t :=
  if overlayVisible w then
    let w := setOverlayVisible false w in
    if truthyOpt (GameData.currentStep (gameData w))
    then write [Cleared]
           (rest (displayStoryAndMenuSync (interp (GameData.currentStep (gameData w))) w))
    else rest (write [Prompt None] w)
  else if negb (truthyOpt (GameData.currentStep (gameData w))) then rest w
  else rest (setOverlayVisible true w).

Definition toggleOverlayMenu (w : t) : t := toggleOverlayMenuThen (fun w => w) w.

(** The save-and-quit button: the object written to the save file, and the
    state after the overlay is hidden and the main menu shown again. *)
Definition saveAndQuit (w : t) : GameState.Save * t :=
  let saved :=
    GameState.getSerializableGameState (GameData.currentStep (gameData w))
                                       (gameState w) (inventoryManager w) in
  let w := toggleOverlayMenu w in
  (saved, displayMainMenu (gameData w) w).


(** The state in which a freshly loaded story shows its main menu: what the
    [load] command sets up from the parsed file. *)
Definition loaded (data : GameData.t) : t :=
  displayMainMenu data
    {| selectedMenuItemIndex := 0;
       currentMenuItems := [];
       currentMenuType := lit "main";
       gameData := data;
       isGoingBack := false;
       gameState := GameState.initial;
       inventoryManager := InventoryManager.initializeInventory data;
       overlayVisible := false;
       terminal := [] |}.

End MenuHandler.

Import MenuHandler.

(** ** Vocabulary of the properties *)

(** A line of a [CHOICES] block that is not blank and does not match the
    grammar of a choice. *)
Definition malformed (line : str) : Prop :=
  trim line <> [] /\ matchAnchored choiceRegex (trim line) = None.

(** Pressing a sequence of keys; nobody types a name. *)
Definition press (ks : list key) (w : MenuHandler.t) : result MenuHandler.t :=
  forEach (fun w k => try! r := handleMenuNavigation k [] w in Ok (snd r)) ks w.

(** The steps behind the current position of the history: the entries a
    back navigation can still return to. *)
Definition pastSteps (g : GameState.t) : list str :=
  take (Z.to_nat (GameState.currentHistoryIndex g)) (GameState.storyHistory g).

(** The session as the player sees it: the step being shown, the steps
    behind it, the items held. *)
Definition session (w : MenuHandler.t) : option str * list str * gmap str Z :=
  (GameData.currentStep (gameData w), pastSteps (gameState w), inventoryManager w).

(** The history as the engine maintains it: the position is within the
    recorded steps (or -1 when there are none), and every recorded step has
    a name. *)
Definition historyOk (g : GameState.t) : Prop :=
  (-1 <= GameState.currentHistoryIndex g
   < Z.of_nat (length (GameState.storyHistory g)))%Z
  /\ Forall (fun step => step <> []) (GameState.storyHistory g).

(** All the conditions of a choice hold for the items held. *)
Definition conditionsMet (inv : gmap str Z) (c : Choice) : bool :=
  forallb (InventoryManager.checkInventoryCondition inv) (conditions c).

(** A character that separates nothing: not a colon, a comma or a newline. *)
Definition plain (c : N) : Prop := c <> 58 /\ c <> 44 /\ c <> 10.

(** The two forms of a condition: an item name, or an item name and a
    quantity text around a colon. *)
Definition itemForm (condition : str) : Prop :=
  condition <> [] /\ Forall (fun c => c <> 58) condition.

Definition itemQuantityForm (condition : str) : Prop :=
  exists item q, condition = item ++ [58] ++ q.

(** *** Stories used as examples *)

Definition storyGated : str := lit "[GAME_NAME]
Test
[/GAME_NAME]
[MAIN_MENU]
Start New Game
[/MAIN_MENU]
[STEP_1]
[NARRATIVE]
You wake.
[/NARRATIVE]
[CHOICES]
A) Open the door -> STEP_2 {IF key}
B) Go back to sleep -> ENDING_FAILURE
[/CHOICES]
[/STEP_1]
[STEP_2]
[NARRATIVE]
You see light.
[/NARRATIVE]
[CHOICES]
A) Walk -> ENDING_SUCCESS
[/CHOICES]
[/STEP_2]
[ENDING_SUCCESS]
You made it.
[/ENDING_SUCCESS]
[ENDING_FAILURE]
You overslept.
[/ENDING_FAILURE]
".

Definition storyKey : str := lit "[GAME_NAME]
Test
[/GAME_NAME]
[MAIN_MENU]
Start New Game
[/MAIN_MENU]
[INVENTORY]
key: 1
[/INVENTORY]
[STEP_1]
[NARRATIVE]
A locked door.
[/NARRATIVE]
[CHOICES]
A) Use key -> STEP_3 {USE key}
[/CHOICES]
[/STEP_1]
[STEP_3]
[NARRATIVE]
The door is open.
[/NARRATIVE]
[CHOICES]
A) Unlock the chest -> ENDING_SUCCESS {IF key}
[/CHOICES]
[/STEP_3]
[ENDING_SUCCESS]
Gold.
[/ENDING_SUCCESS]
".

Definition storyDangling : str := lit "[GAME_NAME]
Test
[/GAME_NAME]
[MAIN_MENU]
Start New Game
[/MAIN_MENU]
[STEP_1]
[NARRATIVE]
You wake.
[/NARRATIVE]
[CHOICES]
A) Open the door -> STEP_9
[/CHOICES]
[/STEP_1]
".

Definition storyDuplicate : str := lit "[GAME_NAME]
Test
[/GAME_NAME]
[MAIN_MENU]
Start New Game
[/MAIN_MENU]
[STEP_1]
[NARRATIVE]
A fork.
[/NARRATIVE]
[CHOICES]
A) Go left -> STEP_2
A) Go right -> STEP_3
[/CHOICES]
[/STEP_1]
[STEP_2]
[NARRATIVE]
Left.
[/NARRATIVE]
[/STEP_2]
[STEP_3]
[NARRATIVE]
Right.
[/NARRATIVE]
[/STEP_3]
".

Definition storyNoArrow : str := lit "[GAME_NAME]
Test
[/GAME_NAME]
[MAIN_MENU]
Start New Game
[/MAIN_MENU]
[STEP_1]
[NARRATIVE]
You wake.
[/NARRATIVE]
[CHOICES]
B) stay -> STEP_1
A) go STEP_2
[/CHOICES]
[/STEP_1]
".

Definition storyZeroChance : str := lit "[GAME_NAME]
Test
[/GAME_NAME]
[MAIN_MENU]
Start New Game
[/MAIN_MENU]
[STEP_1]
[NARRATIVE]
You wake.
[/NARRATIVE]
[/STEP_1]
[RANDOM_EVENT]
chance: 0, outcome: STEP_2
[/RANDOM_EVENT]
".

(** The game a story parses to, the empty game when it does not parse. *)
Definition gameOf (story : str) : GameData.t :=
  match parseFile story with
  | Ok g => g
  | Throw _ => GameData.empty
  end.

(** Text whose first, respectively last, character is not white space. *)
Definition headOk (s : str) : Prop :=
  exists c r, s = c :: r /\ isWhiteSpace c = false.
Definition lastOk (s : str) : Prop :=
  exists r d, s = r ++ [d] /\ isWhiteSpace d = false.

(** The state a story is in after it is loaded and the keys are pressed
    (the state after loading when a key press throws). *)
Definition after (ks : list key) (story : str) : MenuHandler.t :=
  match press ks (loaded (gameOf story)) with
  | Ok w => w
  | Throw _ => loaded (gameOf story)
  end.

(** Where the store of the model is the store of the engine, for an item
    and a quantity: the name is not one the store inherits, and the stock
    and the quantity are small enough for the stock, the quantity, their
    sum and their difference to be safe integers. *)
Definition exactFor (inv : gmap str Z) (item : str) (quantity : Z) : Prop :=
  InventoryManager.ordinary item
  /\ safeInteger (Z.abs (InventoryManager.onHand inv item) + Z.abs quantity).

(** Every quantity held is positive: what [removeItem] keeps by deleting an
    item that runs out. *)
Definition positiveStock (inv : gmap str Z) : Prop :=
  map_Forall (fun _ quantity => (0 < quantity)%Z) inv.

(** The step being shown is the entry of the history at the current
    position. *)
Definition positionOk (w : MenuHandler.t) : Prop :=
  exists step,
    GameData.currentStep (gameData w) = Some step
    /\ GameState.storyHistory (gameState w)
         !! Z.to_nat (GameState.currentHistoryIndex (gameState w)) = Some step
    /\ (0 <= GameState.currentHistoryIndex (gameState w))%Z.

(** The cursor is on an item of the menu, when there is a menu. *)
Definition menuOk (w : MenuHandler.t) : Prop :=
  currentMenuItems w = []
  \/ (selectedMenuItemIndex w < length (currentMenuItems w))%nat.

(** What a regular expression matches: [run r s c s' c'] when [r] matches at
    the head of [s] leaving [s'], and turns the captures [c] into [c']. *)
Inductive run : re -> str -> caps -> str -> caps -> Prop :=
| run_chr p x s c : p x = true -> run (Chr p) (x :: s) c s c
| run_eps s c : run Eps s c s c
| run_seq a b s c s1 c1 s2 c2 :
    run a s c s1 c1 -> run b s1 c1 s2 c2 -> run (Seq a b) s c s2 c2
| run_alt_l a b s c s' c' : run a s c s' c' -> run (Alt a b) s c s' c'
| run_alt_r a b s c s' c' : run b s c s' c' -> run (Alt a b) s c s' c'
| run_star_stop greedy a s c : run (Star greedy a) s c s c
| run_star_more greedy a s c s1 c1 s2 c2 :
    run a s c s1 c1 -> run (Star greedy a) s1 c1 s2 c2 ->
    run (Star greedy a) s c s2 c2
| run_group i a s c s' c' :
    run a s c s' c' ->
    run (Group i a) s c s' ((i, take (length s - length s') s) :: c')
| run_end c : run End [] c [] c.

(** The target of a choice as the grammar allows it: [STEP_] and digits, or
    one of the three endings. *)
Definition targetOk (target : str) : Prop :=
  (exists ds, ds <> [] /\ Forall (fun c => isDigit c = true) ds
              /\ target = lit "STEP_" ++ ds)
  \/ target = lit "ENDING_SUCCESS" \/ target = lit "ENDING_FAILURE"
  \/ target = lit "ENDING_NEUTRAL".

(** A choice as [parseChoices] makes them. *)
Definition choiceOk (c : Choice) : Prop :=
  (exists l, label c = [l] /\ 65 <= l <= 68)
  /\ targetOk (target c)
  /\ trim (description c) = description c
  /\ Forall (fun x => trim x = x) (conditions c)
  /\ Forall (fun x => startsWith (lit "SET") x = true
                      \/ startsWith (lit "USE") x = true) (consequences c).

(** An action of a consequence line that sets nothing: one target and one
    value around one colon, the target being [__proto__]. *)
Definition idle (action : str) : Prop :=
  exists t v, split 58 action = [t; v] /\ trim t = lit "__proto__".

(** A file that leaves [Object.prototype] as it is: it has no section
    [[STEP___proto__]].  For such a section [gameData.steps[stepKey]] is
    the prototype of every object, on which the parser would store the
    narrative and the choices of the section. *)
Definition plainFile (content : str) : Prop :=
  forallb (fun line => negb (strEq (trim line) (lit "[STEP___proto__]")))
          (split 10 content) = true.

(** A game as [parseFile] makes them. *)
Definition gameOk (g : GameData.t) : Prop :=
  map_Forall (fun _ st => Forall choiceOk (choices st)) (GameData.steps g)
  /\ Forall (fun item => item <> [] /\ trim item = item) (GameData.mainMenuItems g)
  /\ trim (GameData.gameName g) = GameData.gameName g
  /\ Forall (fun ev => truthyNum (chance ev) = true /\ outcome ev <> [])
            (GameData.randomEvents g)
  /\ Forall (fun consequence => consequence <> ∅) (GameData.consequences g).

(** The first step exists and offers choices. *)
Definition firstStepOk (w : MenuHandler.t) : Prop :=
  exists step,
    GameData.steps (gameData w) !! lit "1" = Some step /\ choices step <> [].

(** What holds of a session in every state the keys lead to: the history is
    in order and begins with step 1, no back navigation is pending, the
    cursor is on an item, the step being shown is the one at the current
    position of the history, the menu of a step that cannot be left
    backwards offers its choices and nothing else, and the menu of an
    ending offers the two items of an ending. *)
Definition playOk (w : MenuHandler.t) : Prop :=
  historyOk (gameState w)
  /\ isGoingBack w = false
  /\ menuOk w
  /\ map_Forall (fun _ st => Forall choiceOk (choices st)) (GameData.steps (gameData w))
  /\ ((0 <= GameState.currentHistoryIndex (gameState w))%Z ->
      positionOk w
      /\ GameState.storyHistory (gameState w) !! 0%nat = Some (lit "1"))
  /\ (currentMenuType w = lit "story_choices" -> currentMenuItems w <> [] ->
      (0 <= GameState.currentHistoryIndex (gameState w))%Z
      /\ firstStepOk w
      /\ (GameState.canGoBack (gameState w) = false ->
          exists step,
            GameData.steps (gameData w) !! interp (GameData.currentStep (gameData w))
            = Some step
            /\ length (currentMenuItems w) = length (choices step)))
  /\ (currentMenuType w = lit "ending_options" -> currentMenuItems w = endingMenuItems).

(** Closed facts are settled by running the engine. *)
Ltac by_evaluation :=
  vm_compute; repeat match goal with |- _ /\ _ => split end; reflexivity.

(** Projections of an updated state, and nothing else, are computed. *)
Ltac fields :=
  cbn [selectedMenuItemIndex currentMenuItems currentMenuType gameData
       isGoingBack gameState inventoryManager overlayVisible terminal
       write renderMenuItems setMenu setItems setSelected setGameData
       setCurrentStep setIsGoingBack setGameState setInventoryManager
       setOverlayVisible
       GameData.setCurrentStep GameData.currentStep GameData.steps
       GameData.gameName GameData.mainMenuItems GameData.endings
       GameData.askForName].

(** ** Facts about strings *)

Section StringFacts.

Implicit Types (s p a b : str) (c : N).

Lemma startsWith_app p s : startsWith p (p ++ s) = true.
Proof.
  induction p as [|x p IH]; simpl; [reflexivity|].
  now rewrite N.eqb_refl, IH.
Qed.

Lemma trimStart_nonws c s : isWhiteSpace c = false -> trimStart (c :: s) = c :: s.
Proof. intros H. simpl. now rewrite H. Qed.

Lemma trimStart_head s :
  trimStart s = [] \/ exists c r, trimStart s = c :: r /\ isWhiteSpace c = false.
Proof.
  induction s as [|x s IH]; simpl; [now left|].
  destruct (isWhiteSpace x) eqn:E; [exact IH|].
  right. now exists x, s.
Qed.

Lemma trimEnd_snoc s c : isWhiteSpace c = false -> trimEnd (s ++ [c]) = s ++ [c].
Proof.
  intros H. unfold trimEnd. rewrite rev_app_distr. simpl.
  rewrite H. simpl. now rewrite rev_involutive.
Qed.

Lemma trimEnd_last s :
  trimEnd s = [] \/ exists r d, trimEnd s = r ++ [d] /\ isWhiteSpace d = false.
Proof.
  unfold trimEnd.
  destruct (trimStart_head (rev s)) as [->|(c & r & -> & H)]; [now left|].
  right. exists (rev r), c. simpl. now split.
Qed.

(** The shape of a non-empty text that [trim] leaves alone. *)
Lemma trim_fixed_inv s :
  trim s = s -> s <> [] ->
  (exists c, s = [c] /\ isWhiteSpace c = false)
  \/ exists c a d, s = c :: a ++ [d] /\ isWhiteSpace c = false /\ isWhiteSpace d = false.
Proof.
  intros Ht Hne.
  assert (Hs : trimStart s = s).
  { unfold trim, trimEnd in Ht.
    destruct (trimStart_head s) as [E|(c & r & E & Hc)].
    - rewrite E in Ht. simpl in Ht. now rewrite <- Ht in Hne.
    - destruct s as [|x s]; [now destruct Hne|].
      simpl in *. destruct (isWhiteSpace x) eqn:Hx; [|reflexivity].
      (* trimming can only shorten *)
      exfalso.
      assert (Hlen : forall u : str, (length (trimStart u) <= length u)%nat).
      { clear. induction u as [|y u IH]; simpl; [lia|].
        destruct (isWhiteSpace y); simpl; lia. }
      apply (f_equal (@length N)) in Ht. rewrite length_rev in Ht.
      pose proof (Hlen (rev (trimStart s))) as H1.
      pose proof (Hlen s) as H2.
      rewrite length_rev in H1. simpl in Ht. lia. }
  unfold trim in Ht. rewrite Hs in Ht.
  destruct (trimEnd_last s) as [E|(r & d & E & Hd)].
  - rewrite E in Ht. now rewrite <- Ht in Hne.
  - rewrite Ht in E.
    destruct (trimStart_head s) as [E'|(c & r' & E' & Hc)].
    + rewrite Hs in E'. contradiction.
    + rewrite Hs in E'. destruct r as [|x r].
      * left. exists d. now split.
      * right. exists x, r, d. split; [exact E|]. split; [|exact Hd].
        rewrite E in E'. simpl in E'. now inversion E'; subst.
Qed.

Lemma trim_id s : headOk s -> lastOk s -> trim s = s.
Proof.
  intros (c & r & -> & Hc) (r' & d & E & Hd).
  unfold trim. rewrite trimStart_nonws by exact Hc.
  rewrite E. now apply trimEnd_snoc.
Qed.

Lemma tidy_ends s : trim s = s -> s <> [] -> headOk s /\ lastOk s.
Proof.
  intros Ht Hne.
  destruct (trim_fixed_inv s Ht Hne) as [(c & -> & Hc)|(c & a & d & -> & Hc & Hd)].
  - split; [now exists c, []|now exists [], c].
  - split; [now exists c, (a ++ [d])|now exists (c :: a), d].
Qed.

Lemma headOk_app a b : headOk a -> headOk (a ++ b).
Proof. intros (c & r & -> & H). now exists c, (r ++ b). Qed.

Lemma lastOk_app a b : lastOk b -> lastOk (a ++ b).
Proof.
  intros (r & d & -> & H). exists (a ++ r), d.
  split; [now rewrite app_assoc|exact H].
Qed.

(** A separator that is not white space, followed by text that [trim]
    leaves alone, ends well. *)
Lemma lastOk_sep a d q :
  isWhiteSpace d = false -> trim q = q -> lastOk (a ++ [d] ++ q).
Proof.
  intros Hd Hq. destruct q as [|x q].
  - rewrite app_nil_r. now exists a, d.
  - rewrite app_assoc. apply lastOk_app.
    now apply tidy_ends.
Qed.

Lemma split_plain sep s : Forall (fun c => c <> sep) s -> split sep s = [s].
Proof.
  induction 1 as [|c s Hc _ IH]; simpl; [reflexivity|].
  apply N.eqb_neq in Hc. now rewrite Hc, IH.
Qed.

Lemma split_at sep a b :
  Forall (fun c => c <> sep) a -> split sep (a ++ sep :: b) = a :: split sep b.
Proof.
  induction 1 as [|c a Hc _ IH]; simpl.
  - now rewrite N.eqb_refl.
  - apply N.eqb_neq in Hc. now rewrite Hc, IH.
Qed.

Lemma includes_unfold p s :
  includes p s
  = startsWith p s || match s with [] => false | _ :: r => includes p r end.
Proof. now destruct s. Qed.

Lemma includes_mid p a b : includes p (a ++ p ++ b) = true.
Proof.
  induction a as [|x a IH]; simpl.
  - rewrite includes_unfold. now rewrite startsWith_app.
  - rewrite IH. apply orb_true_r.
Qed.

Lemma includes_char_plain c s : Forall (fun x => x <> c) s -> includes [c] s = false.
Proof.
  induction 1 as [|x s Hx _ IH]; simpl; [reflexivity|].
  rewrite IH. apply not_eq_sym, N.eqb_neq in Hx. now rewrite Hx.
Qed.

(** A text either avoids a character or splits at its first occurrence. *)
Lemma plain_or_split c s :
  Forall (fun x => x <> c) s \/ exists a b, s = a ++ [c] ++ b.
Proof.
  induction s as [|x s IH]; [now left|].
  destruct (N.eq_dec x c) as [->|Hx].
  - right. now exists [], s.
  - destruct IH as [H|(a & b & ->)].
    + left. now constructor.
    + right. now exists (x :: a), b.
Qed.

End StringFacts.

(** ** The matcher

    The fuel of a repetition is enough: more of it never changes a result,
    so a failure to match is a failure of the pattern. *)

Section Matcher.

Implicit Types (r : re) (s : str) (c : caps) (k : str -> caps -> option caps).

Lemma starLoop_ext step greedy k1 k2 :
  (forall s c k k', (forall s' c', k s' c' = k' s' c') -> step s c k = step s c k') ->
  (forall s c, k1 s c = k2 s c) ->
  forall fuel s c, starLoop step greedy k1 fuel s c = starLoop step greedy k2 fuel s c.
Proof.
  intros Hstep Hk. induction fuel as [|fuel IH]; intros s c; simpl; rewrite (Hk s c).
  - reflexivity.
  - rewrite (Hstep s c _
               (fun s' c' => if (length s' <? length s)%nat
                             then starLoop step greedy k2 fuel s' c' else None)).
    + reflexivity.
    + intros s' c'. destruct (length s' <? length s)%nat; [apply IH|reflexivity].
Qed.

(** The result depends on the continuation through its values only. *)
Lemma exec_ext extra r :
  forall s c k k', (forall s' c', k s' c' = k' s' c') ->
                   exec extra r s c k = exec extra r s c k'.
Proof.
  induction r as [p| |a IHa b IHb|a IHa b IHb|greedy a IHa|i a IHa|];
    intros s c k k' H; simpl.
  - destruct s as [|x s]; [reflexivity|]. destruct (p x); [apply H|reflexivity].
  - apply H.
  - apply IHa. intros s' c'. now apply IHb.
  - rewrite (IHa s c k k' H), (IHb s c k k' H). reflexivity.
  - now apply starLoop_ext.
  - apply IHa. intros s' c'. apply H.
  - destruct s; [apply H|reflexivity].
Qed.

Lemma starLoop_fail step greedy :
  (forall s c k k', (forall s' c', k s' c' = k' s' c') -> step s c k = step s c k') ->
  (forall s c, step s c (fun _ _ => None) = None) ->
  forall fuel s c, starLoop step greedy (fun _ _ => None) fuel s c = None.
Proof.
  intros Hext Hfail. induction fuel as [|fuel IH]; intros s c; simpl.
  - now destruct greedy.
  - rewrite (Hext s c _ (fun _ _ => None)).
    + rewrite Hfail. now destruct greedy.
    + intros s' c'. destruct (length s' <? length s)%nat; [apply IH|reflexivity].
Qed.

(** Where the continuation always fails, so does the match. *)
Lemma exec_fail extra r : forall s c, exec extra r s c (fun _ _ => None) = None.
Proof.
  induction r as [p| |a IHa b IHb|a IHa b IHb|greedy a IHa|i a IHa|];
    intros s c; simpl.
  - destruct s as [|x s]; [reflexivity|]. now destruct (p x).
  - reflexivity.
  - rewrite (exec_ext extra a s c _ (fun _ _ => None)); [apply IHa|].
    intros s' c'. apply IHb.
  - now rewrite IHa, IHb.
  - apply starLoop_fail; [apply exec_ext|apply IHa].
  - apply IHa.
  - now destruct s.
Qed.

(** Fuel beyond the characters left is never used. *)
Lemma starLoop_fuel step greedy k :
  (forall s c k k', (forall s' c', k s' c' = k' s' c') -> step s c k = step s c k') ->
  (forall s c, step s c (fun _ _ => None) = None) ->
  forall n m s c,
    (length s <= n)%nat -> (length s <= m)%nat ->
    starLoop step greedy k n s c = starLoop step greedy k m s c.
Proof.
  intros Hext Hfail.
  assert (Hzero : forall m s c, length s = 0%nat ->
                    starLoop step greedy k 0 s c = starLoop step greedy k m s c).
  { intros [|m] s c Hs; [reflexivity|]. simpl.
    rewrite (Hext s c _ (fun _ _ => None)).
    - now rewrite Hfail.
    - intros s' c'. rewrite Hs. now destruct (length s'). }
  induction n as [|n IH]; intros m s c Hn Hm.
  - apply Hzero. lia.
  - destruct m as [|m]; [symmetry; apply Hzero; lia|]. simpl.
    rewrite (Hext s c _
               (fun s' c' => if (length s' <? length s)%nat
                             then starLoop step greedy k m s' c' else None)).
    + reflexivity.
    + intros s' c'. destruct (length s' <? length s)%nat eqn:E; [|reflexivity].
      apply Nat.ltb_lt in E. apply IH; lia.
Qed.

Lemma starLoop_step step1 step2 greedy k :
  (forall s c k k', (forall s' c', k s' c' = k' s' c') -> step1 s c k = step1 s c k') ->
  (forall s c k, step1 s c k = step2 s c k) ->
  forall fuel s c, starLoop step1 greedy k fuel s c = starLoop step2 greedy k fuel s c.
Proof.
  intros Hext Hsame. induction fuel as [|fuel IH]; intros s c; simpl; [reflexivity|].
  rewrite <- Hsame.
  rewrite (Hext s c _
             (fun s' c' => if (length s' <? length s)%nat
                           then starLoop step2 greedy k fuel s' c' else None)).
  - reflexivity.
  - intros s' c'. destruct (length s' <? length s)%nat; [apply IH|reflexivity].
Qed.

(** The matcher is total and its answer is that of a matcher with any
    amount of fuel. *)
Lemma exec_fuel extra r : forall s c k, exec extra r s c k = exec 0 r s c k.
Proof.
  induction r as [p| |a IHa b IHb|a IHa b IHb|greedy a IHa|i a IHa|];
    intros s c k; simpl; try reflexivity.
  - rewrite IHa. apply exec_ext. intros s' c'. apply IHb.
  - now rewrite IHa, IHb.
  - rewrite (starLoop_step (exec extra a) (exec 0 a));
      [|apply exec_ext|exact IHa].
    apply starLoop_fuel; [apply exec_ext|apply exec_fail|lia|lia].
  - apply IHa.
Qed.

End Matcher.

(** ** The item store *)

Section Inventory.

Import InventoryManager.

Implicit Types (inv : gmap str Z) (item q : str).

(** [item:q] splits into the item and its quantity text. *)
Lemma itemAndQuantity_pair item q :
  trim item = item -> trim q = q ->
  Forall (fun c => c <> 58) item -> Forall (fun c => c <> 58) q ->
  itemAndQuantity (item ++ [58] ++ q) = (item, Some q).
Proof.
  intros Hi Hq Ni Nq. unfold itemAndQuantity. simpl.
  rewrite (split_at 58 item q Ni), (split_plain 58 q Nq). simpl.
  now rewrite Hi, Hq.
Qed.

Lemma truthy_true s : s <> [] -> truthy s = true.
Proof. now destruct s. Qed.

Lemma onHand_removeItem_one inv item :
  item <> [] -> (1 <= onHand inv item)%Z ->
  removeItem inv item 1 = (true, if (onHand inv item - 1 <=? 0)%Z
                                 then delete item inv
                                 else <[item := (onHand inv item - 1)%Z]> inv)
  /\ onHand (snd (removeItem inv item 1)) item = (onHand inv item - 1)%Z.
Proof.
  intros Hi H1. unfold removeItem, hasItem.
  rewrite (truthy_true _ Hi). simpl.
  assert (E : (1 <=? onHand inv item)%Z = true) by now apply Z.leb_le.
  rewrite E. simpl.
  destruct (onHand inv item - 1 <=? 0)%Z eqn:E0; split; try reflexivity; simpl.
  - unfold onHand at 1. rewrite lookup_delete_eq. apply Z.leb_le in E0. lia.
  - unfold onHand at 1. now rewrite lookup_insert_eq.
Qed.

Lemma onHand_addItem_one inv item :
  item <> [] ->
  addItem inv item 1 = (true, <[item := (onHand inv item + 1)%Z]> inv)
  /\ onHand (snd (addItem inv item 1)) item = (onHand inv item + 1)%Z.
Proof.
  intros Hi. unfold addItem. rewrite (truthy_true _ Hi). simpl.
  split; [reflexivity|]. unfold onHand at 1. now rewrite lookup_insert_eq.
Qed.

(** C10: in [applyInventoryConsequence] a quantity text that is not a number,
    or that reads as 0, counts as 1.  For every item name the store does
    not inherit, held in a quantity that is a safe integer, and every such
    quantity text [q] (in particular [0]), [USE item:q] does what
    [removeItem(item, 1)] does, so one unit goes when at least one is held,
    and [SET inventory:item:q] does what [addItem(item, 1)] does, so one
    unit is added. *)
Theorem applyConsequence_zero_quantity_is_one inv item q :
  exactFor inv item 1 ->
  item <> [] -> trim item = item -> Forall (fun c => c <> 58) item ->
  trim q = q -> Forall (fun c => c <> 58) q ->
  parseInt q = None \/ parseInt q = Some 0%Z ->
  applyInventoryConsequence inv (lit "USE " ++ item ++ [58] ++ q)
    = removeItem inv item 1
  /\ applyInventoryConsequence inv (lit "SET inventory:" ++ item ++ [58] ++ q)
     = addItem inv item 1
  /\ ((1 <= onHand inv item)%Z ->
      onHand (snd (applyInventoryConsequence inv (lit "USE " ++ item ++ [58] ++ q))) item
      = (onHand inv item - 1)%Z)
  /\ onHand (snd (applyInventoryConsequence inv
                    (lit "SET inventory:" ++ item ++ [58] ++ q))) item
     = (onHand inv item + 1)%Z.
Proof.
  intros _ Hne Hi Ni Hq Nq Hp.
  assert (Hone : orOne (parseIntOpt (Some q)) = 1%Z).
  { simpl. now destruct Hp as [-> | ->]. }
  destruct (tidy_ends item Hi Hne) as [Hhead _].
  assert (Hspec : trim (item ++ [58] ++ q) = item ++ [58] ++ q).
  { apply trim_id; [now apply headOk_app|now apply lastOk_sep]. }
  assert (Huse : applyInventoryConsequence inv (lit "USE " ++ item ++ [58] ++ q)
                 = removeItem inv item 1).
  { unfold applyInventoryConsequence.
    change (lit "USE ") with [85; 83; 69; 32].
    assert (Ht : trim ([85; 83; 69; 32] ++ item ++ [58] ++ q)
                 = [85; 83; 69; 32] ++ item ++ [58] ++ q).
    { apply trim_id.
      - now exists 85, ([83; 69; 32] ++ item ++ [58] ++ q).
      - rewrite app_assoc. now apply lastOk_sep. }
    rewrite Ht.
    replace (truthy ([85; 83; 69; 32] ++ item ++ [58] ++ q)) with true by reflexivity.
    cbn [negb]. rewrite startsWith_app.
    replace (substring 4 ([85; 83; 69; 32] ++ item ++ [58] ++ q))
      with (item ++ [58] ++ q) by reflexivity.
    rewrite Hspec.
    change (lit ":") with ([58] : str).
    rewrite (includes_mid [58] item q).
    rewrite (itemAndQuantity_pair item q Hi Hq Ni Nq).
    now rewrite Hone. }
  assert (Hset : applyInventoryConsequence inv
                   (lit "SET inventory:" ++ item ++ [58] ++ q)
                 = addItem inv item 1).
  { unfold applyInventoryConsequence.
    change (lit "SET inventory:") with ([83; 69; 84; 32] ++ lit "inventory:").
    change (lit "SET ") with [83; 69; 84; 32].
    assert (Ht : trim (([83; 69; 84; 32] ++ lit "inventory:") ++ item ++ [58] ++ q)
                 = [83; 69; 84; 32] ++ lit "inventory:" ++ item ++ [58] ++ q).
    { rewrite <- app_assoc. apply trim_id.
      - now exists 83, ([69; 84; 32] ++ lit "inventory:" ++ item ++ [58] ++ q).
      - rewrite !app_assoc. rewrite <- (app_assoc _ [58] q). now apply lastOk_sep. }
    rewrite Ht.
    replace (truthy (([83; 69; 84; 32] ++ lit "inventory:") ++ item ++ [58] ++ q))
      with true by reflexivity.
    cbn [negb].
    replace (startsWith (lit "USE ")
               ([83; 69; 84; 32] ++ lit "inventory:" ++ item ++ [58] ++ q))
      with false by reflexivity.
    rewrite startsWith_app.
    rewrite (includes_mid (lit "inventory:") [83; 69; 84; 32] (item ++ [58] ++ q)).
    cbn [andb].
    replace (substring 4 ([83; 69; 84; 32] ++ lit "inventory:" ++ item ++ [58] ++ q))
      with (lit "inventory:" ++ item ++ [58] ++ q) by reflexivity.
    assert (Ht' : trim (lit "inventory:" ++ item ++ [58] ++ q)
                  = lit "inventory:" ++ item ++ [58] ++ q).
    { apply trim_id.
      - eexists 105, _. split; [reflexivity|reflexivity].
      - rewrite !app_assoc. rewrite <- (app_assoc _ [58] q). now apply lastOk_sep. }
    rewrite Ht', startsWith_app.
    replace (substring 10 (lit "inventory:" ++ item ++ [58] ++ q))
      with (item ++ [58] ++ q) by reflexivity.
    rewrite (itemAndQuantity_pair item q Hi Hq Ni Nq).
    now rewrite Hone. }
  rewrite Huse, Hset.
  repeat split.
  - intros H1. now apply onHand_removeItem_one.
  - now apply onHand_addItem_one.
Qed.

(** A witness: two keys held, [USE key:0] leaves one; [SET inventory:key:0]
    makes three. *)
Lemma applyConsequence_zero_quantity_is_one_witness :
  let inv : gmap str Z := {[ lit "key" := 2%Z ]} in
  applyInventoryConsequence inv (lit "USE " ++ lit "key" ++ [58] ++ lit "0")
    = removeItem inv (lit "key") 1
  /\ onHand (snd (applyInventoryConsequence inv
                    (lit "SET inventory:" ++ lit "key" ++ [58] ++ lit "0"))) (lit "key")
     = (onHand inv (lit "key") + 1)%Z.
Proof.
  intros inv.
  assert (H := applyConsequence_zero_quantity_is_one inv (lit "key") (lit "0")).
  destruct H as (H1 & _ & _ & H4).
  - split; [reflexivity|vm_compute; split; reflexivity].
  - discriminate.
  - reflexivity.
  - repeat constructor; discriminate.
  - reflexivity.
  - repeat constructor; discriminate.
  - right. reflexivity.
  - split; [exact H1|exact H4].
Defined.

Lemma hasItem_onHand inv item n :
  item <> [] -> hasItem inv item n = (n <=? onHand inv item)%Z.
Proof. intros H. unfold hasItem. now rewrite (truthy_true _ H). Qed.

(** C7, as the claim states it: [item:qty] would hold exactly when at least
    [qty] are held, and a text of neither form would be satisfied whatever
    is held.  [key:0] asks for no key at all, which an empty inventory
    satisfies; the engine answers that it is not met.  [gold > 3] is neither
    an item nor an item and a quantity; the engine reads it as the name of
    an item, which an empty inventory does not hold. *)
Lemma checkInventoryCondition_counterexample :
  checkInventoryCondition ∅ (lit "key:0") = false
  /\ (0 <=? onHand ∅ (lit "key"))%Z = true
  /\ checkInventoryCondition ∅ (lit "gold > 3") = false.
Proof. repeat split; reflexivity. Qed.

(** C7, amended: for an item name the store does not inherit and quantities
    that are safe integers, [checkInventoryCondition] reads [item] as "at
    least one held" and [item:qty] as "at least qty held" when [qty] reads
    as a whole number other than 0, and as "at least one held" when [qty]
    reads as 0 or is not a number.  The empty text is satisfied whatever the
    inventory holds.  No other text is satisfied by default: every text
    without a colon that is not empty is read as the name of an item, and an
    empty inventory does not satisfy it; the only texts an empty inventory
    satisfies, the empty text apart, hold a colon followed by a quantity
    that reads as a negative number. *)
Theorem checkInventoryCondition_forms inv :
  (forall item, trim item = item -> itemForm item -> exactFor inv item 1 ->
     checkInventoryCondition inv item = (1 <=? onHand inv item)%Z)
  /\ (forall item q n,
        trim item = item -> itemForm item ->
        trim q = q -> Forall (fun c => c <> 58) q ->
        parseInt q = Some n -> n <> 0%Z -> exactFor inv item n ->
        checkInventoryCondition inv (item ++ [58] ++ q) = (n <=? onHand inv item)%Z)
  /\ (forall item q,
        trim item = item -> itemForm item ->
        trim q = q -> Forall (fun c => c <> 58) q ->
        parseInt q = None \/ parseInt q = Some 0%Z -> exactFor inv item 1 ->
        checkInventoryCondition inv (item ++ [58] ++ q) = (1 <=? onHand inv item)%Z)
  /\ checkInventoryCondition inv [] = true
  /\ (forall condition,
        itemForm condition -> checkInventoryCondition ∅ condition = false)
  /\ (forall condition,
        condition <> [] -> checkInventoryCondition ∅ condition = true ->
        exists q n,
          map trim (split 58 condition) !! 1%nat = Some q
          /\ parseInt q = Some n /\ (n < 0)%Z).
Proof.
  assert (Hpair : forall item q,
             trim item = item -> itemForm item ->
             trim q = q -> Forall (fun c => c <> 58) q ->
             checkInventoryCondition inv (item ++ [58] ++ q)
             = (orOne (parseInt q) <=? onHand inv item)%Z).
  { intros item q Hi [Hne Ni] Hq Nq. unfold checkInventoryCondition.
    rewrite truthy_true by now destruct item.
    cbn [negb]. change (lit ":") with ([58] : str).
    rewrite (includes_mid [58] item q).
    rewrite (itemAndQuantity_pair item q Hi Hq Ni Nq).
    now apply hasItem_onHand. }
  split; [|split; [|split; [|split; [|split]]]].
  - intros item Hi [Hne Ni] _. unfold checkInventoryCondition.
    rewrite (truthy_true _ Hne). cbn [negb].
    change (lit ":") with ([58] : str).
    rewrite (includes_char_plain 58 item Ni), Hi.
    now apply hasItem_onHand.
  - intros item q n Hi Hf Hq Nq Hp Hn _.
    rewrite (Hpair item q Hi Hf Hq Nq), Hp. simpl.
    apply Z.eqb_neq in Hn. now rewrite Hn.
  - intros item q Hi Hf Hq Nq Hp _.
    rewrite (Hpair item q Hi Hf Hq Nq).
    now destruct Hp as [-> | ->].
  - reflexivity.
  - intros condition [Hne Ni]. unfold checkInventoryCondition.
    rewrite (truthy_true _ Hne). cbn [negb].
    change (lit ":") with ([58] : str).
    rewrite (includes_char_plain 58 condition Ni).
    unfold hasItem, onHand. rewrite lookup_empty.
    now destruct (negb (truthy (trim condition))).
  - intros condition Hne. unfold checkInventoryCondition.
    rewrite (truthy_true _ Hne). cbn [negb].
    unfold itemAndQuantity, hasItem, onHand. rewrite !lookup_empty.
    destruct (includes (lit ":") condition).
    + destruct (negb (truthy (orEmpty (map trim (split 58 condition) !! 0%nat))));
        [discriminate|].
      destruct (map trim (split 58 condition) !! 1%nat) as [q|];
        cbn [parseIntOpt orOne]; [|discriminate].
      destruct (parseInt q) as [n|] eqn:Ep; cbn [orOne]; [|discriminate].
      destruct (n =? 0)%Z eqn:E; [discriminate|].
      intros H. apply Z.leb_le in H. apply Z.eqb_neq in E.
      exists q, n. split; [reflexivity|]. split; [exact Ep|lia].
    + destruct (negb (truthy (trim condition))); discriminate.
Qed.

(** A witness: with two keys held, [key] and [key:2] hold, [key:0] and
    [key:lots] ask for one key; nothing held does not satisfy [gold > 3]. *)
Lemma checkInventoryCondition_forms_witness :
  let inv : gmap str Z := {[ lit "key" := 2%Z ]} in
  checkInventoryCondition inv (lit "key") = (1 <=? onHand inv (lit "key"))%Z
  /\ checkInventoryCondition inv (lit "key" ++ [58] ++ lit "2")
     = (2 <=? onHand inv (lit "key"))%Z
  /\ checkInventoryCondition inv (lit "key" ++ [58] ++ lit "0")
     = (1 <=? onHand inv (lit "key"))%Z
  /\ checkInventoryCondition ∅ (lit "gold > 3") = false.
Proof.
  intros inv.
  destruct (checkInventoryCondition_forms inv) as (H1 & H2 & H3 & _ & H5 & _).
  assert (Hkey : itemForm (lit "key")).
  { split; [discriminate|repeat constructor; discriminate]. }
  assert (Hexact : forall n, (0 <= n <= 2)%Z -> exactFor inv (lit "key") n).
  { intros n Hn. split; [reflexivity|].
    change (onHand inv (lit "key")) with 2%Z.
    unfold safeInteger. change (2 ^ 53)%Z with 9007199254740992%Z. lia. }
  split; [|split; [|split]].
  - apply H1; [reflexivity|exact Hkey|apply Hexact; lia].
  - apply H2; [reflexivity|exact Hkey|reflexivity| |reflexivity|discriminate
               |apply Hexact; lia].
    repeat constructor; discriminate.
  - apply H3; [reflexivity|exact Hkey|reflexivity| |right; reflexivity
               |apply Hexact; lia].
    repeat constructor; discriminate.
  - apply H5. split; [discriminate|repeat constructor; discriminate].
Defined.

End Inventory.

(** ** The parser *)

Section Parser.

Implicit Types (line : str) (lines : list str) (acc : list Choice).

Lemma forEach_app {A S} (body : S -> A -> result S) (xs ys : list A) (s : S) :
  forEach body (xs ++ ys) s = bind (forEach body xs s) (forEach body ys).
Proof.
  revert s. induction xs as [|x xs IH]; intros s; simpl; [reflexivity|].
  destruct (body s x); simpl; [apply IH|reflexivity].
Qed.

Lemma malformed_dec line : {malformed line} + {~ malformed line}.
Proof.
  unfold malformed.
  destruct (trim line) as [|c r].
  - right. intros [H _]. now apply H.
  - destruct (matchAnchored choiceRegex (c :: r)).
    + right. intros [_ H]. discriminate.
    + left. split; [discriminate|reflexivity].
Qed.

Lemma parseChoiceLine_malformed acc line :
  malformed line -> parseChoiceLine acc line = Throw (malformedChoice (trim line)).
Proof.
  intros [Hne Hm]. unfold parseChoiceLine. rewrite Hm.
  destruct (trim line); [now destruct Hne|reflexivity].
Qed.

(** What a line adds does not depend on the choices read before it. *)
Lemma parseChoiceLine_acc acc line :
  parseChoiceLine acc line
  = bind (parseChoiceLine [] line) (fun cs => Ok (acc ++ cs)).
Proof.
  unfold parseChoiceLine.
  destruct (matchAnchored choiceRegex (trim line)) as [m|].
  - destruct (match group 4 m with
              | Some extras => addExtras (map trim (split 59 extras)) [] []
              | None => ([], [])
              end) as [conds conss].
    reflexivity.
  - destruct (0 <? length (trim line))%nat; simpl; [reflexivity|].
    now rewrite app_nil_r.
Qed.

Lemma parseChoiceLine_wellformed acc line :
  ~ malformed line -> exists cs, parseChoiceLine acc line = Ok (acc ++ cs).
Proof.
  intros H. rewrite parseChoiceLine_acc. unfold parseChoiceLine.
  destruct (matchAnchored choiceRegex (trim line)) as [m|] eqn:Hm.
  - destruct (match group 4 m with
              | Some extras => addExtras (map trim (split 59 extras)) [] []
              | None => ([], [])
              end) as [conds conss].
    simpl. eauto.
  - destruct (trim line) as [|c r] eqn:Ht.
    + simpl. now exists [].
    + exfalso. apply H. unfold malformed. rewrite Ht. now split.
Qed.

Lemma forEach_parseChoiceLine_wellformed lines acc :
  Forall (fun l => ~ malformed l) lines ->
  exists cs, forEach parseChoiceLine lines acc = Ok (acc ++ cs).
Proof.
  intros H. revert acc. induction H as [|l lines Hl _ IH]; intros acc; simpl.
  - exists []. now rewrite app_nil_r.
  - destruct (parseChoiceLine_wellformed acc l Hl) as [cs ->]. simpl.
    destruct (IH (acc ++ cs)) as [cs' ->]. exists (cs ++ cs').
    now rewrite app_assoc.
Qed.

(** The first malformed line of a block, when there is one. *)
Lemma first_malformed lines :
  Exists malformed lines ->
  exists before line after,
    lines = before ++ line :: after
    /\ Forall (fun l => ~ malformed l) before /\ malformed line.
Proof.
  induction lines as [|l lines IH]; intros H; [inversion H|].
  destruct (malformed_dec l) as [Hl|Hl].
  - exists [], l, lines. repeat split; [constructor|apply Hl|apply Hl].
  - inversion H as [? ? Hm|? ? Hm]; subst; [contradiction|].
    destruct (IH Hm) as (before & line & after & -> & Hb & Hline).
    exists (l :: before), line, after. repeat split; try apply Hline.
    now constructor.
Qed.

(** C8: a line of a [CHOICES] block that is not blank and does not match the
    grammar of a choice is never skipped: [parseChoices] throws.  The error
    names the malformed line at which parsing stops, which is the first one
    of the block; so a block holding any malformed line fails to parse, and
    a malformed line preceded by well-formed lines only is the one named. *)
Theorem parseChoices_malformed_line_throws :
  (forall before line after,
     Forall (fun l => ~ malformed l) before -> malformed line ->
     parseChoices (before ++ line :: after) = Throw (malformedChoice (trim line)))
  /\ (forall lines line,
        In line lines -> malformed line ->
        exists bad,
          In bad lines /\ malformed bad
          /\ parseChoices lines = Throw (malformedChoice (trim bad))).
Proof.
  assert (Hfirst : forall before line after,
             Forall (fun l => ~ malformed l) before -> malformed line ->
             parseChoices (before ++ line :: after)
             = Throw (malformedChoice (trim line))).
  { intros before line after Hb Hl. unfold parseChoices.
    rewrite forEach_app.
    destruct (forEach_parseChoiceLine_wellformed before [] Hb) as [cs ->].
    simpl. now rewrite (parseChoiceLine_malformed _ _ Hl). }
  split; [exact Hfirst|].
  intros lines line Hin Hl.
  destruct (first_malformed lines) as (before & bad & after & -> & Hb & Hbad).
  { apply List.Exists_exists. now exists line. }
  exists bad. repeat split; try apply Hbad.
  - apply in_or_app. right. now left.
  - now apply Hfirst.
Qed.

(** A witness: the line without an arrow, after a well-formed line. *)
Lemma parseChoices_malformed_line_throws_witness :
  parseChoices ([lit "B) stay -> STEP_1"] ++ lit "A) go STEP_2" :: [lit "C) x"])
  = Throw (Error (lit "Malformed choice line: " ++ quoted (lit "A) go STEP_2"))).
Proof.
  destruct parseChoices_malformed_line_throws as [H _].
  apply (H [lit "B) stay -> STEP_1"] (lit "A) go STEP_2") [lit "C) x"]).
  - constructor; [|constructor]. intros [_ Hm]. vm_compute in Hm. discriminate.
  - split; [discriminate|now vm_compute].
Defined.

(** A story whose [CHOICES] block holds the line without an arrow does not
    load. *)
Example parseFile_missing_arrow :
  parseFile storyNoArrow = Throw (malformedChoice (lit "A) go STEP_2")).
Proof. by_evaluation. Qed.

Lemma forEach_parseChoiceLine_acc lines acc :
  forEach parseChoiceLine lines acc
  = bind (forEach parseChoiceLine lines []) (fun cs => Ok (acc ++ cs)).
Proof.
  revert acc. induction lines as [|l lines IH]; intros acc; simpl.
  - now rewrite app_nil_r.
  - rewrite (parseChoiceLine_acc acc l).
    destruct (parseChoiceLine [] l) as [cs|e]; simpl; [|reflexivity].
    rewrite (IH (acc ++ cs)), (IH cs).
    destruct (forEach parseChoiceLine lines []) as [cs'|e]; simpl; [|reflexivity].
    now rewrite app_assoc.
Qed.

(** A block parses line by line: the choices of a block are those of its
    first lines followed by those of its last lines. *)
Lemma parseChoices_app lines1 lines2 :
  parseChoices (lines1 ++ lines2)
  = bind (parseChoices lines1) (fun cs1 =>
      bind (parseChoices lines2) (fun cs2 => Ok (cs1 ++ cs2))).
Proof.
  unfold parseChoices. rewrite forEach_app.
  destruct (forEach parseChoiceLine lines1 []) as [cs1|e]; simpl; [|reflexivity].
  apply forEach_parseChoiceLine_acc.
Qed.

(** C6, as the claim states it: a story whose [CHOICES] block holds two
    choices labelled [A] would fail to load.  It loads, and the step keeps
    both choices. *)
Lemma duplicate_label_loads_counterexample :
  isOk (parseFile storyDuplicate) = true
  /\ map (fun c => (label c, target c))
         (default [] (choices <$> GameData.steps (gameOf storyDuplicate) !! lit "1"))
     = [(lit "A", lit "STEP_2"); (lit "A", lit "STEP_3")].
Proof. by_evaluation. Qed.

(** C6, amended: a [CHOICES] block with two choices bearing the same label
    parses without error; both choices are kept, in the order of their
    lines. *)
Theorem parseChoices_keeps_duplicate_labels line1 line2 (c1 c2 : Choice) :
  parseChoices [line1] = Ok [c1] ->
  parseChoices [line2] = Ok [c2] ->
  label c1 = label c2 ->
  parseChoices [line1; line2] = Ok [c1; c2].
Proof.
  intros H1 H2 _.
  change [line1; line2] with ([line1] ++ [line2]).
  now rewrite parseChoices_app, H1, H2.
Qed.

(** A witness: the two lines of the example. *)
Lemma parseChoices_keeps_duplicate_labels_witness :
  parseChoices [lit "A) Go left -> STEP_2"; lit "A) Go right -> STEP_3"]
  = Ok [ {| label := lit "A"; description := lit "Go left"; target := lit "STEP_2";
            conditions := []; consequences := [] |};
         {| label := lit "A"; description := lit "Go right"; target := lit "STEP_3";
            conditions := []; consequences := [] |} ].
Proof.
  apply parseChoices_keeps_duplicate_labels; vm_compute; reflexivity.
Defined.

Lemma trim_leading c s : isWhiteSpace c = true -> trim (c :: s) = trim s.
Proof. intros H. unfold trim. simpl. now rewrite H. Qed.

Lemma plain_parts s :
  Forall plain s ->
  Forall (fun c => c <> 58) s /\ Forall (fun c => c <> 44) s
  /\ Forall (fun c => c <> 10) s.
Proof.
  intros H. repeat split; eapply Forall_impl; try exact H;
    intros c (H1 & H2 & H3); assumption.
Qed.

(** One [key: value] part of a random-event line. *)
Lemma readEventPart_pair event key value :
  trim key = key -> Forall (fun c => c <> 58) key ->
  trim value = value -> Forall (fun c => c <> 58) value ->
  readEventPart event (key ++ lit ": " ++ value)
  = if strEq key (lit "chance")
    then {| evChance := Some (parseFloat value); evOutcome := evOutcome event |}
    else if strEq key (lit "outcome")
    then {| evChance := evChance event; evOutcome := Some value |}
    else event.
Proof.
  intros Hk Nk Hv Nv. unfold readEventPart.
  change (lit ": " ++ value) with (58 :: 32 :: value).
  rewrite (split_at 58 key (32 :: value) Nk).
  rewrite (split_plain 58 (32 :: value)) by (constructor; [discriminate|exact Nv]).
  cbn [map lookup list_lookup orEmpty].
  rewrite Hk, (trim_leading 32 value eq_refl), Hv.
  reflexivity.
Qed.

(** A line whose event has no chance, or a chance that reads as zero, is
    malformed. *)
Lemma parseRandomEventLine_falsy_chance events line :
  trim line <> [] ->
  evChance (readEvent (trim line)) = None
  \/ (exists c, evChance (readEvent (trim line)) = Some c /\ isZero c = true) ->
  parseRandomEventLine events line = Throw (malformedRandomEvent (trim line)).
Proof.
  intros Hne H. unfold parseRandomEventLine.
  destruct (trim line) as [|x r] eqn:E; [now destruct Hne|].
  cbn [length Nat.eqb]. unfold eventComplete.
  destruct H as [-> | (c & -> & Hz)]; [reflexivity|].
  destruct (evOutcome (readEvent (x :: r))); [|reflexivity].
  unfold truthyNum. rewrite Hz. cbn [negb]. now rewrite andb_false_r.
Qed.

(** C9: in a [RANDOM_EVENT] block, a line whose chance is written and reads
    as the value 0 is rejected as malformed, with the error a line without
    any chance gets.  For every outcome [o] and every chance text [v] that
    [parseFloat] reads as zero, [chance: v, outcome: o] and [outcome: o] both
    make [parseRandomEvent] throw "Malformed random event line", each
    naming its line. *)
Theorem parseRandomEvent_zero_chance_rejected events (v o : str) :
  trim v = v -> Forall plain v ->
  o <> [] -> trim o = o -> Forall plain o ->
  isZero (parseFloat v) = true ->
  let line := lit "chance: " ++ v ++ lit ", outcome: " ++ o in
  let bare := lit "outcome: " ++ o in
  parseRandomEventLine events line = Throw (malformedRandomEvent line)
  /\ parseRandomEventLine events bare = Throw (malformedRandomEvent bare)
  /\ parseRandomEvent line = Throw (malformedRandomEvent line)
  /\ parseRandomEvent bare = Throw (malformedRandomEvent bare).
Proof.
  intros Hv Pv Ho To Po Hz line bare.
  destruct (plain_parts v Pv) as (Cv & Mv & Nv).
  destruct (plain_parts o Po) as (Co & Mo & No).
  assert (Hvne : v <> []) by (intros ->; discriminate).
  destruct (tidy_ends v Hv Hvne) as [_ Lv].
  destruct (tidy_ends o To Ho) as [_ Lo].
  assert (Tbare : trim bare = bare).
  { apply trim_id; [now exists 111, (lit "utcome: " ++ o)|now apply lastOk_app]. }
  assert (Tline : trim line = line).
  { apply trim_id.
    - now exists 99, (lit "hance: " ++ v ++ lit ", outcome: " ++ o).
    - unfold line. rewrite !app_assoc. now apply lastOk_app. }
  assert (Tchance : trim (lit "chance: " ++ v) = lit "chance: " ++ v).
  { apply trim_id; [now exists 99, (lit "hance: " ++ v)|now apply lastOk_app]. }
  assert (Hbare : forall evs, parseRandomEventLine evs bare
                              = Throw (malformedRandomEvent bare)).
  { intros evs. rewrite <- Tbare at 2.
    apply parseRandomEventLine_falsy_chance; rewrite Tbare; [discriminate|].
    left. unfold readEvent.
    rewrite (split_plain 44 bare)
      by (apply Forall_app; split; [repeat constructor; discriminate|exact Mo]).
    cbn [map fold_left]. rewrite Tbare.
    change bare with (lit "outcome" ++ lit ": " ++ o).
    rewrite readEventPart_pair;
      [reflexivity|reflexivity|repeat constructor; discriminate|exact To|exact Co]. }
  assert (Hline : forall evs, parseRandomEventLine evs line
                              = Throw (malformedRandomEvent line)).
  { intros evs. rewrite <- Tline at 2.
    apply parseRandomEventLine_falsy_chance; rewrite Tline; [discriminate|].
    right. exists (parseFloat v). split; [|exact Hz]. unfold readEvent.
    change line with ((lit "chance: " ++ v) ++ 44 :: 32 :: bare).
    rewrite (split_at 44 (lit "chance: " ++ v) (32 :: bare))
      by (apply Forall_app; split; [repeat constructor; discriminate|exact Mv]).
    rewrite (split_plain 44 (32 :: bare))
      by (constructor; [discriminate|];
          apply Forall_app; split; [repeat constructor; discriminate|exact Mo]).
    cbn [map fold_left].
    rewrite Tchance, (trim_leading 32 bare eq_refl), Tbare.
    change (lit "chance: " ++ v) with (lit "chance" ++ lit ": " ++ v).
    change bare with (lit "outcome" ++ lit ": " ++ o).
    rewrite !readEventPart_pair;
      try reflexivity; try assumption; repeat constructor; discriminate. }
  assert (Hone : forall l, Forall (fun c => c <> 10) l ->
                           parseRandomEvent l = parseRandomEventLine [] l).
  { intros l Hl. unfold parseRandomEvent. rewrite (split_plain 10 l Hl).
    simpl. now destruct (parseRandomEventLine [] l). }
  split; [apply Hline|]. split; [apply Hbare|]. split.
  - rewrite Hone; [apply Hline|].
    unfold line. repeat (apply Forall_app; split);
      try assumption; repeat constructor; discriminate.
  - rewrite Hone; [apply Hbare|].
    apply Forall_app; split; [repeat constructor; discriminate|exact No].
Qed.

(** A story with that line in its [RANDOM_EVENT] block does not load. *)
Example parseFile_zero_chance :
  parseFile storyZeroChance
  = Throw (malformedRandomEvent (lit "chance: 0, outcome: STEP_2")).
Proof. by_evaluation. Qed.

(** A witness: the line of the example. *)
Lemma parseRandomEvent_zero_chance_rejected_witness :
  parseRandomEvent (lit "chance: " ++ lit "0" ++ lit ", outcome: " ++ lit "STEP_2")
  = Throw (Error (lit "Malformed random event line: "
                  ++ quoted (lit "chance: 0, outcome: STEP_2")))
  /\ parseRandomEvent (lit "outcome: " ++ lit "STEP_2")
     = Throw (Error (lit "Malformed random event line: "
                     ++ quoted (lit "outcome: STEP_2"))).
Proof.
  assert (Hp : forall s, forallb (fun c => negb (c =? 58) && negb (c =? 44)
                                          && negb (c =? 10)) s = true ->
                         Forall plain s).
  { induction s as [|c s IH]; simpl; intros H; constructor.
    - apply andb_true_iff in H as [H _].
      apply andb_true_iff in H as [H H3]. apply andb_true_iff in H as [H1 H2].
      apply negb_true_iff, N.eqb_neq in H1, H2, H3. now repeat split.
    - apply IH. now apply andb_true_iff in H as [_ H]. }
  destruct (parseRandomEvent_zero_chance_rejected [] (lit "0") (lit "STEP_2"))
    as (_ & _ & H3 & H4).
  - reflexivity.
  - now apply Hp.
  - discriminate.
  - reflexivity.
  - now apply Hp.
  - reflexivity.
  - split; [exact H3|exact H4].
Defined.

End Parser.

(** ** The traversal *)

Section Traversal.

Implicit Types (w : MenuHandler.t) (answer stepKey : str).

Lemma entering_fields stepKey w :
  inventoryManager (entering stepKey w) = inventoryManager w
  /\ GameData.currentStep (gameData (entering stepKey w)) = Some stepKey
  /\ GameData.steps (gameData (entering stepKey w)) = GameData.steps (gameData w)
  /\ terminal (entering stepKey w) = terminal w
  /\ isGoingBack (entering stepKey w) = false.
Proof.
  unfold entering.
  destruct (negb (isGoingBack w) && truthyOpt (GameData.currentStep (gameData w)));
    fields; repeat split; reflexivity.
Qed.

Lemma inventory_displayStoryAndMenu stepKey w :
  inventoryManager (displayStoryAndMenu stepKey w) = inventoryManager w.
Proof.
  unfold displayStoryAndMenu, displayStoryAndMenuSync.
  destruct (entering_fields stepKey w) as (Hi & _).
  destruct (GameData.steps (gameData (entering stepKey w)) !! stepKey) as [step|];
    fields; [|exact Hi].
  destruct (0 <? length (choices step))%nat; fields; exact Hi.
Qed.

Lemma currentStep_displayStoryAndMenu stepKey w :
  GameData.currentStep (gameData (displayStoryAndMenu stepKey w)) = Some stepKey.
Proof.
  unfold displayStoryAndMenu, displayStoryAndMenuSync.
  destruct (entering_fields stepKey w) as (_ & Hc & _).
  destruct (GameData.steps (gameData (entering stepKey w)) !! stepKey) as [step|];
    fields; [|exact Hc].
  destruct (0 <? length (choices step))%nat; fields; exact Hc.
Qed.

Lemma inventory_goBack w : inventoryManager (goBack w) = inventoryManager w.
Proof.
  unfold goBack.
  destruct (GameState.goBackInHistory (gameState (setIsGoingBack true w)))
    as [previousStep gs].
  destruct (truthyOpt previousStep); [|reflexivity].
  now rewrite inventory_displayStoryAndMenu.
Qed.

Lemma inventory_selectStoryChoice selectedItem w w' :
  selectStoryChoice selectedItem w = Ok w' -> inventoryManager w' = inventoryManager w.
Proof.
  unfold selectStoryChoice. intros H.
  repeat case_match; simplify_eq; try reflexivity.
  - now rewrite inventory_displayStoryAndMenu.
  - apply inventory_goBack.
Qed.

Lemma inventory_selectEndingOption selectedItem w :
  inventoryManager (selectEndingOption selectedItem w) = inventoryManager w.
Proof.
  unfold selectEndingOption. repeat case_match; try reflexivity.
  apply inventory_goBack.
Qed.

(** No key press touches the items held. *)
Lemma inventory_handleMenuNavigation e answer w r w' :
  handleMenuNavigation e answer w = Ok (r, w') ->
  inventoryManager w' = inventoryManager w.
Proof.
  unfold handleMenuNavigation. intros H.
  destruct (0 <? length (currentMenuItems w))%nat; [|now simplify_eq].
  destruct e; try (now simplify_eq).
  repeat match type of H with
         | (if ?b then _ else _) = _ => destruct b
         | match ?o with Some _ => _ | None => _ end = _ => destruct o
         end;
    simplify_eq; try reflexivity.
  - rewrite inventory_displayStoryAndMenu. fields.
    destruct (GameData.askForName (gameData w)); reflexivity.
  - destruct (selectStoryChoice _ w) as [w1|] eqn:E; cbn [bind] in H; simplify_eq.
    exact (inventory_selectStoryChoice _ _ _ E).
  - apply inventory_selectEndingOption.
Qed.

(** The Enter key on the menu of a step. *)
Lemma enter_story_choices answer w :
  currentMenuItems w <> [] ->
  currentMenuType w = lit "story_choices" ->
  handleMenuNavigation Enter answer w
  = bind (selectStoryChoice (currentMenuItems w !! selectedMenuItemIndex w) w)
         (fun w' => Ok (None, w')).
Proof.
  intros Hne Ht. unfold handleMenuNavigation. rewrite Ht.
  destruct (currentMenuItems w); [now destruct Hne|]. reflexivity.
Qed.

(** Selecting a choice that targets a step. *)
Lemma enter_choice_to_step answer w (choice : Choice) :
  currentMenuItems w <> [] ->
  currentMenuType w = lit "story_choices" ->
  choiceAt w = Some choice ->
  let targetStep := replace (lit "STEP_") [] (target choice) in
  startsWith (lit "ENDING_") targetStep = false ->
  handleMenuNavigation Enter answer w
  = Ok (None, displayStoryAndMenu targetStep (setCurrentStep (Some targetStep) w)).
Proof.
  intros Hne Ht Hc targetStep He.
  rewrite (enter_story_choices answer w Hne Ht).
  unfold selectStoryChoice. rewrite Hc. fold targetStep. now rewrite He.
Qed.

(** A step shown offers each of its choices, in order. *)
Lemma displayStoryAndMenu_offers stepKey w step i (choice : Choice) :
  GameData.steps (gameData w) !! stepKey = Some step ->
  choices step !! i = Some choice ->
  let shown := displayStoryAndMenu stepKey w in
  currentMenuType shown = lit "story_choices"
  /\ currentMenuItems shown !! i
     = Some (label choice ++ lit ") "
             ++ personalise (GameState.getUserName (gameState shown))
                            (description choice)).
Proof.
  intros Hs Hc. unfold displayStoryAndMenu, displayStoryAndMenuSync.
  destruct (entering_fields stepKey w) as (_ & _ & Hg & _).
  set (w1 := entering stepKey w) in *.
  rewrite Hg, Hs.
  assert (Hlen : (0 <? length (choices step))%nat = true).
  { apply Nat.ltb_lt. apply lookup_lt_Some in Hc. lia. }
  rewrite Hlen. fields. split; [reflexivity|].
  assert (Hitem : choiceItems (GameState.getUserName (gameState w1)) (choices step) !! i
                  = Some (label choice ++ lit ") "
                          ++ personalise (GameState.getUserName (gameState w1))
                                         (description choice))).
  { unfold choiceItems. rewrite list_lookup_fmap, Hc. reflexivity. }
  destruct (GameState.canGoBack (gameState w1)).
  - rewrite lookup_app_l; [exact Hitem|]. now apply lookup_lt_Some in Hitem.
  - exact Hitem.
Qed.

(** The user name is a replacement string: its [$] patterns are read. *)
Lemma personalise_patterns :
  personalise (lit "Bob") (lit "go [USER], [USER]!") = lit "go Bob, Bob!"
  /\ personalise (lit "$& Bob") (lit "go [USER]") = lit "go [USER] Bob"
  /\ personalise (lit "$$") (lit "go [USER]") = lit "go $"
  /\ personalise (lit "a$`b") (lit "x[USER]y") = lit "xaxby"
  /\ personalise (lit "$'") (lit "x[USER]y") = lit "xyy"
  /\ personalise (lit "$1") (lit "[USER]") = lit "$1"
  /\ personalise [] (lit "go [USER]") = lit "go [USER]".
Proof. by_evaluation. Qed.

(** C1, the input on which the engine departs from the claim: a choice whose
    conditions the inventory does not meet would be left out of the menu,
    or its selection rejected with the session unchanged.  In the example
    the player holds nothing, choice [A] of step 1 requires [key]; the menu
    of step 1 offers it, and Enter moves the session to step 2. *)
Lemma unmet_condition_counterexample :
  let shown := after [Enter] storyGated in
  let selected := after [Enter; Enter] storyGated in
  isOk (press [Enter; Enter] (loaded (gameOf storyGated))) = true
  /\ conditions <$> choiceAt shown = Some [lit "key"]
  /\ conditionsMet (inventoryManager shown) <$> choiceAt shown = Some false
  /\ currentMenuItems shown !! selectedMenuItemIndex shown
     = Some (lit "A) Open the door")
  /\ session shown = (Some (lit "1"), [], ∅)
  /\ session selected = (Some (lit "2"), [lit "1"], ∅).
Proof. by_evaluation. Qed.

(** C1: the engine does not gate.  Conditions are consulted neither when a
    step is shown nor when a choice is selected ([checkInventoryCondition],
    written to check a condition of a parsed choice, is called nowhere).  A
    choice whose conditions are not all satisfied by the inventory is
    offered like any other, and selecting it, when it targets a step, is
    not rejected: the session moves to that step; the inventory is
    unchanged.  (The target is a step name the steps do not inherit, as the
    targets of a parsed choice are: [STEP_] and digits.) *)
Theorem unmet_conditions_do_not_gate :
  (forall stepKey w step i (choice : Choice),
     GameData.steps (gameData w) !! stepKey = Some step ->
     choices step !! i = Some choice ->
     conditionsMet (inventoryManager w) choice = false ->
     let shown := displayStoryAndMenu stepKey w in
     currentMenuType shown = lit "story_choices"
     /\ currentMenuItems shown !! i
        = Some (label choice ++ lit ") "
                ++ personalise (GameState.getUserName (gameState shown))
                               (description choice)))
  /\ (forall answer w (choice : Choice),
        currentMenuItems w <> [] ->
        currentMenuType w = lit "story_choices" ->
        choiceAt w = Some choice ->
        conditionsMet (inventoryManager w) choice = false ->
        let targetStep := replace (lit "STEP_") [] (target choice) in
        startsWith (lit "ENDING_") targetStep = false ->
        inherited targetStep = false ->
        exists w',
          handleMenuNavigation Enter answer w = Ok (None, w')
          /\ w' = displayStoryAndMenu targetStep (setCurrentStep (Some targetStep) w)
          /\ GameData.currentStep (gameData w') = Some targetStep
          /\ inventoryManager w' = inventoryManager w).
Proof.
  split.
  - intros stepKey w step i choice Hs Hc _.
    exact (displayStoryAndMenu_offers stepKey w step i choice Hs Hc).
  - intros answer w choice Hne Ht Hc _ targetStep He _.
    exists (displayStoryAndMenu targetStep (setCurrentStep (Some targetStep) w)).
    split; [exact (enter_choice_to_step answer w choice Hne Ht Hc He)|].
    split; [reflexivity|]. split.
    + apply currentStep_displayStoryAndMenu.
    + now rewrite inventory_displayStoryAndMenu.
Qed.

(** A witness: choice [A] of the example, which requires a key nobody
    holds. *)
Lemma unmet_conditions_do_not_gate_witness :
  let shown := after [Enter] storyGated in
  currentMenuItems (displayStoryAndMenu (lit "1") (loaded (gameOf storyGated))) !! 0%nat
  = Some (lit "A" ++ lit ") " ++ lit "Open the door")
  /\ exists w',
       handleMenuNavigation Enter [] shown = Ok (None, w')
       /\ GameData.currentStep (gameData w') = Some (lit "2").
Proof.
  intros shown.
  destruct unmet_conditions_do_not_gate as [Hoffer Hselect].
  set (choice := {| label := lit "A"; description := lit "Open the door";
                    target := lit "STEP_2"; conditions := [lit "key"];
                    consequences := [] |}).
  split.
  - refine (proj2 (Hoffer (lit "1") (loaded (gameOf storyGated))
                          {| narrative := lit "You wake.";
                             choices := [choice;
                               {| label := lit "B";
                                  description := lit "Go back to sleep";
                                  target := lit "ENDING_FAILURE";
                                  conditions := []; consequences := [] |}] |}
                          0%nat choice _ _ _)); vm_compute; reflexivity.
  - destruct (Hselect [] shown choice) as (w' & H1 & _ & H3 & _).
    + vm_compute. discriminate.
    + vm_compute. reflexivity.
    + vm_compute. reflexivity.
    + vm_compute. reflexivity.
    + vm_compute. reflexivity.
    + vm_compute. reflexivity.
    + exists w'. split; [exact H1|exact H3].
Defined.

(** C2, the input on which the engine departs from the claim: after a
    forward selection each consequence of the choice would have been
    applied.  In the example one key is held and choice [A] of step 1
    carries [USE key]; once it is selected and step 3 is on screen, the key
    is still held. *)
Lemma consequence_not_applied_counterexample :
  let shown := after [Enter] storyKey in
  let selected := after [Enter; Enter] storyKey in
  isOk (press [Enter; Enter] (loaded (gameOf storyKey))) = true
  /\ consequences <$> choiceAt shown = Some [lit "USE key"]
  /\ InventoryManager.hasItem (inventoryManager shown) (lit "key") 1 = true
  /\ GameData.currentStep (gameData selected) = Some (lit "3")
  /\ InventoryManager.hasItem (inventoryManager selected) (lit "key") 1 = true.
Proof. by_evaluation. Qed.

(** C2: a choice selection applies none of the consequences of the choice
    ([applyInventoryConsequence], written to be applied on the selection of
    a choice, is called nowhere): whatever key is pressed, the inventory
    afterwards is the inventory before.  Applied by itself to the inventory
    holding one key, the consequence [USE key] leaves no key. *)
Theorem selection_applies_no_consequence :
  (forall e answer w r w',
     handleMenuNavigation e answer w = Ok (r, w') ->
     inventoryManager w' = inventoryManager w)
  /\ InventoryManager.hasItem
       (snd (InventoryManager.applyInventoryConsequence
               {[ lit "key" := 1%Z ]} (lit "USE key")))
       (lit "key") 1 = false.
Proof.
  split; [apply inventory_handleMenuNavigation|now vm_compute].
Qed.

(** A witness: the selection of the example. *)
Lemma selection_applies_no_consequence_witness :
  inventoryManager (after [Enter; Enter] storyKey)
  = inventoryManager (after [Enter] storyKey).
Proof.
  apply (proj1 selection_applies_no_consequence Enter [] (after [Enter] storyKey) None).
  vm_compute. reflexivity.
Defined.

(** C3, as the claim states it: a story with a choice whose target is
    neither a step of the story nor an ending would fail to load, and never
    fail during traversal.  The example targets [STEP_9], which it does not
    define; it loads, and selecting the choice makes the missing step
    current and reports it (the timer of the display then clears the
    terminal). *)
Lemma dangling_target_loads_counterexample :
  let shown := after [Enter] storyDangling in
  let selected := after [Enter; Enter] storyDangling in
  isOk (parseFile storyDangling) = true
  /\ target <$> choiceAt shown = Some (lit "STEP_9")
  /\ GameData.steps (gameOf storyDangling) !! lit "9" = None
  /\ GameData.currentStep (gameData selected) = Some (lit "9")
  /\ terminal selected
     = terminal shown ++ [Prompt (Some (lit "Error: Step 9 not found.")); Cleared].
Proof. by_evaluation. Qed.

Lemma finalValidation_spec (g : GameData.t) :
  finalValidation g = Ok g
  <-> GameData.gameName g <> [] /\ GameData.mainMenuItems g <> []
      /\ GameData.steps g <> ∅.
Proof.
  unfold finalValidation.
  destruct (GameData.gameName g) as [|c n]; cbn.
  - split; [discriminate|]. intros [H _]. now destruct H.
  - destruct (GameData.mainMenuItems g) as [|m ms]; cbn.
    + split; [discriminate|]. intros (_ & H & _). now destruct H.
    + destruct (size (GameData.steps g) =? 0)%nat eqn:E.
      * apply Nat.eqb_eq, map_size_empty_iff in E.
        split; [discriminate|]. intros (_ & _ & H). contradiction.
      * apply Nat.eqb_neq in E. split; [|reflexivity].
        intros _. repeat split; try discriminate.
        intros H. apply E. now apply map_size_empty_iff.
Qed.

(** C3, amended: loading does not resolve the targets of choices; its final
    validation accepts a game exactly when the game name, the main menu and
    the set of steps are not empty.  A target naming a step the story lacks
    surfaces during traversal: selecting the choice makes the missing step
    the current step and hands the terminal the message
    [Error: Step <id> not found.]; this is the one thing written before the
    timer of the display clears the terminal.  (The target is a step name
    the steps do not inherit, as the targets of a parsed choice are.) *)
Theorem dangling_target_surfaces_at_traversal :
  (forall g : GameData.t,
     finalValidation g = Ok g
     <-> GameData.gameName g <> [] /\ GameData.mainMenuItems g <> []
         /\ GameData.steps g <> ∅)
  /\ (forall answer w (choice : Choice),
        currentMenuItems w <> [] ->
        currentMenuType w = lit "story_choices" ->
        choiceAt w = Some choice ->
        let targetStep := replace (lit "STEP_") [] (target choice) in
        startsWith (lit "ENDING_") targetStep = false ->
        inherited targetStep = false ->
        GameData.steps (gameData w) !! targetStep = None ->
        exists w',
          handleMenuNavigation Enter answer w = Ok (None, w')
          /\ GameData.currentStep (gameData w') = Some targetStep
          /\ terminal w'
             = terminal w ++ [Prompt (Some (stepNotFound targetStep)); Cleared]).
Proof.
  split; [exact finalValidation_spec|].
  intros answer w choice Hne Ht Hc targetStep He _ Hs.
  exists (displayStoryAndMenu targetStep (setCurrentStep (Some targetStep) w)).
  split; [exact (enter_choice_to_step answer w choice Hne Ht Hc He)|].
  split; [apply currentStep_displayStoryAndMenu|].
  unfold displayStoryAndMenu, displayStoryAndMenuSync.
  destruct (entering_fields targetStep (setCurrentStep (Some targetStep) w))
    as (_ & _ & Hg & Hterm & _).
  rewrite Hg. fields. rewrite Hs. fields. rewrite Hterm.
  now rewrite <- app_assoc.
Qed.

(** A witness: the choice of the example, whose target [STEP_9] is
    missing. *)
Lemma dangling_target_surfaces_at_traversal_witness :
  exists w',
    handleMenuNavigation Enter [] (after [Enter] storyDangling) = Ok (None, w')
    /\ GameData.currentStep (gameData w') = Some (lit "9")
    /\ terminal w' = terminal (after [Enter] storyDangling)
                     ++ [Prompt (Some (stepNotFound (lit "9"))); Cleared].
Proof.
  apply (proj2 dangling_target_surfaces_at_traversal [] (after [Enter] storyDangling)
           {| label := lit "A"; description := lit "Open the door";
              target := lit "STEP_9"; conditions := []; consequences := [] |}).
  - vm_compute. discriminate.
  - vm_compute. reflexivity.
  - vm_compute. reflexivity.
  - vm_compute. reflexivity.
  - vm_compute. reflexivity.
  - vm_compute. reflexivity.
Defined.

(** *** Back navigation *)

Lemma entering_back stepKey w :
  isGoingBack w = true -> gameState (entering stepKey w) = gameState w.
Proof. intros H. unfold entering. now rewrite H. Qed.

Lemma gameState_displayStoryAndMenu_back stepKey w :
  isGoingBack w = true -> gameState (displayStoryAndMenu stepKey w) = gameState w.
Proof.
  intros H. unfold displayStoryAndMenu, displayStoryAndMenuSync.
  pose proof (entering_back stepKey w H) as Hg.
  destruct (GameData.steps (gameData (entering stepKey w)) !! stepKey) as [step|];
    fields; [|exact Hg].
  destruct (0 <? length (choices step))%nat; fields; exact Hg.
Qed.


(** With a step behind the current position, [goBack] shows that step. *)
Lemma goBack_somewhere w previous :
  (0 < GameState.currentHistoryIndex (gameState w))%Z ->
  GameState.storyHistory (gameState w)
    !! Z.to_nat (GameState.currentHistoryIndex (gameState w) - 1) = Some previous ->
  previous <> [] ->
  goBack w
  = displayStoryAndMenu previous
      (setGameState
         {| GameState.storyHistory := GameState.storyHistory (gameState w);
            GameState.currentHistoryIndex :=
              GameState.currentHistoryIndex (gameState w) - 1;
            GameState.gameStats := GameState.gameStats (gameState w);
            GameState.userName := GameState.userName (gameState w);
            GameState.localStorage := GameState.localStorage (gameState w) |}
         (setIsGoingBack true w)).
Proof.
  intros Hi Hl Hp. unfold goBack, GameState.goBackInHistory. fields.
  apply Z.ltb_lt in Hi. rewrite Hi, Hl.
  destruct previous; [now destruct Hp|reflexivity].
Qed.




(** [historyOk] holds of the empty history and is kept by every operation
    on the history, hence by every key press. *)
Lemma historyOk_clear (g : GameState.t) : historyOk (GameState.clearStoryHistory g).
Proof. split; simpl; [lia|constructor]. Qed.

Lemma historyOk_push story (g : GameState.t) :
  story <> [] -> historyOk g -> historyOk (GameState.pushStoryToHistory story g).
Proof.
  intros Hs [_ Hall]. unfold GameState.pushStoryToHistory.
  set (kept := if (_ <? _)%Z then _ else _).
  assert (Hkept : Forall (fun step => step <> []) kept).
  { unfold kept. destruct (_ <? _)%Z; [|exact Hall].
    unfold GameState.slice0. destruct (0 <=? _)%Z; now apply Forall_take. }
  split; simpl.
  - rewrite length_app. simpl. lia.
  - apply Forall_app. split; [exact Hkept|now constructor].
Qed.

Lemma historyOk_back (g : GameState.t) :
  historyOk g -> historyOk (snd (GameState.goBackInHistory g)).
Proof.
  intros [[Hlo Hhi] Hall]. unfold GameState.goBackInHistory.
  destruct (0 <? GameState.currentHistoryIndex g)%Z eqn:E; simpl.
  - apply Z.ltb_lt in E. split; simpl; [lia|exact Hall].
  - now split.
Qed.

Lemma historyOk_entering stepKey w :
  historyOk (gameState w) -> historyOk (gameState (entering stepKey w)).
Proof.
  intros H. unfold entering.
  destruct (negb (isGoingBack w)); cbn [andb]; [|exact H].
  destruct (GameData.currentStep (gameData w)) as [[|c step]|]; cbn [truthyOpt truthy];
    try exact H.
  fields. now apply historyOk_push.
Qed.

Lemma gameState_displayStoryAndMenu stepKey w :
  gameState (displayStoryAndMenu stepKey w) = gameState (entering stepKey w).
Proof.
  unfold displayStoryAndMenu, displayStoryAndMenuSync.
  destruct (GameData.steps (gameData (entering stepKey w)) !! stepKey) as [step|];
    fields; [|reflexivity].
  destruct (0 <? length (choices step))%nat; reflexivity.
Qed.

Lemma historyOk_displayStoryAndMenu stepKey w :
  historyOk (gameState w) -> historyOk (gameState (displayStoryAndMenu stepKey w)).
Proof.
  intros H. rewrite gameState_displayStoryAndMenu. now apply historyOk_entering.
Qed.

Lemma historyOk_goBack w :
  historyOk (gameState w) -> historyOk (gameState (goBack w)).
Proof.
  intros H. unfold goBack. fields.
  pose proof (historyOk_back _ H) as Hb.
  destruct (GameState.goBackInHistory (gameState w)) as [previousStep gs].
  simpl in Hb. destruct (truthyOpt previousStep); [|exact Hb].
  now apply historyOk_displayStoryAndMenu.
Qed.

Lemma historyOk_handleMenuNavigation e answer w r w' :
  historyOk (gameState w) ->
  handleMenuNavigation e answer w = Ok (r, w') ->
  historyOk (gameState w').
Proof.
  intros Hok. unfold handleMenuNavigation. intros H.
  destruct (0 <? length (currentMenuItems w))%nat; [|now simplify_eq].
  destruct e; try (now simplify_eq).
  repeat match type of H with
         | (if ?b then _ else _) = _ => destruct b
         | match ?o with Some _ => _ | None => _ end = _ => destruct o
         end;
    simplify_eq; try exact Hok.
  - apply historyOk_displayStoryAndMenu. fields.
    destruct (GameData.askForName (gameData w)); exact Hok.
  - unfold selectStoryChoice in H.
    repeat match type of H with
           | context [match ?o with Some _ => _ | None => _ end] => destruct o
           | context [if ?b then _ else _] => destruct b
           end;
      cbn [bind] in H; simplify_eq; try exact Hok.
    + now apply historyOk_displayStoryAndMenu.
    + now apply historyOk_goBack.
  - unfold selectEndingOption.
    repeat case_match; try exact Hok. now apply historyOk_goBack.
Qed.

(** Every state reached from a freshly loaded story by pressing keys has a
    history in order. *)
Lemma historyOk_press ks (g : GameData.t) w :
  press ks (loaded g) = Ok w -> historyOk (gameState w).
Proof.
  assert (Hgen : forall ks w0 w1, historyOk (gameState w0) ->
                                  press ks w0 = Ok w1 -> historyOk (gameState w1)).
  { clear. induction ks as [|k ks IH]; intros w0 w1 Hok H; unfold press in *; simpl in H.
    - now simplify_eq.
    - destruct (handleMenuNavigation k [] w0) as [[r w2]|] eqn:E; simpl in H;
        [|discriminate].
      apply (IH w2 w1); [|exact H].
      exact (historyOk_handleMenuNavigation _ _ _ _ _ Hok E). }
  apply Hgen. unfold loaded, displayMainMenu. fields. apply historyOk_clear.
Qed.




(** *** Saving and resuming *)

(** The slot path: what [saveGameState] stores under a game name and a slot,
    [loadGameState] restores for the same name and slot: history, position,
    statistics, user name and inventory. *)
Lemma loadGameState_restores (gameName slot : GameState.arg)
    (currentStep : option str) (g g' : GameState.t) (inv inv' : gmap str Z) :
  let saved := GameState.getSerializableGameState currentStep g inv in
  GameState.localStorage g'
  = GameState.localStorage (snd (GameState.saveGameState gameName slot saved g)) ->
  GameState.loadGameState gameName slot g' inv'
  = (Some saved,
     {| GameState.storyHistory := GameState.storyHistory g;
        GameState.currentHistoryIndex := GameState.currentHistoryIndex g;
        GameState.gameStats := GameState.gameStats g;
        GameState.userName := GameState.userName g;
        GameState.localStorage := GameState.localStorage g' |},
     inv).
Proof.
  intros saved Hs. unfold GameState.loadGameState. rewrite Hs.
  cbn [GameState.saveGameState snd GameState.localStorage].
  now rewrite lookup_insert_eq.
Qed.

(** The file path: the saved object is handed to [loadGameState] in the
    place of the game name, no slot is found under the key that makes, and
    of the whole save only the current step is used. *)
Lemma onSaveFileRead_uses_current_step_only (saved : GameState.Save) w stepKey :
  GameState.localStorage (gameState w)
    !! GameState.savestateKey (GameState.AObject saved) GameState.AUndefined = None ->
  GameState.savedCurrentStep saved = Some stepKey -> stepKey <> [] ->
  onSaveFileRead (inl saved) w
  = displayStoryAndMenu stepKey (setCurrentStep (Some stepKey) w).
Proof.
  intros Hl Hc Hne. unfold onSaveFileRead, GameState.loadGameState.
  rewrite Hl, Hc. destruct stepKey; [now destruct Hne|].
  destruct w. reflexivity.
Qed.

(** C4, at the failing input: the player is at step 2 with step 1 behind;
    the game is saved and the file read back.  The save holds the history,
    the resumed session has none: step 1 cannot be returned to. *)
Theorem resume_forgets_history :
  let played := after [Enter; Enter] storyGated in
  let saved := fst (saveAndQuit (toggleOverlayMenu played)) in
  let menu := snd (saveAndQuit (toggleOverlayMenu played)) in
  let resumed := onSaveFileRead (inl saved) menu in
  session played = (Some (lit "2"), [lit "1"], ∅)
  /\ GameState.savedStoryHistory saved = Some [lit "1"; lit "2"]
  /\ GameState.savedCurrentHistoryIndex saved = Some 1%Z
  /\ GameState.savedCurrentStep saved = Some (lit "2")
  /\ session resumed = (Some (lit "2"), [], ∅)
  /\ GameState.storyHistory (gameState resumed) = [lit "2"]
  /\ GameState.canGoBack (gameState resumed) = false.
Proof. by_evaluation. Qed.

End Traversal.

(** ** Laws of the item store *)

Section StockLaws.

Import InventoryManager.

Implicit Types (inv : gmap str Z) (item other : str) (q : Z).

Lemma onHand_insert inv item other q :
  onHand (<[item := q]> inv) other = if decide (item = other) then q else onHand inv other.
Proof. unfold onHand. rewrite lookup_insert. now case_decide. Qed.

Lemma onHand_delete inv item other :
  onHand (delete item inv) other = if decide (item = other) then 0%Z else onHand inv other.
Proof. unfold onHand. rewrite lookup_delete. now case_decide. Qed.

(** X1: for an item name the store does not inherit, and a stock and a
    quantity that are safe integers, [removeItem] takes the quantity asked
    for when the item is named, the quantity is positive and that many are
    held: the item then holds that many fewer, is forgotten exactly when
    none is left, and no other item changes.  Otherwise it fails and leaves
    the store as it was. *)
Theorem removeItem_outcome inv item q :
  exactFor inv item q ->
  (item <> [] /\ (0 < q <= onHand inv item)%Z ->
   fst (removeItem inv item q) = true
   /\ onHand (snd (removeItem inv item q)) item = (onHand inv item - q)%Z
   /\ (snd (removeItem inv item q) !! item = None <-> onHand inv item = q)
   /\ forall other, other <> item ->
        snd (removeItem inv item q) !! other = inv !! other)
  /\ (~ (item <> [] /\ (0 < q <= onHand inv item)%Z) ->
      removeItem inv item q = (false, inv)).
Proof.
  intros _. unfold removeItem, hasItem. split.
  - intros [Hne [Hq Hle]]. rewrite (truthy_true _ Hne). cbn [negb orb].
    replace (q <=? 0)%Z with false by (symmetry; apply Z.leb_gt; lia).
    replace (q <=? onHand inv item)%Z with true by (symmetry; apply Z.leb_le; lia).
    cbn [negb].
    destruct (onHand inv item - q <=? 0)%Z eqn:E; cbn [fst snd].
    + apply Z.leb_le in E. split; [reflexivity|]. split.
      { rewrite onHand_delete. case_decide; [lia|congruence]. }
      split.
      { rewrite lookup_delete_eq. split; [lia|reflexivity]. }
      intros other Ho. now rewrite lookup_delete_ne.
    + apply Z.leb_gt in E. split; [reflexivity|]. split.
      { rewrite onHand_insert. case_decide; [reflexivity|congruence]. }
      split.
      { rewrite lookup_insert_eq. split; [discriminate|lia]. }
      intros other Ho. now rewrite lookup_insert_ne.
  - intros Hn. destruct item as [|c r]; [reflexivity|]. cbn [truthy negb orb].
    destruct (q <=? 0)%Z eqn:E1; [reflexivity|].
    destruct (q <=? onHand inv (c :: r))%Z eqn:E2; [|reflexivity].
    exfalso. apply Hn. apply Z.leb_gt in E1. apply Z.leb_le in E2.
    split; [discriminate|lia].
Qed.

Lemma removeItem_outcome_witness :
  let inv : gmap str Z := {[ lit "coin" := 3%Z ]} in
  onHand (snd (removeItem inv (lit "coin") 3)) (lit "coin") = (onHand inv (lit "coin") - 3)%Z
  /\ removeItem inv (lit "coin") 4 = (false, inv).
Proof.
  intros inv. split.
  - apply (proj1 (removeItem_outcome inv (lit "coin") 3
                    (conj eq_refl (conj eq_refl eq_refl)))).
    split; [discriminate|]. vm_compute. split; [reflexivity|discriminate].
  - apply (proj2 (removeItem_outcome inv (lit "coin") 4
                    (conj eq_refl (conj eq_refl eq_refl)))).
    intros [_ [_ H]]. vm_compute in H. now apply H.
Defined.

(** X2: adding a quantity of an item and removing it again gives back the very
    store one started from, provided every quantity held is positive, the
    item name is not one the store inherits and the stock with the quantity
    added is a safe integer. *)
Theorem addItem_removeItem_roundtrip inv item q :
  positiveStock inv -> exactFor inv item q -> item <> [] -> (0 < q)%Z ->
  removeItem (snd (addItem inv item q)) item q = (true, inv).
Proof.
  intros Hpos _ Hne Hq. unfold addItem. rewrite (truthy_true _ Hne).
  replace (q <=? 0)%Z with false by (symmetry; apply Z.leb_gt; lia).
  cbn [negb orb snd]. unfold removeItem, hasItem. rewrite (truthy_true _ Hne).
  replace (q <=? 0)%Z with false by (symmetry; apply Z.leb_gt; lia).
  cbn [negb orb]. rewrite onHand_insert. rewrite decide_True by reflexivity.
  assert (H0 : (0 <= onHand inv item)%Z).
  { unfold onHand. destruct (inv !! item) as [v|] eqn:E; [|lia].
    specialize (Hpos _ _ E). simpl in Hpos. lia. }
  replace (q <=? onHand inv item + q)%Z with true by (symmetry; apply Z.leb_le; lia).
  cbn [negb]. replace (onHand inv item + q - q)%Z with (onHand inv item) by lia.
  unfold onHand in *. destruct (inv !! item) as [v|] eqn:E.
  - specialize (Hpos _ _ E). simpl in Hpos.
    replace (v <=? 0)%Z with false by (symmetry; apply Z.leb_gt; lia).
    f_equal. rewrite insert_insert_eq. now apply insert_id.
  - cbn. f_equal. rewrite delete_insert_eq. now apply delete_id.
Qed.

Lemma addItem_removeItem_roundtrip_witness :
  removeItem (snd (addItem {[ lit "coin" := 3%Z ]} (lit "coin") 2)) (lit "coin") 2
  = (true, {[ lit "coin" := 3%Z ]}).
Proof.
  apply addItem_removeItem_roundtrip; [| |discriminate|reflexivity].
  - apply map_Forall_singleton. reflexivity.
  - exact (conj eq_refl (conj eq_refl eq_refl)).
Defined.

Lemma addItem_unchanged_on_failure inv item q :
  fst (addItem inv item q) = false -> snd (addItem inv item q) = inv.
Proof. unfold addItem. now destruct (negb (truthy item) || (q <=? 0)%Z). Qed.

Lemma removeItem_unchanged_on_failure inv item q :
  fst (removeItem inv item q) = false -> snd (removeItem inv item q) = inv.
Proof.
  unfold removeItem.
  destruct (negb (truthy item) || (q <=? 0)%Z); [reflexivity|].
  destruct (negb (hasItem inv item q)); [reflexivity|].
  now destruct (onHand inv item - q <=? 0)%Z.
Qed.

Lemma addItem_positive inv item q :
  positiveStock inv -> positiveStock (snd (addItem inv item q)).
Proof.
  intros Hpos. unfold addItem.
  destruct (negb (truthy item) || (q <=? 0)%Z) eqn:E; [exact Hpos|].
  apply orb_false_iff in E as [_ E]. apply Z.leb_gt in E.
  cbn [snd]. apply map_Forall_insert_2; [|exact Hpos].
  unfold onHand. destruct (inv !! item) as [v|] eqn:Ev; [|lia].
  specialize (Hpos _ _ Ev). simpl in Hpos. lia.
Qed.

Lemma removeItem_positive inv item q :
  positiveStock inv -> positiveStock (snd (removeItem inv item q)).
Proof.
  intros Hpos. unfold removeItem.
  destruct (negb (truthy item) || (q <=? 0)%Z); [exact Hpos|].
  destruct (negb (hasItem inv item q)); [exact Hpos|].
  destruct (onHand inv item - q <=? 0)%Z eqn:E; cbn [snd].
  - now apply map_Forall_delete.
  - apply Z.leb_gt in E. now apply map_Forall_insert_2.
Qed.

(** The shape of what [applyInventoryConsequence] does: nothing, or one
    [addItem], or one [removeItem]. *)
Lemma applyInventoryConsequence_cases inv consequence :
  applyInventoryConsequence inv consequence = (false, inv)
  \/ (exists item q, applyInventoryConsequence inv consequence = addItem inv item q)
  \/ (exists item q, applyInventoryConsequence inv consequence = removeItem inv item q).
Proof.
  unfold applyInventoryConsequence.
  destruct (negb (truthy consequence)); [now left|].
  destruct (startsWith (lit "USE ") (trim consequence)).
  - right. right.
    destruct (if includes (lit ":") (trim (substring 4 (trim consequence)))
              then itemAndQuantity (trim (substring 4 (trim consequence)))
              else (trim (substring 4 (trim consequence)), Some (lit "1")))
      as [itemName quantityStr].
    eauto.
  - destruct (startsWith (lit "SET ") (trim consequence)
              && includes (lit "inventory:") (trim consequence)); [|now left].
    destruct (startsWith (lit "inventory:") (trim (substring 4 (trim consequence))));
      [|now left].
    destruct (itemAndQuantity (substring 10 (trim (substring 4 (trim consequence)))))
      as [itemName quantityStr].
    destruct (0 <? orOne (parseIntOpt quantityStr))%Z; [right; left; eauto|].
    destruct (orOne (parseIntOpt quantityStr) <? 0)%Z; [right; right; eauto|now left].
Qed.

(** X3: a consequence that reports failure has changed nothing, whatever its
    text; and whatever it does, at most one item changes. *)
Theorem applyInventoryConsequence_safe inv consequence :
  (fst (applyInventoryConsequence inv consequence) = false ->
   snd (applyInventoryConsequence inv consequence) = inv)
  /\ exists item, forall other, other <> item ->
       snd (applyInventoryConsequence inv consequence) !! other = inv !! other.
Proof.
  destruct (applyInventoryConsequence_cases inv consequence)
    as [-> | [(item & q & ->) | (item & q & ->)]].
  - repeat split; try (intros; assumption). now exists [].
  - split; [apply addItem_unchanged_on_failure|].
    exists item. intros other Ho. unfold addItem.
    destruct (negb (truthy item) || (q <=? 0)%Z); [reflexivity|].
    cbn [snd]. now rewrite lookup_insert_ne.
  - split; [apply removeItem_unchanged_on_failure|].
    exists item. intros other Ho. unfold removeItem.
    destruct (negb (truthy item) || (q <=? 0)%Z); [reflexivity|].
    destruct (negb (hasItem inv item q)); [reflexivity|].
    destruct (onHand inv item - q <=? 0)%Z; cbn [snd].
    + now rewrite lookup_delete_ne.
    + now rewrite lookup_insert_ne.
Qed.

Lemma applyInventoryConsequence_safe_witness :
  snd (applyInventoryConsequence {[ lit "coin" := 3%Z ]} (lit "USE coin:5"))
  = {[ lit "coin" := 3%Z ]}.
Proof.
  apply (proj1 (applyInventoryConsequence_safe _ _)). vm_compute. reflexivity.
Defined.

Lemma total_insert_fresh inv item q :
  inv !! item = None ->
  getTotalItemCount (<[item := q]> inv) = (getTotalItemCount inv + q)%Z.
Proof.
  intros H. unfold getTotalItemCount.
  rewrite map_fold_insert_L; [reflexivity| |exact H].
  intros. lia.
Qed.

Lemma total_delete inv item :
  getTotalItemCount (delete item inv) = (getTotalItemCount inv - onHand inv item)%Z.
Proof.
  unfold onHand. destruct (inv !! item) as [v|] eqn:E.
  - rewrite <- (insert_delete_id inv item v E) at 2.
    rewrite total_insert_fresh by apply lookup_delete_eq. lia.
  - rewrite delete_id by exact E. lia.
Qed.

Lemma total_insert inv item q :
  getTotalItemCount (<[item := q]> inv)
  = (getTotalItemCount inv - onHand inv item + q)%Z.
Proof.
  rewrite <- insert_delete_eq.
  rewrite total_insert_fresh by apply lookup_delete_eq.
  rewrite total_delete. lia.
Qed.

(** X4: the total the inventory reports follows every change.  While every
    quantity held is positive, the item name is not one the store inherits
    and the totals are safe integers, a successful [addItem] raises the
    total by the quantity added and a successful [removeItem] lowers it by
    the quantity removed; the total is zero for an empty store. *)
Theorem getTotalItemCount_follows inv item q :
  positiveStock inv -> ordinary item ->
  safeInteger (getTotalItemCount inv + Z.abs q) ->
  getTotalItemCount ∅ = 0%Z
  /\ (fst (addItem inv item q) = true ->
      getTotalItemCount (snd (addItem inv item q)) = (getTotalItemCount inv + q)%Z)
  /\ (fst (removeItem inv item q) = true ->
      getTotalItemCount (snd (removeItem inv item q)) = (getTotalItemCount inv - q)%Z).
Proof.
  intros _ _ _.
  split; [reflexivity|]. split.
  - unfold addItem. destruct (negb (truthy item) || (q <=? 0)%Z); [discriminate|].
    intros _. cbn [snd]. rewrite total_insert. lia.
  - unfold removeItem.
    destruct (negb (truthy item) || (q <=? 0)%Z); [discriminate|].
    destruct (hasItem inv item q) eqn:Eh; cbn [negb]; [|discriminate].
    assert (Hle : (q <= onHand inv item)%Z).
    { unfold hasItem in Eh. destruct (negb (truthy item)); [discriminate|].
      now apply Z.leb_le. }
    intros _. destruct (onHand inv item - q <=? 0)%Z eqn:E; cbn [snd].
    + rewrite total_delete. apply Z.leb_le in E. lia.
    + rewrite total_insert. lia.
Qed.

Lemma getTotalItemCount_follows_witness :
  getTotalItemCount (snd (addItem {[ lit "coin" := 3%Z ]} (lit "key") 2))
  = (getTotalItemCount {[ lit "coin" := 3%Z ]} + 2)%Z
  /\ getTotalItemCount (snd (removeItem {[ lit "coin" := 3%Z ]} (lit "coin") 3))
     = (getTotalItemCount {[ lit "coin" := 3%Z ]} - 3)%Z.
Proof.
  assert (Hpos : positiveStock ({[ lit "coin" := 3%Z ]} : gmap str Z)).
  { apply map_Forall_singleton. reflexivity. }
  split.
  - apply (proj1 (proj2 (getTotalItemCount_follows _ (lit "key") 2 Hpos eq_refl
                           (conj eq_refl eq_refl)))).
    reflexivity.
  - apply (proj2 (proj2 (getTotalItemCount_follows _ (lit "coin") 3 Hpos eq_refl
                           (conj eq_refl eq_refl)))).
    reflexivity.
Defined.

(** X5: how a directive is read.  [USE item] removes one unit, [USE item:q]
    removes the quantity [q] reads as, [SET inventory:item] adds one unit,
    and [SET inventory:item:q] adds the quantity [q] reads as when it is
    positive and removes its absolute value when it is negative; a quantity
    that does not read as a non-zero whole number counts as 1.  This is
    stated for an item name the store does not inherit, and a stock and a
    quantity that are safe integers. *)
Theorem applyInventoryConsequence_directives inv item (qty : str) :
  exactFor inv item 1 -> exactFor inv item (orOne (parseInt qty)) ->
  item <> [] -> trim item = item -> Forall (fun c => c <> 58) item ->
  trim qty = qty -> Forall (fun c => c <> 58) qty ->
  let n := orOne (parseInt qty) in
  applyInventoryConsequence inv (lit "USE " ++ item) = removeItem inv item 1
  /\ applyInventoryConsequence inv (lit "USE " ++ item ++ [58] ++ qty)
     = removeItem inv item n
  /\ applyInventoryConsequence inv (lit "SET inventory:" ++ item) = addItem inv item 1
  /\ applyInventoryConsequence inv (lit "SET inventory:" ++ item ++ [58] ++ qty)
     = if (0 <? n)%Z then addItem inv item n else removeItem inv item (Z.abs n).
Proof.
  intros _ _ Hne Hi Ni Hq Nq n.
  destruct (tidy_ends item Hi Hne) as [Hhead Hlast].
  assert (Hnz : n <> 0%Z).
  { unfold n, orOne. destruct (parseInt qty) as [z|]; [|discriminate].
    destruct (z =? 0)%Z eqn:E; [discriminate|now apply Z.eqb_neq]. }
  assert (Hspec : trim (item ++ [58] ++ qty) = item ++ [58] ++ qty).
  { apply trim_id; [now apply headOk_app|now apply lastOk_sep]. }
  assert (Hsolo : itemAndQuantity item = (item, None)).
  { unfold itemAndQuantity. rewrite (split_plain 58 item Ni). simpl. now rewrite Hi. }
  (* the text after "USE " or "SET " is a directive of its own *)
  assert (Huse : forall spec, headOk spec -> lastOk spec ->
            applyInventoryConsequence inv (lit "USE " ++ spec)
            = let '(itemName, quantityStr) :=
                if includes (lit ":") spec then itemAndQuantity spec
                else (spec, Some (lit "1")) in
              removeItem inv itemName (orOne (parseIntOpt quantityStr))).
  { intros spec Hh Hl. unfold applyInventoryConsequence.
    change (lit "USE ") with [85; 83; 69; 32].
    assert (Ht : trim ([85; 83; 69; 32] ++ spec) = [85; 83; 69; 32] ++ spec).
    { apply trim_id; [now exists 85, ([83; 69; 32] ++ spec)|now apply lastOk_app]. }
    rewrite Ht.
    replace (truthy ([85; 83; 69; 32] ++ spec)) with true by reflexivity.
    cbn [negb]. rewrite startsWith_app.
    replace (substring 4 ([85; 83; 69; 32] ++ spec)) with spec by reflexivity.
    now rewrite (trim_id spec Hh Hl). }
  assert (Hset : forall spec, headOk spec -> lastOk spec ->
            applyInventoryConsequence inv (lit "SET inventory:" ++ spec)
            = let '(itemName, quantityStr) := itemAndQuantity spec in
              let quantity := orOne (parseIntOpt quantityStr) in
              if (0 <? quantity)%Z then addItem inv itemName quantity
              else if (quantity <? 0)%Z then removeItem inv itemName (Z.abs quantity)
              else (false, inv)).
  { intros spec Hh Hl. unfold applyInventoryConsequence.
    change (lit "SET inventory:") with ([83; 69; 84; 32] ++ lit "inventory:").
    change (lit "SET ") with [83; 69; 84; 32].
    rewrite <- app_assoc.
    assert (Ht : trim ([83; 69; 84; 32] ++ lit "inventory:" ++ spec)
                 = [83; 69; 84; 32] ++ lit "inventory:" ++ spec).
    { apply trim_id.
      - now exists 83, ([69; 84; 32] ++ lit "inventory:" ++ spec).
      - rewrite app_assoc. now apply lastOk_app. }
    rewrite Ht.
    replace (truthy ([83; 69; 84; 32] ++ lit "inventory:" ++ spec))
      with true by reflexivity.
    cbn [negb].
    replace (startsWith (lit "USE ") ([83; 69; 84; 32] ++ lit "inventory:" ++ spec))
      with false by reflexivity.
    rewrite startsWith_app.
    rewrite (includes_mid (lit "inventory:") [83; 69; 84; 32] spec).
    cbn [andb].
    replace (substring 4 ([83; 69; 84; 32] ++ lit "inventory:" ++ spec))
      with (lit "inventory:" ++ spec) by reflexivity.
    assert (Ht' : trim (lit "inventory:" ++ spec) = lit "inventory:" ++ spec).
    { apply trim_id; [|now apply lastOk_app].
      eexists 105, _. split; reflexivity. }
    rewrite Ht', startsWith_app.
    now replace (substring 10 (lit "inventory:" ++ spec)) with spec by reflexivity. }
  assert (Hpair_ends : headOk (item ++ [58] ++ qty) /\ lastOk (item ++ [58] ++ qty)).
  { split; [now apply headOk_app|now apply lastOk_sep]. }
  destruct Hpair_ends as [Hph Hpl].
  split; [|split; [|split]].
  - rewrite (Huse item Hhead Hlast).
    change (lit ":") with ([58] : str).
    now rewrite (includes_char_plain 58 item Ni).
  - rewrite (Huse _ Hph Hpl).
    change (lit ":") with ([58] : str).
    rewrite (includes_mid [58] item qty).
    now rewrite (itemAndQuantity_pair item qty Hi Hq Ni Nq).
  - rewrite (Hset item Hhead Hlast), Hsolo. reflexivity.
  - rewrite (Hset _ Hph Hpl), (itemAndQuantity_pair item qty Hi Hq Ni Nq).
    cbn [parseIntOpt]. fold n.
    destruct (0 <? n)%Z eqn:E; [reflexivity|].
    apply Z.ltb_ge in E.
    replace (n <? 0)%Z with true by (symmetry; apply Z.ltb_lt; lia).
    reflexivity.
Qed.

Lemma applyInventoryConsequence_directives_witness :
  let inv : gmap str Z := {[ lit "coin" := 3%Z ]} in
  applyInventoryConsequence inv (lit "USE " ++ lit "coin" ++ [58] ++ lit "2")
  = removeItem inv (lit "coin") 2
  /\ applyInventoryConsequence inv (lit "SET inventory:" ++ lit "coin" ++ [58] ++ lit "-2")
     = removeItem inv (lit "coin") 2.
Proof.
  intros inv.
  assert (Hc : Forall (fun c => c <> 58) (lit "coin"))
    by (repeat constructor; discriminate).
  split.
  - refine (proj1 (proj2 (applyInventoryConsequence_directives inv (lit "coin") (lit "2")
                            (conj eq_refl (conj eq_refl eq_refl))
                            (conj eq_refl (conj eq_refl eq_refl))
                            _ _ Hc _ _))); try reflexivity; try discriminate.
    repeat constructor; discriminate.
  - refine (proj2 (proj2 (proj2 (applyInventoryConsequence_directives inv (lit "coin")
                                   (lit "-2")
                                   (conj eq_refl (conj eq_refl eq_refl))
                                   (conj eq_refl (conj eq_refl eq_refl))
                                   _ _ Hc _ _))));
      try reflexivity; try discriminate.
    repeat constructor; discriminate.
Defined.

Lemma capitaliseFrom_length b s : length (capitaliseFrom b s) = length s.
Proof. revert b. induction s as [|c s IH]; intros b; simpl; [reflexivity|]. now rewrite IH. Qed.

Lemma isWordChar_upper c : isWordChar (upper c) = isWordChar c.
Proof.
  unfold upper.
  remember ((97 <=? c) && (c <=? 122)) as low eqn:E. destruct low; [|reflexivity].
  symmetry in E. unfold isWordChar. rewrite E.
  apply andb_true_iff in E as [E1 E2]. apply N.leb_le in E1, E2.
  replace (65 <=? c - 32) with true by (symmetry; apply N.leb_le; lia).
  replace (c - 32 <=? 90) with true by (symmetry; apply N.leb_le; lia).
  cbn [andb]. now rewrite !orb_true_r.
Qed.

Lemma upper_upper c : upper (upper c) = upper c.
Proof.
  unfold upper.
  remember ((97 <=? c) && (c <=? 122)) as low eqn:E. destruct low; [|now rewrite <- E].
  symmetry in E. apply andb_true_iff in E as [E1 E2]. apply N.leb_le in E1, E2.
  now replace (97 <=? c - 32) with false by (symmetry; apply N.leb_gt; lia).
Qed.

Lemma capitaliseFrom_idem b s :
  capitaliseFrom b (capitaliseFrom b s) = capitaliseFrom b s.
Proof.
  revert b. induction s as [|c s IH]; intros b; simpl; [reflexivity|].
  destruct (isWordChar c && negb b) eqn:E.
  - rewrite isWordChar_upper, E, upper_upper. now rewrite IH.
  - rewrite E. now rewrite IH.
Qed.

Lemma capitaliseFrom_no_underscore b s : 95 ∉ s -> 95 ∉ capitaliseFrom b s.
Proof.
  revert b. induction s as [|c s IH]; intros b Hs; simpl; [exact Hs|].
  apply not_elem_of_cons in Hs as [Hc Hs].
  apply not_elem_of_cons. split; [|now apply IH].
  destruct (isWordChar c && negb b); [|exact Hc].
  unfold upper. remember ((97 <=? c) && (c <=? 122)) as low eqn:E.
  destruct low; [|exact Hc].
  symmetry in E. apply andb_true_iff in E as [E1 E2]. apply N.leb_le in E1, E2. lia.
Qed.

Lemma spaced_no_underscore s : 95 ∉ map (fun c => if c =? 95 then 32 else c) s.
Proof.
  induction s as [|c s IH]; simpl; [apply not_elem_of_nil|].
  apply not_elem_of_cons. split; [|exact IH].
  destruct (c =? 95) eqn:E; [discriminate|]. apply N.eqb_neq in E. congruence.
Qed.

Lemma spaced_fixes s : 95 ∉ s -> map (fun c => if c =? 95 then 32 else c) s = s.
Proof.
  induction s as [|c s IH]; intros H; simpl; [reflexivity|].
  apply not_elem_of_cons in H as [Hc Hs]. rewrite (IH Hs).
  apply not_eq_sym, N.eqb_neq in Hc. now rewrite Hc.
Qed.

(** X6: the display name of an item has the length of its name and no
    underscore (each becomes a space); formatting a display name again
    changes nothing. *)
Theorem formatItemName_shape itemName :
  length (formatItemName itemName) = length itemName
  /\ (95 ∉ formatItemName itemName)
  /\ formatItemName (formatItemName itemName) = formatItemName itemName.
Proof.
  unfold formatItemName.
  pose proof (capitaliseFrom_no_underscore false _ (spaced_no_underscore itemName))
    as Hcap.
  split; [|split].
  - rewrite capitaliseFrom_length. apply length_map.
  - exact Hcap.
  - rewrite (spaced_fixes _ Hcap). apply capitaliseFrom_idem.
Qed.

End StockLaws.

(** ** Laws of the history and of the save slots *)

Section StateLaws.

Implicit Types (g : GameState.t) (story : str) (inv : gmap str Z).

Lemma push_spec story g :
  historyOk g ->
  let pushed := GameState.pushStoryToHistory story g in
  GameState.storyHistory pushed
  = take (Z.to_nat (GameState.currentHistoryIndex g + 1)) (GameState.storyHistory g)
    ++ [story]
  /\ GameState.currentHistoryIndex pushed = (GameState.currentHistoryIndex g + 1)%Z
  /\ GameState.currentHistoryIndex pushed
     = (Z.of_nat (length (GameState.storyHistory pushed)) - 1)%Z
  /\ GameState.canGoBack pushed = (0 <=? GameState.currentHistoryIndex g)%Z.
Proof.
  intros [[Hlo Hhi] _] pushed. unfold pushed, GameState.pushStoryToHistory.
  set (h := GameState.storyHistory g) in *.
  set (i := GameState.currentHistoryIndex g) in *.
  assert (Hkept : (if (i <? Z.of_nat (length h) - 1)%Z
                   then GameState.slice0 (i + 1) h else h)
                  = take (Z.to_nat (i + 1)) h).
  { destruct (i <? Z.of_nat (length h) - 1)%Z eqn:E.
    - unfold GameState.slice0.
      now replace (0 <=? i + 1)%Z with true by (symmetry; apply Z.leb_le; lia).
    - apply Z.ltb_ge in E. rewrite take_ge; [reflexivity|lia]. }
  cbn [GameState.storyHistory GameState.currentHistoryIndex]. rewrite Hkept.
  assert (Hlen : length (take (Z.to_nat (i + 1)) h ++ [story]) = S (Z.to_nat (i + 1))).
  { rewrite length_app, length_take. simpl. lia. }
  split; [reflexivity|]. split; [rewrite Hlen; lia|]. split; [reflexivity|].
  unfold GameState.canGoBack. cbn [GameState.currentHistoryIndex]. rewrite Hlen.
  destruct (0 <=? i)%Z eqn:E.
  - apply Z.leb_le in E. apply Z.ltb_lt. lia.
  - apply Z.leb_gt in E. apply Z.ltb_ge. lia.
Qed.

(** X7: a push makes the new entry the last one and the current one: what lay
    beyond the position (after back navigations) is discarded, the entries up
    to the position are kept, and going back is possible exactly when there
    was a current entry. *)
Theorem pushStoryToHistory_position story g :
  historyOk g ->
  let pushed := GameState.pushStoryToHistory story g in
  GameState.storyHistory pushed
  = take (Z.to_nat (GameState.currentHistoryIndex g + 1)) (GameState.storyHistory g)
    ++ [story]
  /\ GameState.currentHistoryIndex pushed = (GameState.currentHistoryIndex g + 1)%Z
  /\ GameState.storyHistory pushed
       !! Z.to_nat (GameState.currentHistoryIndex pushed) = Some story
  /\ pastSteps pushed
     = take (Z.to_nat (GameState.currentHistoryIndex g + 1)) (GameState.storyHistory g)
  /\ GameState.canGoBack pushed = (0 <=? GameState.currentHistoryIndex g)%Z.
Proof.
  intros Hok pushed. destruct (push_spec story g Hok) as (Hh & Hi & _ & Hcan).
  fold pushed in Hh, Hi, Hcan. destruct Hok as [[Hlo Hhi] _].
  split; [exact Hh|]. split; [exact Hi|]. split; [|split; [|exact Hcan]].
  - rewrite Hh, Hi. rewrite lookup_app_r by (rewrite length_take; lia).
    rewrite length_take.
    replace (Z.to_nat (GameState.currentHistoryIndex g + 1)
             - Z.to_nat (GameState.currentHistoryIndex g + 1)
                 `min` length (GameState.storyHistory g))%nat with 0%nat by lia.
    reflexivity.
  - unfold pastSteps. rewrite Hh, Hi.
    rewrite take_app_le by (rewrite length_take; lia).
    rewrite take_take. f_equal. lia.
Qed.

Lemma pushStoryToHistory_position_witness :
  let g := {| GameState.storyHistory := [lit "1"; lit "2"; lit "3"];
              GameState.currentHistoryIndex := 0;
              GameState.gameStats := {| GameState.playTime := 0;
                                        GameState.choicesMade := 0 |};
              GameState.userName := [];
              GameState.localStorage := ∅ |} in
  GameState.storyHistory (GameState.pushStoryToHistory (lit "7") g)
  = take (Z.to_nat (GameState.currentHistoryIndex g + 1)) (GameState.storyHistory g)
    ++ [lit "7"].
Proof.
  intros g. apply (pushStoryToHistory_position (lit "7") g).
  split; [vm_compute; split; [discriminate|reflexivity]|].
  repeat constructor; discriminate.
Defined.

(** X8: going back right after a push returns the entry that was current before
    the push and puts the position back where it was. *)
Theorem goBackInHistory_after_push story g :
  historyOk g -> (0 <= GameState.currentHistoryIndex g)%Z ->
  let back := GameState.goBackInHistory (GameState.pushStoryToHistory story g) in
  fst back
  = GameState.storyHistory g !! Z.to_nat (GameState.currentHistoryIndex g)
  /\ GameState.currentHistoryIndex (snd back) = GameState.currentHistoryIndex g
  /\ pastSteps (snd back) = pastSteps g.
Proof.
  intros Hok Hi back.
  destruct (push_spec story g Hok) as (Hh & Hidx & _ & _).
  destruct Hok as [[Hlo Hhi] _].
  unfold back, GameState.goBackInHistory. rewrite Hidx.
  replace (0 <? GameState.currentHistoryIndex g + 1)%Z with true
    by (symmetry; apply Z.ltb_lt; lia).
  replace (GameState.currentHistoryIndex g + 1 - 1)%Z
    with (GameState.currentHistoryIndex g) by lia.
  cbn [fst snd GameState.currentHistoryIndex]. rewrite Hh.
  split; [|split; [reflexivity|]].
  - rewrite lookup_app_l by (rewrite length_take; lia).
    apply lookup_take_lt. lia.
  - unfold pastSteps. cbn [GameState.currentHistoryIndex GameState.storyHistory].
    rewrite take_app_le by (rewrite length_take; lia).
    rewrite take_take. f_equal. lia.
Qed.

Lemma goBackInHistory_after_push_witness :
  let g := {| GameState.storyHistory := [lit "1"; lit "2"];
              GameState.currentHistoryIndex := 1;
              GameState.gameStats := {| GameState.playTime := 0;
                                        GameState.choicesMade := 0 |};
              GameState.userName := [];
              GameState.localStorage := ∅ |} in
  fst (GameState.goBackInHistory (GameState.pushStoryToHistory (lit "3") g))
  = GameState.storyHistory g !! Z.to_nat (GameState.currentHistoryIndex g).
Proof.
  intros g. apply (goBackInHistory_after_push (lit "3") g).
  - split; [vm_compute; split; [discriminate|reflexivity]|].
    repeat constructor; discriminate.
  - vm_compute. discriminate.
Defined.

Lemma underscore_split (n1 n2 s1 s2 : str) :
  95 ∉ n1 -> 95 ∉ n2 -> n1 ++ 95 :: s1 = n2 ++ 95 :: s2 -> n1 = n2 /\ s1 = s2.
Proof.
  revert n2. induction n1 as [|x n1 IH]; intros [|y n2] H1 H2 E; simpl in E.
  - now inversion E.
  - inversion E; subst. exfalso. apply H2. now left.
  - inversion E; subst. exfalso. apply H1. now left.
  - inversion E; subst.
    apply not_elem_of_cons in H1 as [_ H1]. apply not_elem_of_cons in H2 as [_ H2].
    destruct (IH n2 H1 H2 H3) as [-> ->]. now split.
Qed.

(** Games whose names hold no underscore never share a storage key: the
    key determines the game and the slot. *)
Lemma savestateKey_inj (n1 n2 s1 s2 : str) :
  95 ∉ n1 -> 95 ∉ n2 ->
  GameState.savestateKey (GameState.AString n1) (GameState.AString s1)
  = GameState.savestateKey (GameState.AString n2) (GameState.AString s2) ->
  n1 = n2 /\ s1 = s2.
Proof.
  intros H1 H2 E. unfold GameState.savestateKey, GameState.toString in E.
  apply app_inv_head in E. now apply underscore_split.
Qed.

(** X9: the slots keep what is saved in them.  Loading a slot restores the
    history, the position, the statistics, the user name and the inventory
    that were saved there, whatever they have become since; loading a slot
    nothing was saved in returns [null] and restores nothing; and saving in
    one slot leaves the other slots of games without an underscore in their
    name as they were. *)
Theorem save_slots_keep_state (name slot : str) (currentStep : option str) g inv :
  let saved := GameState.getSerializableGameState currentStep g inv in
  let stored :=
    snd (GameState.saveGameState (GameState.AString name) (GameState.AString slot)
                                 saved g) in
  (forall later inv',
     GameState.localStorage later = GameState.localStorage stored ->
     GameState.loadGameState (GameState.AString name) (GameState.AString slot) later inv'
     = (Some saved,
        {| GameState.storyHistory := GameState.storyHistory g;
           GameState.currentHistoryIndex := GameState.currentHistoryIndex g;
           GameState.gameStats := GameState.gameStats g;
           GameState.userName := GameState.userName g;
           GameState.localStorage := GameState.localStorage later |},
        inv))
  /\ (forall (name' slot' : GameState.arg) later inv',
        GameState.localStorage later !! GameState.savestateKey name' slot' = None ->
        GameState.loadGameState name' slot' later inv' = (None, later, inv'))
  /\ (forall (name' slot' : str) inv',
        95 ∉ name -> 95 ∉ name' -> (name', slot') <> (name, slot) ->
        GameState.loadGameState (GameState.AString name') (GameState.AString slot')
                                stored inv'
        = (let '(found, restored, items) :=
             GameState.loadGameState (GameState.AString name') (GameState.AString slot')
                                     g inv' in
           (found,
            {| GameState.storyHistory := GameState.storyHistory restored;
               GameState.currentHistoryIndex := GameState.currentHistoryIndex restored;
               GameState.gameStats := GameState.gameStats restored;
               GameState.userName := GameState.userName restored;
               GameState.localStorage := GameState.localStorage stored |},
            items))).
Proof.
  intros saved stored. split; [|split].
  - intros later inv' Hs. unfold GameState.loadGameState. rewrite Hs.
    unfold stored. cbn [GameState.saveGameState snd GameState.localStorage].
    now rewrite lookup_insert_eq.
  - intros name' slot' later inv' Hnone. unfold GameState.loadGameState.
    now rewrite Hnone.
  - intros name' slot' inv' Hn Hn' Hne. unfold GameState.loadGameState.
    unfold stored. cbn [GameState.saveGameState snd GameState.localStorage].
    rewrite lookup_insert_ne.
    + destruct (GameState.localStorage g !! _); reflexivity.
    + intros E. apply savestateKey_inj in E as [-> ->]; [|assumption|assumption].
      now apply Hne.
Qed.

Lemma save_slots_keep_state_witness :
  let g := {| GameState.storyHistory := [lit "1"; lit "2"];
              GameState.currentHistoryIndex := 1;
              GameState.gameStats := {| GameState.playTime := 0;
                                        GameState.choicesMade := 0 |};
              GameState.userName := lit "Ann";
              GameState.localStorage := ∅ |} in
  let inv : gmap str Z := {[ lit "coin" := 3%Z ]} in
  let saved := GameState.getSerializableGameState (Some (lit "2")) g inv in
  let stored :=
    snd (GameState.saveGameState (GameState.AString (lit "Test"))
                                 (GameState.AString (lit "a")) saved g) in
  fst (GameState.loadGameState (GameState.AString (lit "Test"))
                               (GameState.AString (lit "a"))
                               (GameState.clearStoryHistory stored) ∅)
  = (Some saved,
     {| GameState.storyHistory := GameState.storyHistory g;
        GameState.currentHistoryIndex := GameState.currentHistoryIndex g;
        GameState.gameStats := GameState.gameStats g;
        GameState.userName := GameState.userName g;
        GameState.localStorage :=
          GameState.localStorage (GameState.clearStoryHistory stored) |})
  /\ fst (fst (GameState.loadGameState (GameState.AString (lit "Test"))
                                       (GameState.AString (lit "b")) stored ∅))
     = None.
Proof.
  intros g inv saved stored.
  destruct (save_slots_keep_state (lit "Test") (lit "a") (Some (lit "2")) g inv)
    as (H1 & H2 & _).
  split.
  - rewrite (H1 (GameState.clearStoryHistory stored) ∅); reflexivity.
  - rewrite (H2 (GameState.AString (lit "Test")) (GameState.AString (lit "b")) stored ∅);
      [reflexivity|]. vm_compute. reflexivity.
Defined.

Lemma afterLast_app c (a b : str) :
  Forall (fun x => x <> c) b -> GameState.afterLast c (a ++ c :: b) = b.
Proof.
  intros Hb. induction a as [|x a IH]; simpl.
  - rewrite (includes_char_plain c b Hb). now rewrite N.eqb_refl.
  - change (a ++ c :: b) with (a ++ [c] ++ b) at 1.
    now rewrite (includes_mid [c] a b).
Qed.

Lemma afterLast_plain c (key : str) : Forall (fun x => x <> c) (GameState.afterLast c key).
Proof.
  induction key as [|x r IH]; simpl; [constructor|].
  destruct (includes [c] r) eqn:E; [exact IH|].
  assert (Hr : Forall (fun y => y <> c) r).
  { clear IH. induction r as [|y r IHr]; [constructor|].
    rewrite includes_unfold in E. apply orb_false_iff in E as [E1 E2].
    simpl in E1. rewrite andb_true_r in E1. apply N.eqb_neq in E1.
    constructor; [congruence|now apply IHr]. }
  destruct (x =? c) eqn:Ex; [exact Hr|].
  apply N.eqb_neq in Ex. now constructor.
Qed.

(** X10: a slot saved under a name without an underscore is among the slots
    listed for the game; and no listed slot holds an underscore: a slot
    saved under a name with one is listed as what follows its last
    underscore. *)
Theorem listSaveGames_lists_saved (name slot : str) (saved : GameState.Save) g :
  (Forall (fun c => c <> 95) slot ->
   slot ∈ GameState.listSaveGames (GameState.AString name)
            (snd (GameState.saveGameState (GameState.AString name)
                                          (GameState.AString slot) saved g)))
  /\ Forall (Forall (fun c => c <> 95))
            (GameState.listSaveGames (GameState.AString name) g).
Proof.
  split.
  - intros Hs. unfold GameState.listSaveGames.
    cbn [GameState.saveGameState snd GameState.localStorage].
    set (key := GameState.savestateKey (GameState.AString name) (GameState.AString slot)).
    assert (Hafter : GameState.afterLast 95 key = slot).
    { unfold key, GameState.savestateKey, GameState.toString.
      change (lit "_" ++ slot) with (95 :: slot). rewrite app_assoc.
      now apply afterLast_app. }
    rewrite <- Hafter. apply list_elem_of_fmap_2.
    apply list_elem_of_In, filter_In. split.
    + apply list_elem_of_In.
      change key with (fst (key, saved)). apply list_elem_of_fmap_2.
      apply elem_of_map_to_list. apply lookup_insert_eq.
    + unfold key, GameState.savestateKey, GameState.toString.
      replace (lit "piGameSavestate_" ++ name ++ lit "_" ++ slot)
        with ((lit "piGameSavestate_" ++ name ++ lit "_") ++ slot)
        by now rewrite <- !app_assoc.
      apply startsWith_app.
  - unfold GameState.listSaveGames. apply Forall_forall. intros s Hin.
    apply list_elem_of_fmap in Hin as (key & -> & _). apply afterLast_plain.
Qed.

Lemma listSaveGames_lists_saved_witness :
  lit "a" ∈ GameState.listSaveGames (GameState.AString (lit "Test"))
              (snd (GameState.saveGameState (GameState.AString (lit "Test"))
                      (GameState.AString (lit "a"))
                      (GameState.getSerializableGameState None GameState.initial ∅)
                      GameState.initial)).
Proof.
  apply (listSaveGames_lists_saved (lit "Test") (lit "a")).
  repeat constructor; discriminate.
Defined.

End StateLaws.

(** ** What the parser lets through *)

Section Grammar.

Implicit Types (r : re) (s : str) (c : caps) (k : str -> caps -> option caps).

Lemma run_suffix r s c s' c' : run r s c s' c' -> exists m, s = m ++ s'.
Proof.
  induction 1 as [p x s c _| | a b s c s1 c1 s2 c2 _ [m1 ->] _ [m2 ->]
                 | a b s c s' c' _ IH | a b s c s' c' _ IH | |
                 greedy a s c s1 c1 s2 c2 _ [m1 ->] _ [m2 ->]
                 | i a s c s' c' _ IH | ].
  - now exists [x].
  - now exists [].
  - exists (m1 ++ m2). now rewrite app_assoc.
  - exact IH.
  - exact IH.
  - now exists [].
  - exists (m1 ++ m2). now rewrite app_assoc.
  - exact IH.
  - now exists [].
Qed.

Lemma starLoop_sound a step greedy k :
  (forall s c k' res, step s c k' = Some res ->
                      exists s' c', run a s c s' c' /\ k' s' c' = Some res) ->
  forall fuel s c res,
    starLoop step greedy k fuel s c = Some res ->
    exists s' c', run (Star greedy a) s c s' c' /\ k s' c' = Some res.
Proof.
  intros Hstep. induction fuel as [|fuel IH]; intros s c res H.
  - simpl in H. destruct greedy.
    + exists s, c. split; [constructor|exact H].
    + destruct (k s c) eqn:E; [|discriminate].
      exists s, c. split; [constructor|congruence].
  - assert (Hmore :
      step s c (fun s' c' => if (length s' <? length s)%nat
                             then starLoop step greedy k fuel s' c' else None)
      = Some res ->
      exists s' c', run (Star greedy a) s c s' c' /\ k s' c' = Some res).
    { intros E. apply Hstep in E as (s1 & c1 & Hrun & E).
      destruct (length s1 <? length s)%nat; [|discriminate].
      apply IH in E as (s2 & c2 & Hrun2 & E). exists s2, c2. split; [|exact E].
      eapply run_star_more; eassumption. }
    simpl in H. destruct greedy.
    + destruct (step s c _) eqn:E.
      * apply Hmore. congruence.
      * exists s, c. split; [constructor|exact H].
    + destruct (k s c) eqn:E.
      * exists s, c. split; [constructor|congruence].
      * apply Hmore. exact H.
Qed.

(** What the matcher finds is a match of the expression. *)
Lemma exec_sound extra r : forall s c k res,
  exec extra r s c k = Some res ->
  exists s' c', run r s c s' c' /\ k s' c' = Some res.
Proof.
  induction r as [p| |a IHa b IHb|a IHa b IHb|greedy a IHa|i a IHa|];
    intros s c k res H; simpl in H.
  - destruct s as [|x s]; [discriminate|]. destruct (p x) eqn:E; [|discriminate].
    exists s, c. split; [now constructor|exact H].
  - exists s, c. split; [constructor|exact H].
  - apply IHa in H as (s1 & c1 & H1 & H). apply IHb in H as (s2 & c2 & H2 & H).
    exists s2, c2. split; [econstructor; eassumption|exact H].
  - destruct (exec extra a s c k) eqn:E.
    + apply IHa in E as (s1 & c1 & H1 & E). exists s1, c1.
      split; [now apply run_alt_l|congruence].
    + apply IHb in H as (s1 & c1 & H1 & H). exists s1, c1.
      split; [now apply run_alt_r|exact H].
  - eapply starLoop_sound; [exact IHa|exact H].
  - apply IHa in H as (s1 & c1 & H1 & H). eexists s1, _.
    split; [constructor; exact H1|exact H].
  - destruct s; [|discriminate]. exists [], c. split; [constructor|exact H].
Qed.

Lemma matchAnchored_sound r s m :
  matchAnchored r s = Some m -> exists s', run r s [] s' m.
Proof.
  intros H. apply exec_sound in H as (s' & c' & Hrun & H).
  exists s'. congruence.
Qed.

Lemma run_seq_inv a b s c s2 c2 :
  run (Seq a b) s c s2 c2 -> exists s1 c1, run a s c s1 c1 /\ run b s1 c1 s2 c2.
Proof. inversion 1; subst. eauto. Qed.

Lemma run_alt_inv a b s c s' c' :
  run (Alt a b) s c s' c' -> run a s c s' c' \/ run b s c s' c'.
Proof. inversion 1; subst; auto. Qed.

Lemma run_chr_inv p s c s' c' :
  run (Chr p) s c s' c' -> exists x, s = x :: s' /\ p x = true /\ c' = c.
Proof. inversion 1; subst. eauto. Qed.

Lemma run_is_inv x s c s' c' : run (Is x) s c s' c' -> s = x :: s' /\ c' = c.
Proof.
  intros H. apply run_chr_inv in H as (y & -> & E & ->).
  apply N.eqb_eq in E. now subst.
Qed.

Lemma run_word_inv w : forall s c s' c',
  run (Word w) s c s' c' -> s = w ++ s' /\ c' = c.
Proof.
  induction w as [|x w IH]; intros s c s' c' H; simpl in H.
  - inversion H; subst. now split.
  - apply run_seq_inv in H as (s1 & c1 & H1 & H2).
    apply run_is_inv in H1 as [-> ->]. apply IH in H2 as [-> ->]. now split.
Qed.

Lemma run_star_chr_inv greedy p s c s' c' :
  run (Star greedy (Chr p)) s c s' c' ->
  exists m, s = m ++ s' /\ Forall (fun x => p x = true) m /\ c' = c.
Proof.
  intros H. remember (Star greedy (Chr p)) as r eqn:Er.
  induction H as [| | | | | |g a s c s1 c1 s2 c2 H1 _ _ IH| |]; try discriminate.
  - now exists [].
  - inversion Er; subst.
    apply run_chr_inv in H1 as (x & -> & Hx & ->).
    destruct (IH eq_refl) as (m & -> & Hm & ->).
    exists (x :: m). split; [reflexivity|]. split; [now constructor|reflexivity].
Qed.

Lemma run_plus_chr_inv greedy p s c s' c' :
  run (Plus greedy (Chr p)) s c s' c' ->
  exists m, m <> [] /\ s = m ++ s' /\ Forall (fun x => p x = true) m /\ c' = c.
Proof.
  intros H. apply run_seq_inv in H as (s1 & c1 & H1 & H2).
  apply run_chr_inv in H1 as (x & -> & Hx & ->).
  apply run_star_chr_inv in H2 as (m & -> & Hm & ->).
  exists (x :: m). split; [discriminate|]. split; [reflexivity|].
  split; [now constructor|reflexivity].
Qed.

Lemma run_group_inv i a s c s' c' :
  run (Group i a) s c s' c' ->
  exists m c1, run a s c s' c1 /\ s = m ++ s' /\ c' = (i, m) :: c1.
Proof.
  inversion 1 as [| | | | | | |i' a' s0 c0 s0' c1 Hrun|]; subst.
  destruct (run_suffix _ _ _ _ _ Hrun) as [m ->].
  exists m, c1. split; [exact Hrun|]. split; [reflexivity|].
  rewrite length_app. replace (length m + length s' - length s')%nat with (length m) by lia.
  now rewrite take_app_length.
Qed.

Lemma trimStart_snoc a x :
  isWhiteSpace x = false -> trimStart (a ++ [x]) = trimStart a ++ [x].
Proof.
  intros Hx. induction a as [|y a IH]; simpl; [now rewrite Hx|].
  destruct (isWhiteSpace y); [exact IH|reflexivity].
Qed.

Lemma trim_ends (s : str) : trim s = [] \/ (headOk (trim s) /\ lastOk (trim s)).
Proof.
  unfold trim.
  destruct (trimStart_head s) as [->|(x & rest & -> & Hx)]; [now left|].
  destruct (trimEnd_last (x :: rest)) as [E|(a & d & E & Hd)]; [now left|].
  right. split.
  - unfold trimEnd. simpl rev. rewrite trimStart_snoc by exact Hx.
    rewrite rev_app_distr. simpl. now exists x, (rev (trimStart (rev rest))).
  - rewrite E. now exists a, d.
Qed.

(** Trimming twice is trimming once. *)
Lemma trim_trim (s : str) : trim (trim s) = trim s.
Proof.
  destruct (trim_ends s) as [->|[H1 H2]]; [reflexivity|now apply trim_id].
Qed.

Lemma addExtras_shape (extras : list str) : forall conds conss,
  Forall (fun x => trim x = x) conds ->
  Forall (fun x => startsWith (lit "SET") x = true
                   \/ startsWith (lit "USE") x = true) conss ->
  Forall (fun x => trim x = x) (fst (addExtras extras conds conss))
  /\ Forall (fun x => startsWith (lit "SET") x = true
                      \/ startsWith (lit "USE") x = true)
            (snd (addExtras extras conds conss)).
Proof.
  induction extras as [|extra extras IH]; intros conds conss Hc Hs;
    cbn [addExtras]; [now split|].
  destruct (startsWith (lit "IF") extra).
  - apply IH; [|exact Hs]. apply Forall_app. split; [exact Hc|].
    constructor; [apply trim_trim|constructor].
  - destruct (startsWith (lit "SET") extra || startsWith (lit "USE") extra) eqn:E.
    + apply IH; [exact Hc|]. apply Forall_app. split; [exact Hs|].
      constructor; [|constructor]. now apply orb_true_iff in E.
    + now apply IH.
Qed.

(** What a match of the pattern of a choice line captures. *)
Lemma choiceRegex_captures s s' m :
  run choiceRegex s [] s' m ->
  exists l d t,
    65 <= l <= 68 /\ targetOk t
    /\ group 1 m = Some [l] /\ group 2 m = Some d /\ group 3 m = Some t.
Proof.
  unfold choiceRegex. intros H.
  apply run_seq_inv in H as (s1 & c1 & G1 & H).
  apply run_group_inv in G1 as (m1 & c1' & G1 & -> & ->).
  apply run_chr_inv in G1 as (l & E1 & Hl & ->).
  change (l :: s1) with ([l] ++ s1) in E1. apply app_inv_tail in E1 as ->.
  apply run_seq_inv in H as (s2 & c2 & P & H). apply run_is_inv in P as [-> ->].
  apply run_seq_inv in H as (s3 & c3 & W1 & H).
  apply run_star_chr_inv in W1 as (w1 & -> & _ & ->).
  apply run_seq_inv in H as (s4 & c4 & G2 & H).
  apply run_group_inv in G2 as (d & c4' & G2 & -> & ->).
  apply run_plus_chr_inv in G2 as (d' & _ & _ & _ & ->).
  apply run_seq_inv in H as (s5 & c5 & W2 & H).
  apply run_star_chr_inv in W2 as (w2 & -> & _ & ->).
  apply run_seq_inv in H as (s6 & c6 & A & H).
  assert (c6 = [(2%nat, d); (1%nat, [l])]) as ->.
  { apply run_alt_inv in A as [A|A].
    - now apply run_word_inv in A as [_ ->].
    - now apply run_is_inv in A as [_ ->]. }
  clear A.
  apply run_seq_inv in H as (s7 & c7 & W3 & H).
  apply run_star_chr_inv in W3 as (w3 & -> & _ & ->).
  apply run_seq_inv in H as (s8 & c8 & G3 & H).
  apply run_group_inv in G3 as (t & c8' & G3 & E3 & ->).
  assert (Ht : targetOk t /\ c8' = [(2%nat, d); (1%nat, [l])]).
  { apply run_alt_inv in G3 as [G3|G3].
    - apply run_seq_inv in G3 as (s9 & c9 & G3 & D).
      apply run_word_inv in G3 as [-> ->].
      apply run_plus_chr_inv in D as (ds & Hne & -> & Hds & ->).
      rewrite app_assoc in E3. apply app_inv_tail in E3 as <-.
      split; [|reflexivity]. left. now exists ds.
    - apply run_alt_inv in G3 as [G3|G3];
        [|apply run_alt_inv in G3 as [G3|G3]];
        apply run_word_inv in G3 as [-> ->]; apply app_inv_tail in E3 as <-;
        (split; [|reflexivity]); right; auto. }
  destruct Ht as [Ht ->].
  apply run_seq_inv in H as (s9 & c9 & O & Hend).
  inversion Hend; subst. clear Hend.
  exists l, d, t.
  split; [apply andb_true_iff in Hl as [L1 L2];
          apply N.leb_le in L1, L2; now split|].
  split; [exact Ht|].
  apply run_alt_inv in O as [O|O].
  - apply run_seq_inv in O as (? & ? & W4 & O).
    apply run_star_chr_inv in W4 as (? & -> & _ & ->).
    apply run_seq_inv in O as (? & ? & B & O). apply run_is_inv in B as [-> ->].
    apply run_seq_inv in O as (? & ? & W5 & O).
    apply run_star_chr_inv in W5 as (? & -> & _ & ->).
    apply run_seq_inv in O as (? & ? & G4 & O).
    apply run_group_inv in G4 as (e & ? & G4 & -> & ->).
    apply run_plus_chr_inv in G4 as (? & _ & _ & _ & ->).
    apply run_seq_inv in O as (? & ? & W6 & O).
    apply run_star_chr_inv in W6 as (? & -> & _ & ->).
    apply run_is_inv in O as [-> ->]. now repeat split.
  - inversion O; subst. now repeat split.
Qed.

Lemma parseChoiceLine_choiceOk (acc : list Choice) (line : str) acc' :
  parseChoiceLine acc line = Ok acc' -> Forall choiceOk acc -> Forall choiceOk acc'.
Proof.
  unfold parseChoiceLine. intros H Hacc.
  destruct (matchAnchored choiceRegex (trim line)) as [m|] eqn:E.
  - apply matchAnchored_sound in E as [s' E].
    apply choiceRegex_captures in E as (l & d & t & Hl & Ht & E1 & E2 & E3).
    rewrite E1, E2, E3 in H. cbn [orEmpty] in H.
    set (extras := match group 4 m with
                   | Some extras => addExtras (map trim (split 59 extras)) [] []
                   | None => ([], [])
                   end) in H.
    assert (Hx : Forall (fun x => trim x = x) (fst extras)
                 /\ Forall (fun x => startsWith (lit "SET") x = true
                                     \/ startsWith (lit "USE") x = true) (snd extras)).
    { unfold extras. destruct (group 4 m); [|now split].
      apply addExtras_shape; constructor. }
    destruct extras as [conds conss]. destruct Hx as [Hc Hs].
    inversion H; subst. apply Forall_app. split; [exact Hacc|].
    constructor; [|constructor].
    split; [now exists l|]. split; [exact Ht|]. split; [apply trim_trim|].
    now split.
  - destruct (0 <? length (trim line))%nat; [discriminate|]. congruence.
Qed.

Lemma forEach_invariant {A S} (P : S -> Prop) (body : S -> A -> result S) :
  (forall st x st', body st x = Ok st' -> P st -> P st') ->
  forall xs st st', forEach body xs st = Ok st' -> P st -> P st'.
Proof.
  intros Hbody. induction xs as [|x xs IH]; intros st st' H Hst; simpl in H.
  - now inversion H; subst.
  - destruct (body st x) as [st1|e] eqn:E; [|discriminate].
    cbn [bind] in H. eapply IH; [exact H|]. eapply Hbody; eassumption.
Qed.

Lemma parseChoices_choiceOk (lines : list str) cs :
  parseChoices lines = Ok cs -> Forall choiceOk cs.
Proof.
  intros H. eapply (forEach_invariant (Forall choiceOk)); [|exact H|constructor].
  intros st x st'. apply parseChoiceLine_choiceOk.
Qed.

Lemma choiceRegex_nonblank s s' m : run choiceRegex s [] s' m -> s <> [].
Proof.
  unfold choiceRegex. intros H.
  apply run_seq_inv in H as (s1 & c1 & G1 & _).
  apply run_group_inv in G1 as (m1 & c1' & G1 & _ & _).
  apply run_chr_inv in G1 as (l & -> & _). discriminate.
Qed.

(** A line gives one choice, unless it is blank. *)
Lemma parseChoiceLine_count (acc acc' : list Choice) (line : str) :
  parseChoiceLine acc line = Ok acc' ->
  length acc' = (length acc + if (length (trim line) =? 0)%nat then 0 else 1)%nat.
Proof.
  unfold parseChoiceLine. intros H.
  destruct (matchAnchored choiceRegex (trim line)) as [m|] eqn:E.
  - apply matchAnchored_sound in E as [s' E]. apply choiceRegex_nonblank in E.
    replace (length (trim line) =? 0)%nat with false
      by (symmetry; apply Nat.eqb_neq; now destruct (trim line)).
    destruct (match group 4 m with
              | Some extras => addExtras (map trim (split 59 extras)) [] []
              | None => ([], [])
              end) as [conds conss].
    inversion H; subst. rewrite length_app. reflexivity.
  - destruct (length (trim line)) as [|n]; cbn in H |- *; [|discriminate].
    inversion H; subst. lia.
Qed.

Lemma parseChoices_count (lines : list str) : forall acc cs,
  forEach parseChoiceLine lines acc = Ok cs ->
  length cs
  = (length acc
     + length (List.filter (fun line => negb (length (trim line) =? 0)%nat) lines))%nat.
Proof.
  induction lines as [|line lines IH]; intros acc cs H; simpl in H.
  - inversion H; subst. simpl. lia.
  - destruct (parseChoiceLine acc line) as [acc'|e] eqn:E; cbn [bind] in H;
      [|discriminate].
    apply IH in H. apply parseChoiceLine_count in E. rewrite H, E. cbn [List.filter].
    destruct (length (trim line) =? 0)%nat; simpl; lia.
Qed.

(** X11: every choice [parseChoices] returns is one of the grammar: its label is
    one letter from A to D, its target [STEP_] and digits or one of the three
    endings, its description and its conditions have no white space around
    them, and its consequences begin with [SET] or [USE].  There is one
    choice for each line that is not blank. *)
Theorem parseChoices_wellformed (lines : list str) (cs : list Choice) :
  parseChoices lines = Ok cs ->
  Forall (fun choice =>
            (exists l, label choice = [l] /\ 65 <= l <= 68)
            /\ targetOk (target choice)
            /\ trim (description choice) = description choice
            /\ Forall (fun x => trim x = x) (conditions choice)
            /\ Forall (fun x => startsWith (lit "SET") x = true
                                \/ startsWith (lit "USE") x = true)
                      (consequences choice)) cs
  /\ length cs
     = length (List.filter (fun line => negb (length (trim line) =? 0)%nat) lines).
Proof.
  intros H. split.
  - exact (parseChoices_choiceOk lines cs H).
  - unfold parseChoices in H. now apply parseChoices_count in H.
Qed.

Lemma parseChoices_wellformed_witness :
  exists cs,
    parseChoices [lit "A) Open the door -> STEP_2 {IF key; USE key}"; lit "  "] = Ok cs
    /\ Forall choiceOk cs /\ length cs = 1%nat.
Proof.
  eexists. split; [vm_compute; reflexivity|].
  apply (parseChoices_wellformed
           [lit "A) Open the door -> STEP_2 {IF key; USE key}"; lit "  "]).
  vm_compute. reflexivity.
Defined.

End Grammar.

(** ** What a loaded game is made of *)

Section LoadedGame.

Ltac gd :=
  cbn [GameData.gameName GameData.mainMenuItems GameData.inventory GameData.stats
       GameData.variables GameData.steps GameData.endings GameData.conditions
       GameData.checkpoints GameData.randomEvents GameData.consequences
       GameData.askForName GameData.currentStep
       GameData.setGameName GameData.setMainMenuItems GameData.setInventory
       GameData.setStats GameData.setVariables GameData.setSteps
       GameData.setEndings GameData.setConditions GameData.setCheckpoints
       GameData.setRandomEvents GameData.setConsequences GameData.setAskForName
       GameData.setCurrentStep].

Ltac keep :=
  unfold gameOk; gd;
  repeat match goal with |- _ /\ _ => split end; try assumption.

Lemma truthy_nonempty (s : str) : truthy s = true <-> s <> [].
Proof. destruct s; simpl; split; congruence. Qed.

Lemma split_nonempty sep (s : str) : split sep s <> [].
Proof.
  induction s as [|x s IH]; simpl; [discriminate|].
  destruct (x =? sep); [discriminate|]. now destruct (split sep s).
Qed.

Lemma parseRandomEvent_live (content : str) (events : list RandomEvent) :
  parseRandomEvent content = Ok events ->
  Forall (fun ev => truthyNum (chance ev) = true /\ outcome ev <> []) events.
Proof.
  intros H. eapply (forEach_invariant (Forall _)); [|exact H|constructor].
  intros st x st' Hline Hst. unfold parseRandomEventLine in Hline.
  destruct (length (trim x) =? 0)%nat; [congruence|].
  destruct (eventComplete (readEvent (trim x))) as [ev|] eqn:E; [|discriminate].
  inversion Hline; subst. apply Forall_app. split; [exact Hst|].
  constructor; [|constructor].
  unfold eventComplete in E.
  destruct (evChance _) as [n|]; [|discriminate].
  destruct (evOutcome _) as [o|]; [|discriminate].
  destruct (truthyNum n && truthy o) eqn:T; [|discriminate].
  apply andb_true_iff in T as [T1 T2]. inversion E; subst. simpl.
  split; [exact T1|now apply truthy_nonempty].
Qed.

Lemma readAction_cases (acc : gmap str kvalue) (action : str) :
  (readAction acc action = Throw (malformedConsequenceAction action)
   /\ length (split 58 action) <> 2%nat)
  \/ (readAction acc action = Ok acc /\ idle action)
  \/ exists acc', readAction acc action = Ok acc' /\ acc' <> ∅.
Proof.
  unfold readAction, assign, idle.
  destruct (split 58 action) as [|t [|v [|]]];
    try (left; split; [reflexivity|simpl; lia]).
  unfold strEq. case_bool_decide as E.
  - right; left. split; [reflexivity|]. now exists t, v.
  - right; right. eexists. split; [reflexivity|]. apply insert_non_empty.
Qed.

(** What an action has set stays set. *)
Lemma readAction_keeps (actions : list str) :
  forall (acc consequence : gmap str kvalue),
    forEach readAction actions acc = Ok consequence -> acc <> ∅ -> consequence <> ∅.
Proof.
  induction actions as [|action actions IH]; intros acc consequence H Hne; simpl in H.
  - congruence.
  - destruct (readAction_cases acc action) as [[E _]|[[E _]|(acc' & E & Hne')]];
      rewrite E in H; cbn [bind] in H; [discriminate| |].
    + now apply (IH acc).
    + now apply (IH acc').
Qed.

(** A line sets nothing only when each of its actions targets [__proto__]. *)
Lemma readAction_idle (actions : list str) :
  forall (acc : gmap str kvalue),
    forEach readAction actions acc = Ok ∅ -> Forall idle actions.
Proof.
  induction actions as [|action actions IH]; intros acc H; simpl in H; [constructor|].
  destruct (readAction_cases acc action) as [[E _]|[[E Hidle]|(acc' & E & Hne')]];
    rewrite E in H; cbn [bind] in H; [discriminate| |].
  - constructor; [exact Hidle|now apply (IH acc)].
  - exfalso. now apply (readAction_keeps actions acc' ∅ H).
Qed.

Lemma readAction_throws (actions : list str) :
  forall (acc : gmap str kvalue) (e : exn),
    forEach readAction actions acc = Throw e ->
    exists action,
      e = malformedConsequenceAction action /\ length (split 58 action) <> 2%nat.
Proof.
  induction actions as [|action actions IH]; intros acc e H; simpl in H; [discriminate|].
  destruct (readAction_cases acc action) as [[E Hlen]|[[E _]|(acc' & E & _)]];
    rewrite E in H; cbn [bind] in H.
  - exists action. split; [congruence|exact Hlen].
  - now apply (IH acc).
  - now apply (IH acc').
Qed.

Lemma parseConsequenceLine_cases (acc : list (gmap str kvalue)) (line : str) :
  (exists action,
     parseConsequenceLine acc line = Throw (malformedConsequenceAction action)
     /\ length (split 58 action) <> 2%nat)
  \/ (parseConsequenceLine acc line = Throw (malformedConsequence (trim line))
      /\ Forall idle (map trim (split 44 (trim line))))
  \/ parseConsequenceLine acc line = Ok acc
  \/ exists consequence,
       consequence <> ∅ /\ parseConsequenceLine acc line = Ok (acc ++ [consequence]).
Proof.
  unfold parseConsequenceLine.
  destruct (length (trim line) =? 0)%nat; [now right; right; left|].
  destruct (forEach readAction (map trim (split 44 (trim line))) ∅)
    as [consequence|e] eqn:E; cbn [bind].
  - destruct (size consequence) as [|n] eqn:Es.
    + apply map_size_empty_iff in Es. subst consequence.
      right; left. split; [reflexivity|]. exact (readAction_idle _ _ E).
    + right; right; right. exists consequence. split; [|reflexivity].
      intros ->. now rewrite map_size_empty in Es.
  - left. destruct (readAction_throws _ _ _ E) as (action & -> & Hlen).
    now exists action.
Qed.

Lemma parseConsequence_nonempty (content : str) (cs : list (gmap str kvalue)) :
  parseConsequence content = Ok cs -> Forall (fun consequence => consequence <> ∅) cs.
Proof.
  intros H. eapply (forEach_invariant (Forall _)); [|exact H|constructor].
  intros st x st' Hline Hst.
  destruct (parseConsequenceLine_cases st x)
    as [(a & E & _)|[[E _]|[E|(m & Hm & E)]]];
    rewrite E in Hline; [discriminate|discriminate| |]; inversion Hline; subst;
    [exact Hst|].
  apply Forall_app. split; [exact Hst|]. now constructor.
Qed.


(** Two lines that are refused, each for its own reason. *)
Lemma parseConsequence_refused :
  parseConsequence (lit "gold: 1: 2")
  = Throw (malformedConsequenceAction (lit "gold: 1: 2"))
  /\ parseConsequence (lit "__proto__: 1")
     = Throw (malformedConsequence (lit "__proto__: 1")).
Proof. by_evaluation. Qed.


Lemma stepsOk_ensureStep (stepKey : str) (steps : gmap str Step) :
  map_Forall (fun _ st => Forall choiceOk (choices st)) steps ->
  map_Forall (fun _ st => Forall choiceOk (choices st)) (ensureStep stepKey steps).
Proof.
  intros H. unfold ensureStep. destruct (steps !! stepKey); [exact H|].
  destruct (inherited stepKey); [exact H|].
  apply map_Forall_insert_2; [constructor|exact H].
Qed.

Lemma stepsOk_setNarrative (stepKey text : str) (steps : gmap str Step) :
  map_Forall (fun _ st => Forall choiceOk (choices st)) steps ->
  map_Forall (fun _ st => Forall choiceOk (choices st)) (setNarrative stepKey text steps).
Proof.
  intros H. unfold setNarrative. destruct (steps !! stepKey) as [st|] eqn:E; [|exact H].
  apply map_Forall_insert_2; [|exact H]. exact (H stepKey st E).
Qed.

Lemma stepsOk_setChoices (stepKey : str) (cs : list Choice) (steps : gmap str Step) :
  Forall choiceOk cs ->
  map_Forall (fun _ st => Forall choiceOk (choices st)) steps ->
  map_Forall (fun _ st => Forall choiceOk (choices st)) (setChoices stepKey cs steps).
Proof.
  intros Hcs H. unfold setChoices. destruct (steps !! stepKey) as [st|]; [|exact H].
  apply map_Forall_insert_2; [exact Hcs|exact H].
Qed.

Lemma menuItems_tidy (content : str) :
  Forall (fun item => item <> [] /\ trim item = item)
         (List.filter (fun item => (0 <? length item)%nat) (map trim (split 10 content))).
Proof.
  apply List.Forall_forall. intros item Hin.
  apply List.filter_In in Hin as [Hin Hlen].
  apply List.in_map_iff in Hin as (raw & <- & _).
  split; [|apply trim_trim]. intros E. now rewrite E in Hlen.
Qed.

Lemma storeSection_gameOk (section content : str) (g g' : GameData.t) :
  storeSection section content g = Ok g' ->
  trim content = content -> gameOk g -> gameOk g'.
Proof.
  unfold storeSection. intros H Hc (H1 & H2 & H3 & H7 & H8).
  repeat match type of H with
         | (if strEq ?a ?b then _ else _) = _ => destruct (strEq a b)
         end.
  all: try match type of H with
           | bind ?p _ = _ => destruct p eqn:E; cbn [bind] in H; [|discriminate]
           end.
  all: inversion H; subst; clear H; keep.
  - apply menuItems_tidy.
  - eapply parseRandomEvent_live; eassumption.
  - eapply parseConsequence_nonempty; eassumption.
Qed.

Lemma processBuffer_gameOk (st st' : ParserState) :
  processBuffer st = Ok st' ->
  gameOk (FileParser.gameData st) -> gameOk (FileParser.gameData st').
Proof.
  unfold processBuffer. intros H Hg.
  match type of H with bind ?p _ = _ => destruct p as [g'|e] eqn:E end;
    cbn [bind] in H; [|discriminate].
  inversion H; subst; clear H. cbn [FileParser.gameData].
  destruct (truthyOpt (currentSubSection st)).
  - destruct (currentSection st) as [section|]; [|discriminate].
    pose proof Hg as (H1 & H2 & H3 & H7 & H8).
    pose proof (stepsOk_ensureStep (replace (lit "STEP_") [] section) _ H1) as Hs.
    destruct (strEq (interp (currentSubSection st)) (lit "NARRATIVE")).
    + inversion E; subst. keep. now apply stepsOk_setNarrative.
    + destruct (strEq (interp (currentSubSection st)) (lit "CHOICES")).
      * destruct (parseChoices (currentContentBuffer st)) as [cs|e] eqn:Ec;
          cbn [bind] in E; [|discriminate].
        inversion E; subst. keep. apply stepsOk_setChoices; [|exact Hs].
        eapply parseChoices_choiceOk; eassumption.
      * inversion E; subst. keep.
  - destruct (truthyOpt (currentSection st)); [|congruence].
    eapply storeSection_gameOk; [exact E|apply trim_trim|exact Hg].
Qed.

Lemma scanLine_gameOk (st st' : ParserState) (line : str) :
  scanLine st line = Ok st' ->
  gameOk (FileParser.gameData st) -> gameOk (FileParser.gameData st').
Proof.
  unfold scanLine. intros H Hg.
  destruct (startsWith (lit "[") (trim line) && endsWith (lit "]") (trim line)).
  - destruct (processBuffer st) as [st1|e] eqn:E; cbn [bind] in H; [|discriminate].
    apply processBuffer_gameOk in E; [|exact Hg].
    repeat match type of H with
           | (if ?b then _ else _) = _ => destruct b
           end;
      try discriminate; inversion H; subst; clear H; cbn [FileParser.gameData];
      try exact E.
    destruct E as (H1 & H2 & H3 & H7 & H8). keep.
    now apply stepsOk_ensureStep.
  - inversion H; subst. exact Hg.
Qed.

Lemma gameOk_empty : gameOk GameData.empty.
Proof.
  unfold gameOk, GameData.empty. gd.
  repeat match goal with |- _ /\ _ => split end;
    solve [apply map_Forall_empty | constructor | reflexivity].
Qed.

Lemma parseFile_final (content : str) (g : GameData.t) :
  parseFile content = Ok g -> gameOk g /\ finalValidation g = Ok g.
Proof.
  unfold parseFile. intros H.
  match type of H with bind ?p _ = _ => destruct p as [st|e] eqn:E end;
    cbn [bind] in H; [|discriminate].
  destruct (processBuffer st) as [st'|e] eqn:Ep; cbn [bind] in H; [|discriminate].
  assert (Hok : gameOk (FileParser.gameData st')).
  { eapply processBuffer_gameOk; [exact Ep|].
    eapply (forEach_invariant (fun st => gameOk (FileParser.gameData st)));
      [|exact E|exact gameOk_empty].
    intros st0 x st1. apply scanLine_gameOk. }
  assert (g = FileParser.gameData st') as ->.
  { unfold finalValidation in H.
    repeat match type of H with
           | (if ?b then _ else _) = _ => destruct b
           end; congruence. }
  now split.
Qed.

Lemma parseFile_gameOk (content : str) (g : GameData.t) :
  parseFile content = Ok g -> gameOk g.
Proof. intros H. now apply parseFile_final in H. Qed.

(** X13: a game that loads is made of what the grammar allows.  Every choice of
    every step has a label from A to D and a target [STEP_] and digits or
    one of the three endings; the menu items are not empty and have no
    white space around them; every random event has a chance other than 0
    and an outcome; every consequence sets a target; and the game has a
    name, a menu and a step.  (Stated of the files without a section
    [[STEP___proto__]].) *)
Theorem parseFile_wellformed (content : str) (g : GameData.t) :
  plainFile content ->
  parseFile content = Ok g ->
  (forall stepKey step choice,
     GameData.steps g !! stepKey = Some step -> choice ∈ choices step ->
     choiceOk choice)
  /\ Forall (fun item => item <> [] /\ trim item = item) (GameData.mainMenuItems g)
  /\ Forall (fun ev => truthyNum (chance ev) = true /\ outcome ev <> [])
            (GameData.randomEvents g)
  /\ Forall (fun consequence => consequence <> ∅) (GameData.consequences g)
  /\ GameData.gameName g <> [] /\ trim (GameData.gameName g) = GameData.gameName g
  /\ GameData.mainMenuItems g <> [] /\ GameData.steps g <> ∅.
Proof.
  intros _ H. apply parseFile_final in H as [(H1 & H2 & H3 & H7 & H8) Hv].
  apply finalValidation_spec in Hv as (Hname & Hmenu & Hsteps).
  split.
  { intros stepKey step choice Hstep Hin.
    exact (proj1 (Forall_forall _ _) (H1 stepKey step Hstep) choice Hin). }
  repeat match goal with |- _ /\ _ => split end; assumption.
Qed.

Lemma parseFile_wellformed_witness :
  exists g, parseFile storyGated = Ok g /\ GameData.steps g <> ∅.
Proof.
  destruct (parseFile storyGated) as [g|e] eqn:E.
  - exists g. split; [reflexivity|].
    now apply (parseFile_wellformed storyGated g eq_refl).
  - exfalso. revert E. vm_compute. discriminate.
Defined.

End LoadedGame.

(** ** Laws of the menus *)

Section Menus.

Implicit Types (w : MenuHandler.t) (e : key) (answer item : str).

(** Comparisons of two literals are settled by evaluation. *)
Ltac literals :=
  repeat match goal with
         | |- context [strEq ?a ?b] =>
             let v := eval vm_compute in (strEq a b) in
             match v with
             | true => change (strEq a b) with true
             | false => change (strEq a b) with false
             end
         end;
  cbv iota.

Lemma menuOk_eq w w' :
  selectedMenuItemIndex w' = selectedMenuItemIndex w ->
  currentMenuItems w' = currentMenuItems w ->
  menuOk w -> menuOk w'.
Proof. unfold menuOk. intros -> ->. auto. Qed.

Lemma menuOk_write u w : menuOk w -> menuOk (write u w).
Proof. now apply menuOk_eq. Qed.

Lemma menuOk_setMenu items type w : menuOk (setMenu items type w).
Proof.
  unfold menuOk. fields. destruct items; [now left|right; simpl; lia].
Qed.

Lemma menuOk_none w : currentMenuItems w = [] -> menuOk w.
Proof. now left. Qed.

Lemma menuOk_entering stepKey w : menuOk w -> menuOk (entering stepKey w).
Proof.
  apply menuOk_eq; unfold entering;
    destruct (negb (isGoingBack w) && truthyOpt (GameData.currentStep (gameData w)));
    reflexivity.
Qed.

Lemma menuOk_displayStoryAndMenu stepKey w :
  menuOk w -> menuOk (displayStoryAndMenu stepKey w).
Proof.
  intros H. apply (menuOk_entering stepKey) in H. unfold displayStoryAndMenu, displayStoryAndMenuSync.
  destruct (GameData.steps (gameData (entering stepKey w)) !! stepKey) as [step|];
    [|now apply menuOk_write].
  cbv zeta. destruct (0 <? length (choices step))%nat.
  - unfold renderMenuItems. apply menuOk_write, menuOk_setMenu.
  - now apply menuOk_none.
Qed.

Lemma menuOk_goBack w : menuOk w -> menuOk (goBack w).
Proof.
  intros H. unfold goBack.
  destruct (GameState.goBackInHistory (gameState (setIsGoingBack true w)))
    as [previousStep gs].
  destruct (truthyOpt previousStep).
  - apply menuOk_displayStoryAndMenu. revert H. now apply menuOk_eq.
  - apply menuOk_write. revert H. now apply menuOk_eq.
Qed.

Lemma menuOk_displayOptionsMenu w : menuOk (displayOptionsMenu w).
Proof.
  unfold displayOptionsMenu, renderMenuItems. cbv zeta.
  apply menuOk_write, menuOk_write, menuOk_setMenu.
Qed.

Lemma menuOk_displayFontSizeMenu w : menuOk (displayFontSizeMenu w).
Proof.
  unfold displayFontSizeMenu, renderMenuItems. cbv zeta.
  apply menuOk_write, menuOk_write, menuOk_setMenu.
Qed.

Lemma menuOk_displayFontColorMenu w : menuOk (displayFontColorMenu w).
Proof.
  unfold displayFontColorMenu, renderMenuItems. cbv zeta.
  apply menuOk_write, menuOk_write, menuOk_setMenu.
Qed.

Lemma menuOk_selectStoryChoice item w :
  menuOk w ->
  exists w', selectStoryChoice (Some item) w = Ok w' /\ menuOk w'.
Proof.
  intros H. unfold selectStoryChoice. cbv zeta.
  destruct (choiceAt w) as [choice|].
  - destruct (startsWith _ _).
    + destruct (truthyOpt _); eexists; (split; [reflexivity|]).
      * unfold renderMenuItems. apply menuOk_write, menuOk_setMenu.
      * now apply menuOk_write.
    + eexists. split; [reflexivity|]. apply menuOk_displayStoryAndMenu.
      revert H. now apply menuOk_eq.
  - destruct (includes _ item); eexists; (split; [reflexivity|]).
    + now apply menuOk_goBack.
    + now apply menuOk_write.
Qed.

Lemma menuOk_selectEndingOption selectedItem w :
  menuOk w -> menuOk (selectEndingOption selectedItem w).
Proof.
  intros H. unfold selectEndingOption.
  destruct selectedItem as [item|]; [|now apply menuOk_write].
  destruct (strEq item (lit "Return to the previous Page"));
    [apply menuOk_goBack, H|].
  destruct (strEq item (lit "Quit to command prompt"));
    [apply menuOk_none; reflexivity|apply menuOk_write, H].
Qed.

Lemma menuOk_handleMenuNavigation e answer w :
  menuOk w ->
  exists r w', handleMenuNavigation e answer w = Ok (r, w') /\ menuOk w'.
Proof.
  intros H. unfold handleMenuNavigation. cbv zeta.
  destruct (0 <? length (currentMenuItems w))%nat eqn:En;
    [|now exists None, w].
  apply Nat.ltb_lt in En.
  assert (Hi : (selectedMenuItemIndex w < length (currentMenuItems w))%nat).
  { destruct H as [H|H]; [rewrite H in En; simpl in En; lia|exact H]. }
  destruct e.
  - eexists _, _. split; [reflexivity|]. right. unfold renderMenuItems. fields.
    apply Nat.mod_upper_bound. lia.
  - eexists _, _. split; [reflexivity|]. right. unfold renderMenuItems. fields.
    apply Nat.mod_upper_bound. lia.
  - destruct (lookup_lt_is_Some_2 _ _ Hi) as [item ->].
    destruct (strEq (currentMenuType w) (lit "story_choices")) eqn:Estory.
    + destruct (menuOk_selectStoryChoice item w H) as (w' & E & Hw').
      rewrite E. cbn [bind].
      repeat match goal with
             | |- context [if ?b then _ else _] => destruct b
             end;
        eexists _, _; (split; [reflexivity|]);
        auto using menuOk_write, menuOk_displayStoryAndMenu, menuOk_displayOptionsMenu,
                   menuOk_displayFontSizeMenu, menuOk_displayFontColorMenu,
                   menuOk_none, menuOk_selectEndingOption.
      all: apply menuOk_displayStoryAndMenu; revert H; now apply menuOk_eq.
    + repeat match goal with
             | |- context [if ?b then _ else _] => destruct b
             end;
        try discriminate;
        eexists _, _; (split; [reflexivity|]);
        auto using menuOk_write, menuOk_displayStoryAndMenu, menuOk_displayOptionsMenu,
                   menuOk_displayFontSizeMenu, menuOk_displayFontColorMenu,
                   menuOk_none, menuOk_selectEndingOption.
      all: apply menuOk_displayStoryAndMenu; revert H; now apply menuOk_eq.
  - now exists None, w.
Qed.

Lemma menuOk_loaded (g : GameData.t) : menuOk (loaded g).
Proof.
  unfold loaded, displayMainMenu, renderMenuItems. cbv zeta.
  apply menuOk_write, menuOk_write, menuOk_setMenu.
Qed.

(** X14: no sequence of keys makes the menu handler throw, and the cursor is on
    an item of the menu in every state the keys lead to. *)
Theorem press_never_throws (ks : list key) (g : GameData.t) :
  exists w, press ks (loaded g) = Ok w /\ menuOk w.
Proof.
  unfold press. generalize (menuOk_loaded g). generalize (loaded g).
  induction ks as [|k ks IH]; intros w H; simpl; [now exists w|].
  destruct (menuOk_handleMenuNavigation k [] w H) as (r & w' & -> & H').
  cbn [bind snd]. now apply IH.
Qed.

Lemma cursor_down (i n : nat) :
  (i < n)%nat -> ((i + 1) mod n = if (i + 1 =? n)%nat then 0 else i + 1)%nat.
Proof.
  intros H. destruct (i + 1 =? n)%nat eqn:E.
  - apply Nat.eqb_eq in E. rewrite E. apply Nat.Div0.mod_same.
  - apply Nat.eqb_neq in E. apply Nat.mod_small. lia.
Qed.

Lemma cursor_up (i n : nat) :
  (i < n)%nat -> ((i + n - 1) mod n = if (i =? 0)%nat then n - 1 else i - 1)%nat.
Proof.
  intros H. destruct (i =? 0)%nat eqn:E.
  - apply Nat.eqb_eq in E. subst. apply Nat.mod_small. lia.
  - apply Nat.eqb_neq in E.
    replace (i + n - 1)%nat with (i - 1 + 1 * n)%nat by lia.
    rewrite Nat.Div0.mod_add. apply Nat.mod_small. lia.
Qed.

(** X15: the arrow keys move the cursor by one item and wrap around at the ends
    of the menu; each undoes the other; and they change neither the menu
    nor the session. *)
Theorem arrow_keys_cycle answer w :
  (selectedMenuItemIndex w < length (currentMenuItems w))%nat ->
  let n := length (currentMenuItems w) in
  let i := selectedMenuItemIndex w in
  exists down up,
    handleMenuNavigation ArrowDown answer w = Ok (None, down)
    /\ handleMenuNavigation ArrowUp answer w = Ok (None, up)
    /\ selectedMenuItemIndex down = (if (i + 1 =? n)%nat then 0 else i + 1)%nat
    /\ selectedMenuItemIndex up = (if (i =? 0)%nat then n - 1 else i - 1)%nat
    /\ (exists w', handleMenuNavigation ArrowUp answer down = Ok (None, w')
                   /\ selectedMenuItemIndex w' = i)
    /\ (exists w', handleMenuNavigation ArrowDown answer up = Ok (None, w')
                   /\ selectedMenuItemIndex w' = i)
    /\ currentMenuItems down = currentMenuItems w
    /\ currentMenuItems up = currentMenuItems w
    /\ session down = session w /\ session up = session w.
Proof.
  intros Hi n i. change (i < n)%nat in Hi.
  assert (Hn : (0 <? n)%nat = true) by (apply Nat.ltb_lt; lia).
  assert (Hd : ((i + 1) mod n < n)%nat) by (apply Nat.mod_upper_bound; lia).
  assert (Hu : ((i + n - 1) mod n < n)%nat) by (apply Nat.mod_upper_bound; lia).
  exists (renderMenuItems (setSelected ((i + 1) mod n)%nat w)),
         (renderMenuItems (setSelected ((i + n - 1) mod n)%nat w)).
  unfold handleMenuNavigation. cbv zeta. fold n. fold i. rewrite Hn.
  split; [reflexivity|]. split; [reflexivity|].
  unfold renderMenuItems. fields. fold n. rewrite Hn.
  split; [now apply cursor_down|]. split; [now apply cursor_up|].
  split; [|split; [|repeat split]].
  - eexists. split; [reflexivity|]. fields.
    rewrite (cursor_up _ _ Hd), (cursor_down _ _ Hi).
    destruct (i + 1 =? n)%nat eqn:E.
    + apply Nat.eqb_eq in E. simpl. lia.
    + replace (i + 1 =? 0)%nat with false by (symmetry; apply Nat.eqb_neq; lia). lia.
  - eexists. split; [reflexivity|]. fields.
    rewrite (cursor_down _ _ Hu), (cursor_up _ _ Hi).
    destruct (i =? 0)%nat eqn:E.
    + apply Nat.eqb_eq in E.
      replace (n - 1 + 1 =? n)%nat with true by (symmetry; apply Nat.eqb_eq; lia).
      lia.
    + apply Nat.eqb_neq in E.
      replace (i - 1 + 1 =? n)%nat with false by (symmetry; apply Nat.eqb_neq; lia).
      lia.
Qed.

Lemma arrow_keys_cycle_witness :
  exists down,
    handleMenuNavigation ArrowDown [] (after [Enter] storyGated) = Ok (None, down)
    /\ selectedMenuItemIndex down = 1%nat.
Proof.
  destruct (arrow_keys_cycle [] (after [Enter] storyGated))
    as (down & up & Hd & _ & Hi & _).
  - vm_compute. lia.
  - exists down. split; [exact Hd|]. rewrite Hi. vm_compute. reflexivity.
Defined.

(** X16: in the menu shown after an ending no item is recognised: the two items
    offered are not spelled as the two the handler compares the selection
    with, so Enter on either reports an invalid choice, and neither the
    back navigation nor the return to the prompt takes place. *)
Theorem ending_menu_recognises_nothing answer w :
  currentMenuType w = lit "ending_options" ->
  currentMenuItems w = endingMenuItems ->
  handleMenuNavigation Enter answer w
  = Ok (None, write [Prompt (Some (lit "Invalid choice."))] w).
Proof.
  intros Htype Hitems. unfold handleMenuNavigation. cbv zeta.
  rewrite Htype, Hitems.
  change (0 <? length endingMenuItems)%nat with true. cbv iota.
  literals. unfold selectEndingOption.
  destruct (selectedMenuItemIndex w) as [|[|k]].
  - change (endingMenuItems !! 0%nat) with (Some (lit "Return to the previous page")).
    literals. reflexivity.
  - change (endingMenuItems !! 1%nat) with (Some (lit "Quit to the command prompt")).
    literals. reflexivity.
  - change (endingMenuItems !! S (S k)) with (@None str). reflexivity.
Qed.

Lemma ending_menu_recognises_nothing_witness :
  let ended := after [Enter; ArrowDown; Enter] storyGated in
  handleMenuNavigation Enter [] ended
  = Ok (None, write [Prompt (Some (lit "Invalid choice."))] ended).
Proof.
  intros ended. apply (ending_menu_recognises_nothing [] ended).
  - vm_compute. reflexivity.
  - vm_compute. reflexivity.
Defined.

Lemma session_forward stepKey w previous :
  historyOk (gameState w) -> isGoingBack w = false ->
  GameData.currentStep (gameData w) = Some stepKey -> stepKey <> [] ->
  GameState.storyHistory (gameState w)
    !! Z.to_nat (GameState.currentHistoryIndex (gameState w)) = Some previous ->
  (0 <= GameState.currentHistoryIndex (gameState w))%Z ->
  let shown := displayStoryAndMenu stepKey w in
  gameState shown = GameState.pushStoryToHistory stepKey (gameState w)
  /\ session shown
     = (Some stepKey, pastSteps (gameState w) ++ [previous], inventoryManager w).
Proof.
  intros Hok Hback Hcur Hne Hprev Hidx shown.
  assert (Hgs : gameState shown = GameState.pushStoryToHistory stepKey (gameState w)).
  { unfold shown. rewrite gameState_displayStoryAndMenu. unfold entering.
    rewrite Hback, Hcur. cbn [negb andb truthyOpt interp].
    replace (truthy stepKey) with true by (now destruct stepKey). reflexivity. }
  split; [exact Hgs|].
  unfold session, shown.
  rewrite currentStep_displayStoryAndMenu, inventory_displayStoryAndMenu.
  fold shown. rewrite Hgs. f_equal. f_equal.
  destruct (push_spec stepKey (gameState w) Hok) as (Hh & Hi & _).
  unfold pastSteps. rewrite Hh, Hi.
  destruct Hok as [[_ Hhi] _].
  rewrite take_app_le by (rewrite length_take; lia).
  rewrite take_take, Nat.min_id.
  replace (Z.to_nat (GameState.currentHistoryIndex (gameState w) + 1))
    with (S (Z.to_nat (GameState.currentHistoryIndex (gameState w)))) by lia.
  now apply take_S_r.
Qed.



(** X18: leaving the overlay records the step being shown once more.  Opening
    the overlay on a step and returning from it shows the same step, but
    puts it behind itself in the history: the back navigation that follows
    leads to the step the player is on. *)
Theorem overlay_return_records_step_again w step :
  historyOk (gameState w) -> positionOk w -> isGoingBack w = false ->
  overlayVisible w = false ->
  GameData.currentStep (gameData w) = Some step ->
  let resumed := toggleOverlayMenu (toggleOverlayMenu w) in
  session resumed = (Some step, pastSteps (gameState w) ++ [step], inventoryManager w)
  /\ GameState.canGoBack (gameState resumed) = true.
Proof.
  intros Hok (step' & Hcur' & Hprev & Hidx) Hback Hoverlay Hcur resumed.
  rewrite Hcur in Hcur'. inversion Hcur'; subst step'. clear Hcur'.
  pose proof Hok as [_ Hall].
  assert (Hstep : step <> []).
  { eapply (proj1 (Forall_lookup _ _) Hall); exact Hprev. }
  assert (Htruthy : truthy step = true) by (now destruct step).
  assert (E : resumed = displayStoryAndMenu step (setOverlayVisible false
                                                    (setOverlayVisible true w))).
  { assert (Hopen : toggleOverlayMenu w = setOverlayVisible true w).
    { unfold toggleOverlayMenu, toggleOverlayMenuThen. rewrite Hoverlay, Hcur.
      cbn [truthyOpt negb]. now rewrite Htruthy. }
    unfold resumed. rewrite Hopen. unfold toggleOverlayMenu, toggleOverlayMenuThen.
    cbn [overlayVisible setOverlayVisible gameData]. rewrite Hcur.
    cbn [truthyOpt interp]. now rewrite Htruthy. }
  destruct (session_forward step (setOverlayVisible false (setOverlayVisible true w)) step)
    as [Hgs Hsession]; try assumption.
  rewrite E. split; [exact Hsession|].
  rewrite Hgs.
  destruct (push_spec step (gameState w) Hok) as (_ & _ & _ & Hcan).
  change (gameState (setOverlayVisible false (setOverlayVisible true w)))
    with (gameState w).
  rewrite Hcan. apply Z.leb_le. exact Hidx.
Qed.

Lemma overlay_return_records_step_again_witness :
  let shown := after [Enter] storyGated in
  session (toggleOverlayMenu (toggleOverlayMenu shown))
  = (Some (lit "1"), [lit "1"], inventoryManager shown).
Proof.
  intros shown.
  destruct (overlay_return_records_step_again shown (lit "1")) as [H _].
  - split; [vm_compute; split; [discriminate|reflexivity]|].
    vm_compute. repeat constructor; discriminate.
  - exists (lit "1"). vm_compute. repeat split. discriminate.
  - vm_compute. reflexivity.
  - vm_compute. reflexivity.
  - vm_compute. reflexivity.
  - exact H.
Defined.

End Menus.

(** ** Conditions follow the stock *)

Section StockOrder.

Import InventoryManager.

Lemma hasItem_mono (inv inv' : gmap str Z) (item : str) (q : Z) :
  (onHand inv item <= onHand inv' item)%Z ->
  hasItem inv item q = true -> hasItem inv' item q = true.
Proof.
  unfold hasItem. destruct (negb (truthy item)); [discriminate|].
  intros Hle H. apply Z.leb_le in H. apply Z.leb_le. lia.
Qed.

Lemma checkInventoryCondition_mono (inv inv' : gmap str Z) (condition : str) :
  (forall item, (onHand inv item <= onHand inv' item)%Z) ->
  checkInventoryCondition inv condition = true ->
  checkInventoryCondition inv' condition = true.
Proof.
  intros Hle. unfold checkInventoryCondition.
  destruct (negb (truthy condition)); [reflexivity|].
  destruct (includes (lit ":") condition).
  - destruct (itemAndQuantity condition) as [itemName quantityStr].
    apply hasItem_mono, Hle.
  - apply hasItem_mono, Hle.
Qed.

Lemma onHand_addItem_le (inv : gmap str Z) (item other : str) (q : Z) :
  (onHand inv other <= onHand (snd (addItem inv item q)) other)%Z.
Proof.
  unfold addItem.
  destruct (negb (truthy item) || (q <=? 0)%Z) eqn:E; cbn [snd]; [lia|].
  apply orb_false_iff in E as [_ E]. apply Z.leb_gt in E.
  rewrite onHand_insert. destruct (decide (item = other)) as [->|]; lia.
Qed.

Lemma onHand_removeItem_le (inv : gmap str Z) (item other : str) (q : Z) :
  (onHand (snd (removeItem inv item q)) other <= onHand inv other)%Z.
Proof.
  unfold removeItem.
  destruct (negb (truthy item) || (q <=? 0)%Z) eqn:E; cbn [snd]; [lia|].
  apply orb_false_iff in E as [_ E]. apply Z.leb_gt in E.
  destruct (hasItem inv item q) eqn:Eh; cbn [negb snd]; [|lia].
  unfold hasItem in Eh. destruct (negb (truthy item)); [discriminate|].
  apply Z.leb_le in Eh. cbv zeta.
  destruct (onHand inv item - q <=? 0)%Z; cbn [snd].
  - rewrite onHand_delete. destruct (decide (item = other)) as [->|]; lia.
  - rewrite onHand_insert. destruct (decide (item = other)) as [->|]; lia.
Qed.

(** X20: gaining items never closes a condition and losing items never opens one:
    a condition that holds still holds after any [addItem], and a condition
    that holds after a [removeItem] held before it. *)
Theorem conditions_follow_stock (inv : gmap str Z) (condition item : str) (q : Z) :
  (checkInventoryCondition inv condition = true ->
   checkInventoryCondition (snd (addItem inv item q)) condition = true)
  /\ (checkInventoryCondition (snd (removeItem inv item q)) condition = true ->
      checkInventoryCondition inv condition = true).
Proof.
  split; apply checkInventoryCondition_mono; intros other.
  - apply onHand_addItem_le.
  - apply onHand_removeItem_le.
Qed.

Lemma conditions_follow_stock_witness :
  checkInventoryCondition (snd (addItem {[ lit "key" := 1%Z ]} (lit "coin") 2))
                          (lit "key:1") = true.
Proof.
  apply (conditions_follow_stock {[ lit "key" := 1%Z ]} (lit "key:1") (lit "coin") 2).
  vm_compute. reflexivity.
Defined.

End StockOrder.

(** ** The session during play *)

Section Play.

Implicit Types (w : MenuHandler.t) (e : key) (answer item : str).

Lemma gameData_entering stepKey w :
  gameData (entering stepKey w) = GameData.setCurrentStep (Some stepKey) (gameData w).
Proof.
  unfold entering.
  destruct (negb (isGoingBack w) && truthyOpt (GameData.currentStep (gameData w)));
    reflexivity.
Qed.

Lemma menu_entering stepKey w :
  currentMenuType (entering stepKey w) = currentMenuType w
  /\ currentMenuItems (entering stepKey w) = currentMenuItems w
  /\ selectedMenuItemIndex (entering stepKey w) = selectedMenuItemIndex w.
Proof.
  unfold entering.
  destruct (negb (isGoingBack w) && truthyOpt (GameData.currentStep (gameData w)));
    repeat split; reflexivity.
Qed.

Lemma gameData_displayStoryAndMenu stepKey w :
  gameData (displayStoryAndMenu stepKey w)
  = GameData.setCurrentStep (Some stepKey) (gameData w).
Proof.
  rewrite <- gameData_entering. unfold displayStoryAndMenu, displayStoryAndMenuSync.
  destruct (GameData.steps (gameData (entering stepKey w)) !! stepKey) as [step|];
    fields; [|reflexivity].
  destruct (0 <? length (choices step))%nat; reflexivity.
Qed.

Lemma isGoingBack_displayStoryAndMenu stepKey w :
  isGoingBack (displayStoryAndMenu stepKey w) = false.
Proof.
  destruct (entering_fields stepKey w) as (_ & _ & _ & _ & Hback).
  unfold displayStoryAndMenu, displayStoryAndMenuSync.
  destruct (GameData.steps (gameData (entering stepKey w)) !! stepKey) as [step|];
    fields; [|exact Hback].
  destruct (0 <? length (choices step))%nat; fields; exact Hback.
Qed.

(** The menu a step is shown with. *)
Lemma menu_displayStoryAndMenu stepKey w :
  let shown := displayStoryAndMenu stepKey w in
  match GameData.steps (gameData w) !! stepKey with
  | None =>
      currentMenuType shown = currentMenuType w
      /\ currentMenuItems shown = currentMenuItems w
  | Some step =>
      if (0 <? length (choices step))%nat then
        currentMenuType shown = lit "story_choices"
        /\ length (currentMenuItems shown)
           = (length (choices step)
              + if GameState.canGoBack (gameState shown) then 1 else 0)%nat
      else currentMenuType shown = [] /\ currentMenuItems shown = []
  end.
Proof.
  intros shown.
  pose proof (gameState_displayStoryAndMenu stepKey w) as Hgs. fold shown in Hgs.
  rewrite Hgs. unfold shown. clear Hgs shown.
  destruct (entering_fields stepKey w) as (_ & _ & Hsteps & _).
  destruct (menu_entering stepKey w) as (Htype & Hitems & _).
  unfold displayStoryAndMenu, displayStoryAndMenuSync. rewrite Hsteps.
  destruct (GameData.steps (gameData w) !! stepKey) as [step|]; fields;
    [|now split].
  destruct (0 <? length (choices step))%nat; fields; [|now split].
  split; [reflexivity|].
  destruct (GameState.canGoBack (gameState (entering stepKey w)));
    [rewrite length_app|]; unfold choiceItems; rewrite length_map; simpl; lia.
Qed.

Lemma targetOk_step (t : str) :
  targetOk t ->
  startsWith (lit "ENDING_") (replace (lit "STEP_") [] t) = false ->
  replace (lit "STEP_") [] t <> [].
Proof.
  intros [(ds & Hne & _ & ->) | [ -> | [ -> | -> ] ] ] H.
  - change (replace (lit "STEP_") [] (lit "STEP_" ++ ds)) with ds. exact Hne.
  - vm_compute in H. discriminate.
  - vm_compute in H. discriminate.
  - vm_compute in H. discriminate.
Qed.

Lemma choiceAt_in w (choice : Choice) :
  choiceAt w = Some choice ->
  exists step,
    GameData.steps (gameData w) !! interp (GameData.currentStep (gameData w)) = Some step
    /\ choices step !! selectedMenuItemIndex w = Some choice.
Proof.
  unfold choiceAt.
  destruct (GameData.steps (gameData w) !! interp (GameData.currentStep (gameData w)))
    as [step|]; [|discriminate].
  intros H. now exists step.
Qed.

(** A state that differs in its menu and its terminal only. *)
Lemma playOk_frame w w' :
  gameState w' = gameState w -> gameData w' = gameData w ->
  isGoingBack w' = isGoingBack w -> menuOk w' ->
  (currentMenuType w' = lit "story_choices" -> currentMenuItems w' <> [] ->
   currentMenuType w = lit "story_choices"
   /\ currentMenuItems w' = currentMenuItems w) ->
  (currentMenuType w' = lit "ending_options" ->
   currentMenuItems w' = endingMenuItems) ->
  playOk w -> playOk w'.
Proof.
  intros Hgs Hgd Hback Hmenu Hstory Hending (H1 & H2 & H3 & H4 & H5 & H6 & H7).
  unfold playOk, positionOk, firstStepOk in *. rewrite Hgs, Hgd, Hback.
  split; [exact H1|]. split; [exact H2|]. split; [exact Hmenu|].
  split; [exact H4|]. split; [exact H5|]. split; [|exact Hending].
  intros Htype Hitems. destruct (Hstory Htype Hitems) as [Htype' Hsame].
  rewrite Hsame in *. now apply H6.
Qed.

Lemma playOk_forward stepKey w :
  stepKey <> [] ->
  GameData.currentStep (gameData w) = Some stepKey ->
  historyOk (gameState w) -> isGoingBack w = false -> menuOk w ->
  map_Forall (fun _ st => Forall choiceOk (choices st)) (GameData.steps (gameData w)) ->
  ((0 <= GameState.currentHistoryIndex (gameState w))%Z ->
   GameState.storyHistory (gameState w) !! 0%nat = Some (lit "1")) ->
  (stepKey = lit "1"
   \/ ((0 <= GameState.currentHistoryIndex (gameState w))%Z /\ firstStepOk w)) ->
  (currentMenuType w = lit "story_choices" -> currentMenuItems w <> [] ->
   (0 <= GameState.currentHistoryIndex (gameState w))%Z /\ firstStepOk w) ->
  (currentMenuType w = lit "ending_options" -> currentMenuItems w = endingMenuItems) ->
  playOk (displayStoryAndMenu stepKey w).
Proof.
  intros Hne Hcur Hok Hback Hmenu Hsteps Hfirst Hkey Hstory Hending.
  set (shown := displayStoryAndMenu stepKey w).
  assert (Hgs : gameState shown = GameState.pushStoryToHistory stepKey (gameState w)).
  { unfold shown. rewrite gameState_displayStoryAndMenu. unfold entering.
    rewrite Hback, Hcur. cbn [negb andb truthyOpt interp].
    replace (truthy stepKey) with true by (now destruct stepKey). reflexivity. }
  pose proof (gameData_displayStoryAndMenu stepKey w) as Hgd. fold shown in Hgd.
  pose proof (menu_displayStoryAndMenu stepKey w) as Hshown. fold shown in Hshown.
  cbv zeta in Hshown.
  destruct (push_spec stepKey (gameState w) Hok) as (Hh & Hi & _ & Hcan).
  pose proof Hok as [[Hlo Hhi] _].
  assert (Hfirst' : firstStepOk shown <-> firstStepOk w).
  { unfold firstStepOk. now rewrite Hgd. }
  unfold playOk.
  split; [now apply historyOk_displayStoryAndMenu|].
  split; [apply isGoingBack_displayStoryAndMenu|].
  split; [now apply menuOk_displayStoryAndMenu|].
  split; [rewrite Hgd; exact Hsteps|].
  split; [|split].
  - intros _. rewrite Hgs, Hh. split.
    + exists stepKey. rewrite Hgd, Hgs, Hh, Hi.
      split; [reflexivity|]. split; [|lia].
      rewrite lookup_app_r by (rewrite length_take; lia).
      rewrite length_take.
      replace (Z.to_nat (GameState.currentHistoryIndex (gameState w) + 1)
               - Z.to_nat (GameState.currentHistoryIndex (gameState w) + 1)
                   `min` length (GameState.storyHistory (gameState w)))%nat
        with 0%nat by lia.
      reflexivity.
    + destruct (Z.eq_dec (GameState.currentHistoryIndex (gameState w)) (-1)%Z) as [E|E].
      * rewrite E. cbn. destruct Hkey as [->|[Hcontra _]]; [reflexivity|lia].
      * rewrite lookup_app_l by (rewrite length_take; lia).
        rewrite lookup_take_lt by lia. apply Hfirst. lia.
  - intros Htype Hitems. rewrite Hgs, Hi, Hcan, Hgd.
    cbn [GameData.steps GameData.currentStep GameData.setCurrentStep interp].
    split; [lia|].
    destruct (GameData.steps (gameData w) !! stepKey) as [step|] eqn:Estep.
    + destruct (0 <? length (choices step))%nat eqn:Elen.
      * destruct Hshown as [_ Hlen]. split.
        { apply Hfirst'. destruct Hkey as [->|[_ Hkey]]; [|exact Hkey].
          exists step. split; [exact Estep|].
          apply Nat.ltb_lt in Elen. now destruct (choices step). }
        intros Hno. exists step. split; [reflexivity|].
        rewrite Hlen, Hgs, Hcan, Hno. lia.
      * destruct Hshown as [_ Hnone]. contradiction.
    + destruct Hshown as [Htype' Hitems']. rewrite Htype' in Htype.
      rewrite Hitems' in Hitems. destruct (Hstory Htype Hitems) as [Hidx Hw].
      split; [now apply Hfirst'|].
      intros Hno. apply Z.leb_gt in Hno. lia.
  - intros Htype.
    destruct (GameData.steps (gameData w) !! stepKey) as [step|].
    + destruct (0 <? length (choices step))%nat.
      * destruct Hshown as [Htype' _]. rewrite Htype' in Htype.
        vm_compute in Htype. discriminate.
      * destruct Hshown as [Htype' _]. rewrite Htype' in Htype.
        vm_compute in Htype. discriminate.
    + destruct Hshown as [Htype' Hitems']. rewrite Htype' in Htype.
      rewrite Hitems'. now apply Hending.
Qed.

Lemma playOk_back stepKey w :
  stepKey <> [] -> isGoingBack w = true ->
  historyOk (gameState w) -> menuOk w ->
  map_Forall (fun _ st => Forall choiceOk (choices st)) (GameData.steps (gameData w)) ->
  (0 <= GameState.currentHistoryIndex (gameState w))%Z ->
  GameState.storyHistory (gameState w)
    !! Z.to_nat (GameState.currentHistoryIndex (gameState w)) = Some stepKey ->
  GameState.storyHistory (gameState w) !! 0%nat = Some (lit "1") ->
  firstStepOk w ->
  (currentMenuType w = lit "ending_options" -> currentMenuItems w = endingMenuItems) ->
  playOk (displayStoryAndMenu stepKey w).
Proof.
  intros Hne Hback Hok Hmenu Hsteps Hidx Hcur Hfirst Hone Hending.
  set (shown := displayStoryAndMenu stepKey w).
  pose proof (gameState_displayStoryAndMenu_back stepKey w Hback) as Hgs.
  fold shown in Hgs.
  pose proof (gameData_displayStoryAndMenu stepKey w) as Hgd. fold shown in Hgd.
  pose proof (menu_displayStoryAndMenu stepKey w) as Hshown. fold shown in Hshown.
  cbv zeta in Hshown.
  assert (Hone' : firstStepOk shown).
  { unfold firstStepOk. now rewrite Hgd. }
  unfold playOk.
  split; [rewrite Hgs; exact Hok|].
  split; [apply isGoingBack_displayStoryAndMenu|].
  split; [now apply menuOk_displayStoryAndMenu|].
  split; [rewrite Hgd; exact Hsteps|].
  split; [|split].
  - intros _. rewrite Hgs. split; [|exact Hfirst].
    exists stepKey. rewrite Hgd, Hgs. now repeat split.
  - intros Htype Hitems. rewrite Hgs, Hgd.
    cbn [GameData.steps GameData.currentStep GameData.setCurrentStep interp].
    split; [exact Hidx|]. split; [exact Hone'|].
    intros Hno. unfold GameState.canGoBack in Hno. apply Z.ltb_ge in Hno.
    assert (E : GameState.currentHistoryIndex (gameState w) = 0%Z) by lia.
    rewrite E in Hcur. change (Z.to_nat 0) with 0%nat in Hcur.
    rewrite Hfirst in Hcur.
    assert (Ekey : stepKey = lit "1") by congruence. subst stepKey.
    destruct Hone as (step & Estep & Hchoices). rewrite Estep in Hshown.
    replace (0 <? length (choices step))%nat with true in Hshown
      by (symmetry; apply Nat.ltb_lt; destruct (choices step); [contradiction|simpl; lia]).
    destruct Hshown as [_ Hlen]. exists step. split; [exact Estep|].
    rewrite Hlen, Hgs.
    replace (GameState.canGoBack (gameState w)) with false; [lia|].
    symmetry. unfold GameState.canGoBack. apply Z.ltb_ge. lia.
  - intros Htype.
    destruct (GameData.steps (gameData w) !! stepKey) as [step|].
    + destruct (0 <? length (choices step))%nat.
      * destruct Hshown as [Htype' _]. rewrite Htype' in Htype.
        vm_compute in Htype. discriminate.
      * destruct Hshown as [Htype' _]. rewrite Htype' in Htype.
        vm_compute in Htype. discriminate.
    + destruct Hshown as [Htype' Hitems']. rewrite Htype' in Htype.
      rewrite Hitems'. now apply Hending.
Qed.

Lemma playOk_goBack w :
  playOk w -> currentMenuType w = lit "story_choices" -> currentMenuItems w <> [] ->
  GameState.canGoBack (gameState w) = true ->
  playOk (goBack w).
Proof.
  intros (H1 & H2 & H3 & H4 & H5 & H6 & H7) Htype Hitems Hcan.
  unfold GameState.canGoBack in Hcan. apply Z.ltb_lt in Hcan.
  destruct (H6 Htype Hitems) as (Hidx & Hone & _).
  destruct (H5 Hidx) as [_ Hfirst].
  pose proof H1 as [[Hlo Hhi] Hall].
  destruct (lookup_lt_is_Some_2 (GameState.storyHistory (gameState w))
              (Z.to_nat (GameState.currentHistoryIndex (gameState w) - 1)))
    as [previous Hprev]; [lia|].
  assert (Hne : previous <> []).
  { eapply (proj1 (Forall_lookup _ _) Hall); exact Hprev. }
  rewrite (goBack_somewhere w previous Hcan Hprev Hne).
  apply playOk_back; fields; cbn [GameState.storyHistory GameState.currentHistoryIndex];
    try assumption; try reflexivity.
  - split; [split; cbn [GameState.storyHistory GameState.currentHistoryIndex]; lia|].
    exact Hall.
  - lia.
Qed.

Lemma playOk_selectStoryChoice item w w' :
  playOk w -> currentMenuType w = lit "story_choices" ->
  currentMenuItems w !! selectedMenuItemIndex w = Some item ->
  selectStoryChoice (Some item) w = Ok w' -> playOk w'.
Proof.
  intros Hplay Htype Hitem H.
  pose proof Hplay as (H1 & H2 & H3 & H4 & H5 & H6 & H7).
  assert (Hitems : currentMenuItems w <> []).
  { intros E. rewrite E in Hitem. discriminate. }
  destruct (H6 Htype Hitems) as (Hidx & Hone & Hfresh).
  unfold selectStoryChoice in H. cbv zeta in H.
  destruct (choiceAt w) as [choice|] eqn:Echoice.
  - destruct (choiceAt_in w choice Echoice) as (step & Estep & Ein).
    assert (Hchoice : choiceOk choice).
    { apply (proj1 (Forall_lookup _ _) (H4 _ _ Estep) _ _ Ein). }
    destruct Hchoice as (_ & Htarget & _).
    destruct (startsWith (lit "ENDING_") (replace (lit "STEP_") [] (target choice)))
      eqn:Eending.
    + match type of H with
      | (if ?b then _ else _) = _ => destruct b
      end; injection H as <-.
      * apply (playOk_frame w); [reflexivity|reflexivity|reflexivity| | | |assumption].
        -- unfold renderMenuItems. apply menuOk_write, menuOk_setMenu.
        -- unfold renderMenuItems. fields. intros E. vm_compute in E. discriminate.
        -- intros _. reflexivity.
      * apply (playOk_frame w); [reflexivity|reflexivity|reflexivity| | | |assumption].
        -- now apply menuOk_write.
        -- fields. intros E _. now split.
        -- exact H7.
    + injection H as <-.
      apply playOk_forward; fields; try assumption; try reflexivity.
      * now apply targetOk_step.
      * intros _. now apply H5.
      * right. now split.
      * intros _ _. now split.
  - destruct (includes (lit "Return to the previous page") item);
      injection H as <-.
    + apply playOk_goBack; try assumption.
      destruct (GameState.canGoBack (gameState w)) eqn:Ecan; [reflexivity|].
      exfalso. destruct (Hfresh eq_refl) as (step & Estep & Hlen).
      unfold choiceAt in Echoice. rewrite Estep in Echoice.
      apply lookup_lt_Some in Hitem. rewrite Hlen in Hitem.
      apply lookup_lt_is_Some_2 in Hitem as [choice Hchoice]. congruence.
    + apply (playOk_frame w); [reflexivity|reflexivity|reflexivity| | | |assumption].
      * now apply menuOk_write.
      * fields. intros E _. now split.
      * exact H7.
Qed.

Lemma selectEndingOption_unrecognised item w :
  item ∈ endingMenuItems ->
  selectEndingOption (Some item) w = write [Prompt (Some (lit "Invalid choice."))] w.
Proof.
  intros Hin. unfold selectEndingOption.
  apply elem_of_cons in Hin as [->|Hin].
  { replace (strEq (lit "Return to the previous page") (lit "Return to the previous Page"))
      with false by (vm_compute; reflexivity).
    replace (strEq (lit "Return to the previous page") (lit "Quit to command prompt"))
      with false by (vm_compute; reflexivity).
    reflexivity. }
  apply elem_of_cons in Hin as [->|Hin]; [|inversion Hin].
  replace (strEq (lit "Quit to the command prompt") (lit "Return to the previous Page"))
    with false by (vm_compute; reflexivity).
  replace (strEq (lit "Quit to the command prompt") (lit "Quit to command prompt"))
    with false by (vm_compute; reflexivity).
  reflexivity.
Qed.

(** The leaves of the key handler that leave the session alone. *)
Ltac same_menu w H7 :=
  apply (playOk_frame w); [reflexivity|reflexivity|reflexivity| | | |assumption];
  [ try (apply menuOk_write); assumption
  | fields; intros E _; split; [exact E|reflexivity]
  | exact H7 ].

Ltac other_menu w :=
  apply (playOk_frame w); [reflexivity|reflexivity|reflexivity| | | |assumption];
  [ first [ apply menuOk_displayOptionsMenu | apply menuOk_displayFontSizeMenu
          | apply menuOk_displayFontColorMenu ]
  | unfold displayOptionsMenu, displayFontSizeMenu, displayFontColorMenu,
           renderMenuItems; fields; intros E; vm_compute in E; discriminate
  | unfold displayOptionsMenu, displayFontSizeMenu, displayFontColorMenu,
           renderMenuItems; fields; intros E; vm_compute in E; discriminate ].

Ltac no_menu w Etype :=
  apply (playOk_frame w); [reflexivity|reflexivity|reflexivity| | | |assumption];
  [ apply menuOk_none; reflexivity
  | fields; intros _ E; exfalso; apply E; reflexivity
  | fields; rewrite Etype; intros E; vm_compute in E; discriminate ].

Lemma Ok_snd {A B} (a r : A) (b b' : B) : Ok (a, b) = Ok (r, b') -> b = b'.
Proof. congruence. Qed.

Lemma playOk_handleMenuNavigation e answer w r w' :
  playOk w -> handleMenuNavigation e answer w = Ok (r, w') -> playOk w'.
Proof.
  intros Hplay H.
  pose proof Hplay as (H1 & H2 & H3 & H4 & H5 & H6 & H7).
  unfold handleMenuNavigation in H. cbv zeta in H.
  destruct (0 <? length (currentMenuItems w))%nat eqn:En;
    [|apply Ok_snd in H; subst w'; exact Hplay].
  apply Nat.ltb_lt in En.
  assert (Hi : (selectedMenuItemIndex w < length (currentMenuItems w))%nat).
  { destruct H3 as [E|E]; [rewrite E in En; simpl in En; lia|exact E]. }
  destruct e.
  - apply Ok_snd in H; subst w'.
    apply (playOk_frame w); [reflexivity|reflexivity|reflexivity| | | |assumption].
    + right. unfold renderMenuItems. fields. apply Nat.mod_upper_bound. lia.
    + fields. intros E _. split; [exact E|reflexivity].
    + exact H7.
  - apply Ok_snd in H; subst w'.
    apply (playOk_frame w); [reflexivity|reflexivity|reflexivity| | | |assumption].
    + right. unfold renderMenuItems. fields. apply Nat.mod_upper_bound. lia.
    + fields. intros E _. split; [exact E|reflexivity].
    + exact H7.
  - destruct (lookup_lt_is_Some_2 _ _ Hi) as [item Hitem]. rewrite Hitem in H.
    destruct (strEq (currentMenuType w) (lit "main")) eqn:Emain.
    { unfold strEq in Emain. apply bool_decide_eq_true in Emain.
      destruct (strEq item (lit "Start New Game")).
      { apply Ok_snd in H; subst w'.
        assert (Hnot : currentMenuType w <> lit "story_choices").
        { rewrite Emain. intros E. vm_compute in E. discriminate. }
        destruct (GameData.askForName (gameData w));
          (apply playOk_forward;
           [ intros E; vm_compute in E; discriminate
           | reflexivity | exact H1 | exact H2 | exact H3 | exact H4
           | intros Hx; apply (H5 Hx)
           | left; reflexivity
           | intros E; now destruct Hnot
           | exact H7 ]). }
      destruct (strEq item (lit "Load Game")); [apply Ok_snd in H; subst w'; exact Hplay|].
      destruct (strEq item (lit "Options")); [apply Ok_snd in H; subst w'; other_menu w|].
      destruct (strEq item (lit "Exit")); apply Ok_snd in H; subst w';
        [no_menu w Emain|same_menu w H7]. }
    destruct (strEq (currentMenuType w) (lit "options")) eqn:Eoptions.
    { unfold strEq in Eoptions. apply bool_decide_eq_true in Eoptions.
      destruct (strEq item (lit "Font Size")); [apply Ok_snd in H; subst w'; other_menu w|].
      destruct (strEq item (lit "Font Color")); [apply Ok_snd in H; subst w'; other_menu w|].
      destruct (strEq item (lit "Back")); apply Ok_snd in H; subst w';
        [no_menu w Eoptions|same_menu w H7]. }
    destruct (strEq (currentMenuType w) (lit "font_size")) eqn:Esize.
    { match type of H with
      | (if ?b then _ else _) = _ => destruct b
      end; [apply Ok_snd in H; subst w'; other_menu w|].
      destruct (strEq item (lit "Back")); apply Ok_snd in H; subst w';
        [other_menu w|same_menu w H7]. }
    destruct (strEq (currentMenuType w) (lit "font_color")) eqn:Ecolor.
    { match type of H with
      | (if ?b then _ else _) = _ => destruct b
      end; [apply Ok_snd in H; subst w'; other_menu w|].
      destruct (strEq item (lit "Back")); apply Ok_snd in H; subst w';
        [other_menu w|same_menu w H7]. }
    destruct (strEq (currentMenuType w) (lit "story_choices")) eqn:Estory.
    { unfold strEq in Estory. apply bool_decide_eq_true in Estory.
      destruct (selectStoryChoice (Some item) w) as [w1|err] eqn:Es;
        cbn [bind] in H; [|discriminate].
      apply Ok_snd in H; subst w'. eapply playOk_selectStoryChoice; eassumption. }
    destruct (strEq (currentMenuType w) (lit "ending_options")) eqn:Eending;
      [|apply Ok_snd in H; subst w'; exact Hplay].
    unfold strEq in Eending. apply bool_decide_eq_true in Eending.
    apply Ok_snd in H; subst w'.
    rewrite selectEndingOption_unrecognised.
    + same_menu w H7.
    + rewrite <- (H7 Eending). eapply list_elem_of_lookup_2. exact Hitem.
  - apply Ok_snd in H; subst w'. exact Hplay.
Qed.

Lemma steps_displayStoryAndMenu stepKey w :
  GameData.steps (gameData (displayStoryAndMenu stepKey w)) = GameData.steps (gameData w).
Proof. now rewrite gameData_displayStoryAndMenu. Qed.

Lemma steps_goBack w : GameData.steps (gameData (goBack w)) = GameData.steps (gameData w).
Proof.
  unfold goBack.
  destruct (GameState.goBackInHistory (gameState (setIsGoingBack true w)))
    as [previousStep gs].
  destruct (truthyOpt previousStep); [|reflexivity].
  now rewrite steps_displayStoryAndMenu.
Qed.

Lemma steps_selectStoryChoice selectedItem w w' :
  selectStoryChoice selectedItem w = Ok w' ->
  GameData.steps (gameData w') = GameData.steps (gameData w).
Proof.
  unfold selectStoryChoice. intros H.
  repeat case_match; simplify_eq; try reflexivity.
  - now rewrite steps_displayStoryAndMenu.
  - apply steps_goBack.
Qed.

Lemma steps_selectEndingOption selectedItem w :
  GameData.steps (gameData (selectEndingOption selectedItem w))
  = GameData.steps (gameData w).
Proof.
  unfold selectEndingOption. repeat case_match; try reflexivity.
  apply steps_goBack.
Qed.

(** No key press touches the steps of the game. *)
Lemma steps_handleMenuNavigation e answer w r w' :
  handleMenuNavigation e answer w = Ok (r, w') ->
  GameData.steps (gameData w') = GameData.steps (gameData w).
Proof.
  unfold handleMenuNavigation. intros H.
  destruct (0 <? length (currentMenuItems w))%nat; [|now simplify_eq].
  destruct e; try (now simplify_eq).
  repeat match type of H with
         | (if ?b then _ else _) = _ => destruct b
         | match ?o with Some _ => _ | None => _ end = _ => destruct o
         end;
    simplify_eq; try reflexivity.
  - rewrite steps_displayStoryAndMenu. fields.
    destruct (GameData.askForName (gameData w)); reflexivity.
  - destruct (selectStoryChoice _ w) as [w1|] eqn:E; cbn [bind] in H; simplify_eq.
    exact (steps_selectStoryChoice _ _ _ E).
  - apply steps_selectEndingOption.
Qed.

Lemma playOk_loaded (g : GameData.t) :
  map_Forall (fun _ st => Forall choiceOk (choices st)) (GameData.steps g) ->
  playOk (loaded g).
Proof.
  intros Hsteps. unfold playOk.
  split; [apply historyOk_clear|]. split; [reflexivity|].
  split; [apply menuOk_loaded|]. split; [exact Hsteps|].
  split; [|split].
  - intros Hidx. exfalso. revert Hidx. unfold loaded, displayMainMenu, renderMenuItems.
    fields. cbn. lia.
  - unfold loaded, displayMainMenu, renderMenuItems. fields.
    intros E. vm_compute in E. discriminate.
  - unfold loaded, displayMainMenu, renderMenuItems. fields.
    intros E. vm_compute in E. discriminate.
Qed.

Lemma playOk_press (ks : list key) : forall w w',
  playOk w -> press ks w = Ok w' -> playOk w'.
Proof.
  unfold press. induction ks as [|k ks IH]; intros w w' Hplay H; simpl in H.
  - now injection H as <-.
  - destruct (handleMenuNavigation k [] w) as [[r w1]|err] eqn:E; cbn [bind snd] in H;
      [|discriminate].
    apply (IH w1); [|exact H]. eapply playOk_handleMenuNavigation; eassumption.
Qed.

(** X21: the session during play.  In every state the keys lead to from the main
    menu of a game whose choices are those of the grammar, and so of every
    game [parseFile] returns: the step being shown is the entry of the
    history at the current position, whenever anything has been recorded;
    the history begins with step 1 and holds no empty name; and no back
    navigation is left pending. *)
Theorem play_keeps_position (ks : list key) (g : GameData.t) w :
  map_Forall (fun _ st => Forall choiceOk (choices st)) (GameData.steps g) ->
  press ks (loaded g) = Ok w ->
  historyOk (gameState w)
  /\ isGoingBack w = false
  /\ ((0 <= GameState.currentHistoryIndex (gameState w))%Z ->
      (exists step,
         GameData.currentStep (gameData w) = Some step
         /\ GameState.storyHistory (gameState w)
              !! Z.to_nat (GameState.currentHistoryIndex (gameState w)) = Some step)
      /\ GameState.storyHistory (gameState w) !! 0%nat = Some (lit "1"))
  /\ (currentMenuType w = lit "ending_options" -> currentMenuItems w = endingMenuItems)
  /\ GameData.steps (gameData w) = GameData.steps g.
Proof.
  intros Hsteps H.
  pose proof (playOk_press ks _ _ (playOk_loaded g Hsteps) H)
    as (H1 & H2 & _ & _ & H5 & _ & H7).
  split; [exact H1|]. split; [exact H2|]. split; [|split; [exact H7|]].
  - intros Hidx. destruct (H5 Hidx) as [(step & Hcur & Hat & _) Hfirst].
    split; [now exists step|exact Hfirst].
  - clear -H. revert H. unfold press.
    change (GameData.steps g) with (GameData.steps (gameData (loaded g))).
    generalize (loaded g). induction ks as [|k ks IH]; intros w0 H; simpl in H.
    + now injection H as <-.
    + destruct (handleMenuNavigation k [] w0) as [[r w1]|err] eqn:E;
        cbn [bind snd] in H; [|discriminate].
      rewrite (IH w1 H). eapply steps_handleMenuNavigation. exact E.
Qed.

Lemma play_keeps_position_witness :
  let played := after [Enter; Enter] storyGated in
  historyOk (gameState played) /\ isGoingBack played = false
  /\ GameData.steps (gameData played) = GameData.steps (gameOf storyGated).
Proof.
  intros played.
  destruct (play_keeps_position [Enter; Enter] (gameOf storyGated) played)
    as (H1 & H2 & _ & _ & H5).
  - unfold gameOf. destruct (parseFile storyGated) as [g|err] eqn:E.
    + exact (proj1 (parseFile_gameOk _ _ E)).
    + apply map_Forall_empty.
  - vm_compute. reflexivity.
  - exact (conj H1 (conj H2 H5)).
Defined.

End Play.

(** ** Conditions and step sections *)

Section Sections.

Lemma forEach_each {A S} (body : S -> A -> result S) (xs : list A) : forall s s',
  forEach body xs s = Ok s' ->
  Forall (fun x => exists s1 s2, body s1 x = Ok s2) xs.
Proof.
  induction xs as [|x xs IH]; intros s s' H; simpl in H; [constructor|].
  destruct (body s x) as [s1|e] eqn:E; cbn [bind] in H; [|discriminate].
  constructor; [now exists s, s1|now apply (IH s1 s')].
Qed.

(** What a match of the pattern of a condition line begins with and holds. *)
Lemma conditionRegex_shape (s s' : str) (m : caps) :
  run conditionRegex s [] s' m ->
  startsWith (lit "IF") s = true /\ includes (lit "THEN") s = true.
Proof.
  unfold conditionRegex. intros H.
  apply run_seq_inv in H as (s1 & c1 & W & H). apply run_word_inv in W as [-> ->].
  split; [apply startsWith_app|].
  apply run_seq_inv in H as (s2 & c2 & W1 & H).
  apply run_plus_chr_inv in W1 as (w1 & _ & -> & _ & ->).
  apply run_seq_inv in H as (s3 & c3 & G1 & H).
  apply run_group_inv in G1 as (g1 & c3' & _ & -> & ->).
  apply run_seq_inv in H as (s4 & c4 & W2 & H).
  apply run_plus_chr_inv in W2 as (w2 & _ & -> & _ & ->).
  apply run_seq_inv in H as (s5 & c5 & T & _). apply run_word_inv in T as [-> ->].
  rewrite !app_assoc. rewrite <- (app_assoc _ (lit "THEN") s5).
  apply includes_mid.
Qed.

Lemma parseConditionLine_shape (conds conds' : list Condition) (line : str) :
  parseConditionLine conds line = Ok conds' ->
  (trim line = [] /\ conds' = conds)
  \/ (startsWith (lit "IF") (trim line) = true
      /\ includes (lit "THEN") (trim line) = true
      /\ exists c, conds' = conds ++ [c]
                   /\ trim (condition c) = condition c /\ trim (action c) = action c).
Proof.
  unfold parseConditionLine. intros H.
  destruct (length (trim line) =? 0)%nat eqn:E.
  - left. apply Nat.eqb_eq in E. split; [now destruct (trim line)|].
    injection H as <-. reflexivity.
  - right. destruct (matchAnchored conditionRegex (trim line)) as [m|] eqn:Em;
      [|discriminate].
    apply matchAnchored_sound in Em as [s' Em].
    apply conditionRegex_shape in Em as [Hif Hthen].
    split; [exact Hif|]. split; [exact Hthen|].
    injection H as <-. eexists. split; [reflexivity|]. cbn [condition action].
    split; apply trim_trim.
Qed.

(** X22: every condition [parseConditions] returns has no white space around its
    two parts, and every line of a block it accepts is blank or begins with
    [IF] and holds [THEN]. *)
Theorem parseConditions_shape (content : str) (cs : list Condition) :
  parseConditions content = Ok cs ->
  Forall (fun c => trim (condition c) = condition c /\ trim (action c) = action c) cs
  /\ Forall (fun line =>
               trim line = []
               \/ (startsWith (lit "IF") (trim line) = true
                   /\ includes (lit "THEN") (trim line) = true))
            (split 10 content).
Proof.
  unfold parseConditions. intros H. split.
  - eapply (forEach_invariant (Forall _)); [|exact H|constructor].
    intros st x st' Hline Hst.
    apply parseConditionLine_shape in Hline
      as [[_ ->]|(_ & _ & c & -> & Hc)]; [exact Hst|].
    apply Forall_app. split; [exact Hst|]. now constructor.
  - apply forEach_each in H. eapply Forall_impl; [exact H|].
    intros line (s1 & s2 & Hline). cbv beta.
    apply parseConditionLine_shape in Hline as [[E _]|(Hif & Hthen & _)];
      [now left|now right].
Qed.

Lemma parseConditions_shape_witness :
  exists cs,
    parseConditions (lit "IF gold > 3 THEN STEP_4") = Ok cs
    /\ Forall (fun c => trim (condition c) = condition c /\ trim (action c) = action c) cs.
Proof.
  eexists. split; [vm_compute; reflexivity|].
  apply (parseConditions_shape (lit "IF gold > 3 THEN STEP_4")).
  vm_compute. reflexivity.
Defined.

Lemma ensureStep_keeps (stepKey key : str) (steps : gmap str Step) :
  is_Some (steps !! key) -> is_Some (ensureStep stepKey steps !! key).
Proof.
  intros H. unfold ensureStep. destruct (steps !! stepKey) eqn:E; [exact H|].
  destruct (inherited stepKey); [exact H|].
  destruct (decide (stepKey = key)) as [->|Hne].
  - rewrite lookup_insert_eq. eauto.
  - now rewrite lookup_insert_ne.
Qed.

Lemma ensureStep_has (stepKey : str) (steps : gmap str Step) :
  inherited stepKey = false -> is_Some (ensureStep stepKey steps !! stepKey).
Proof.
  intros Hk. unfold ensureStep. destruct (steps !! stepKey) eqn:E; [rewrite E; eauto|].
  rewrite Hk, lookup_insert_eq. eauto.
Qed.

Lemma setNarrative_keeps (stepKey text key : str) (steps : gmap str Step) :
  is_Some (steps !! key) -> is_Some (setNarrative stepKey text steps !! key).
Proof.
  intros H. unfold setNarrative. destruct (steps !! stepKey) eqn:E; [|exact H].
  destruct (decide (stepKey = key)) as [->|Hne].
  - rewrite lookup_insert_eq. eauto.
  - now rewrite lookup_insert_ne.
Qed.

Lemma setChoices_keeps (stepKey key : str) (cs : list Choice) (steps : gmap str Step) :
  is_Some (steps !! key) -> is_Some (setChoices stepKey cs steps !! key).
Proof.
  intros H. unfold setChoices. destruct (steps !! stepKey) eqn:E; [|exact H].
  destruct (decide (stepKey = key)) as [->|Hne].
  - rewrite lookup_insert_eq. eauto.
  - now rewrite lookup_insert_ne.
Qed.

Lemma storeSection_steps (section content : str) (g g' : GameData.t) :
  storeSection section content g = Ok g' -> GameData.steps g' = GameData.steps g.
Proof.
  unfold storeSection. intros H.
  repeat match type of H with
         | (if strEq ?a ?b then _ else _) = _ => destruct (strEq a b)
         end.
  all: try match type of H with
           | bind ?p _ = _ => destruct p eqn:E; cbn [bind] in H; [|discriminate]
           end.
  all: injection H as <-; reflexivity.
Qed.

Lemma processBuffer_keeps (st st' : ParserState) (key : str) :
  processBuffer st = Ok st' ->
  is_Some (GameData.steps (FileParser.gameData st) !! key) ->
  is_Some (GameData.steps (FileParser.gameData st') !! key).
Proof.
  unfold processBuffer. intros H Hkey.
  match type of H with bind ?p _ = _ => destruct p as [g'|e] eqn:E end;
    cbn [bind] in H; [|discriminate].
  injection H as <-. cbn [FileParser.gameData].
  destruct (truthyOpt (currentSubSection st)).
  - destruct (currentSection st) as [section|]; [|discriminate].
    destruct (strEq (interp (currentSubSection st)) (lit "NARRATIVE")).
    + injection E as <-. cbn [GameData.steps GameData.setSteps].
      now apply setNarrative_keeps, ensureStep_keeps.
    + destruct (strEq (interp (currentSubSection st)) (lit "CHOICES")).
      * destruct (parseChoices (currentContentBuffer st)) as [cs|e] eqn:Ec;
          cbn [bind] in E; [|discriminate].
        injection E as <-. cbn [GameData.steps GameData.setSteps].
        now apply setChoices_keeps, ensureStep_keeps.
      * injection E as <-. cbn [GameData.steps GameData.setSteps].
        now apply ensureStep_keeps.
  - destruct (truthyOpt (currentSection st)); [|congruence].
    apply storeSection_steps in E. now rewrite E.
Qed.

Lemma scanLine_keeps (st st' : ParserState) (line key : str) :
  scanLine st line = Ok st' ->
  is_Some (GameData.steps (FileParser.gameData st) !! key) ->
  is_Some (GameData.steps (FileParser.gameData st') !! key).
Proof.
  unfold scanLine. intros H Hkey.
  destruct (startsWith (lit "[") (trim line) && endsWith (lit "]") (trim line)).
  - destruct (processBuffer st) as [st1|e] eqn:E; cbn [bind] in H; [|discriminate].
    apply (processBuffer_keeps _ _ key E) in Hkey.
    repeat match type of H with
           | (if ?b then _ else _) = _ => destruct b
           end;
      try discriminate; injection H as <-; cbn [FileParser.gameData];
      try exact Hkey.
    cbn [GameData.steps GameData.setSteps]. now apply ensureStep_keeps.
  - injection H as <-. exact Hkey.
Qed.

(** The tag of a step section opens the step. *)
Lemma scanLine_opens (st st' : ParserState) (line k : str) :
  inherited k = false ->
  trim line = lit "[STEP_" ++ k ++ lit "]" ->
  scanLine st line = Ok st' ->
  is_Some (GameData.steps (FileParser.gameData st') !! k).
Proof.
  intros Hk Htag. unfold scanLine. rewrite Htag.
  assert (Hclosed : endsWith (lit "]") (lit "[STEP_" ++ k ++ lit "]") = true).
  { unfold endsWith. rewrite app_assoc, rev_app_distr. reflexivity. }
  change (startsWith (lit "[") (lit "[STEP_" ++ k ++ lit "]")) with true.
  rewrite Hclosed. cbn [andb].
  assert (Hin : take (length (lit "[STEP_" ++ k ++ lit "]") - 2)
                     (drop 1 (lit "[STEP_" ++ k ++ lit "]"))
                = lit "STEP_" ++ k).
  { change (drop 1 (lit "[STEP_" ++ k ++ lit "]")) with ((lit "STEP_" ++ k) ++ lit "]").
    rewrite take_app_le; [apply take_ge|]; rewrite !length_app; simpl; lia. }
  rewrite Hin. intros H.
  destruct (processBuffer st) as [st1|e]; cbn [bind] in H; [|discriminate].
  change (startsWith (lit "STEP_") (lit "STEP_" ++ k)) with true in H.
  change (replace (lit "STEP_") [] (lit "STEP_" ++ k)) with k in H.
  injection H as <-. cbn [FileParser.gameData GameData.steps GameData.setSteps].
  now apply ensureStep_has.
Qed.

(** X23: every step section of a file that loads is a step of the game: a line
    [[STEP_k]] of the file makes [k] a key of the steps, for every [k] that
    is not a name the steps inherit (for [[STEP_constructor]] the parser
    finds [gameData.steps.constructor] there already and creates no
    step).  (Stated of the files without a section [[STEP___proto__]].) *)
Theorem parseFile_keeps_steps (content line k : str) (g : GameData.t) :
  plainFile content ->
  parseFile content = Ok g ->
  line ∈ split 10 content ->
  trim line = lit "[STEP_" ++ k ++ lit "]" ->
  inherited k = false ->
  is_Some (GameData.steps g !! k).
Proof.
  intros _. unfold parseFile. intros H Hin Htag Hk.
  match type of H with bind ?p _ = _ => destruct p as [st|e] eqn:E end;
    cbn [bind] in H; [|discriminate].
  destruct (processBuffer st) as [st'|e] eqn:Ep; cbn [bind] in H; [|discriminate].
  assert (g = FileParser.gameData st') as ->.
  { unfold finalValidation in H.
    repeat match type of H with
           | (if ?b then _ else _) = _ => destruct b
           end; congruence. }
  apply (processBuffer_keeps _ _ k Ep). clear H Ep st'.
  apply list_elem_of_split in Hin as (before & rest & Hlines).
  rewrite Hlines, forEach_app in E.
  destruct (forEach scanLine before _) as [st0|e] eqn:E0; cbn [bind] in E;
    [|discriminate].
  cbn [forEach] in E.
  destruct (scanLine st0 line) as [st1|e] eqn:E1; cbn [bind] in E; [|discriminate].
  apply (scanLine_opens _ _ _ k Hk Htag) in E1.
  revert E1 E. generalize st1. clear.
  induction rest as [|x rest IH]; intros st1 Hkey H; simpl in H.
  - now injection H as <-.
  - destruct (scanLine st1 x) as [st2|e] eqn:E; cbn [bind] in H; [|discriminate].
    apply (IH st2); [|exact H]. now apply (scanLine_keeps _ _ x k E).
Qed.

Lemma parseFile_keeps_steps_witness :
  is_Some (GameData.steps (gameOf storyGated) !! lit "2").
Proof.
  unfold gameOf. destruct (parseFile storyGated) as [g|err] eqn:E.
  - apply (parseFile_keeps_steps storyGated (lit "[STEP_2]") (lit "2") g eq_refl E).
    + vm_compute. do 15 right. left.
    + vm_compute. reflexivity.
    + reflexivity.
  - exfalso. revert E. vm_compute. discriminate.
Defined.

End Sections.

(** ** The two ways of quitting *)

Section Quitting.

Implicit Types (w : MenuHandler.t) (step : str).









End Quitting.

(** ** The statistics *)

Section Statistics.

Implicit Types (w : MenuHandler.t).

Lemma gameStats_push story (g : GameState.t) :
  GameState.gameStats (GameState.pushStoryToHistory story g) = GameState.gameStats g.
Proof. reflexivity. Qed.

Lemma gameStats_entering stepKey w :
  GameState.gameStats (gameState (entering stepKey w)) = GameState.gameStats (gameState w).
Proof.
  unfold entering.
  destruct (negb (isGoingBack w) && truthyOpt (GameData.currentStep (gameData w)));
    reflexivity.
Qed.

Lemma gameStats_displayStoryAndMenu stepKey w :
  GameState.gameStats (gameState (displayStoryAndMenu stepKey w))
  = GameState.gameStats (gameState w).
Proof. now rewrite gameState_displayStoryAndMenu, gameStats_entering. Qed.

Lemma gameStats_goBack w :
  GameState.gameStats (gameState (goBack w)) = GameState.gameStats (gameState w).
Proof.
  unfold goBack, GameState.goBackInHistory.
  cbn [gameState setIsGoingBack].
  destruct (0 <? GameState.currentHistoryIndex (gameState w))%Z.
  - destruct (truthyOpt _); [|reflexivity].
    now rewrite gameStats_displayStoryAndMenu.
  - cbn [truthyOpt]. reflexivity.
Qed.

Lemma gameStats_selectStoryChoice selectedItem w w' :
  selectStoryChoice selectedItem w = Ok w' ->
  GameState.gameStats (gameState w') = GameState.gameStats (gameState w).
Proof.
  unfold selectStoryChoice. intros H.
  repeat case_match; simplify_eq; try reflexivity.
  - now rewrite gameStats_displayStoryAndMenu.
  - apply gameStats_goBack.
Qed.

Lemma gameStats_selectEndingOption selectedItem w :
  GameState.gameStats (gameState (selectEndingOption selectedItem w))
  = GameState.gameStats (gameState w).
Proof.
  unfold selectEndingOption. repeat case_match; try reflexivity.
  apply gameStats_goBack.
Qed.

(** No key press touches the statistics. *)
Lemma gameStats_handleMenuNavigation e answer w r w' :
  handleMenuNavigation e answer w = Ok (r, w') ->
  GameState.gameStats (gameState w') = GameState.gameStats (gameState w).
Proof.
  unfold handleMenuNavigation. intros H.
  destruct (0 <? length (currentMenuItems w))%nat; [|now simplify_eq].
  destruct e; try (now simplify_eq).
  repeat match type of H with
         | (if ?b then _ else _) = _ => destruct b
         | match ?o with Some _ => _ | None => _ end = _ => destruct o
         end;
    simplify_eq; try reflexivity.
  - rewrite gameStats_displayStoryAndMenu. fields.
    destruct (GameData.askForName (gameData w)); reflexivity.
  - destruct (selectStoryChoice _ w) as [w1|] eqn:E; cbn [bind] in H; simplify_eq.
    exact (gameStats_selectStoryChoice _ _ _ E).
  - apply gameStats_selectEndingOption.
Qed.

(** X25: the choices made are never counted.  However many choices the keys
    select, the statistics stay what they were when the game was loaded,
    and so does what a save records of them; [incrementChoicesMade], which
    would count one more choice, is not called by any key. *)
Theorem choices_are_not_counted (ks : list key) (g : GameData.t) w :
  press ks (loaded g) = Ok w ->
  GameState.gameStats (gameState w)
  = {| GameState.playTime := 0; GameState.choicesMade := 0 |}
  /\ (forall currentStep,
        GameState.savedGameStats
          (GameState.getSerializableGameState currentStep (gameState w)
                                              (inventoryManager w))
        = Some {| GameState.playTime := 0; GameState.choicesMade := 0 |})
  /\ GameState.choicesMade
       (GameState.gameStats (GameState.incrementChoicesMade (gameState w))) = 1%Z.
Proof.
  intros H.
  assert (Hstats : GameState.gameStats (gameState w)
                   = GameState.gameStats (gameState (loaded g))).
  { revert H. unfold press. generalize (loaded g).
    induction ks as [|k ks IH]; intros w0 H; simpl in H.
    - now injection H as <-.
    - destruct (handleMenuNavigation k [] w0) as [[r w1]|err] eqn:E;
        cbn [bind snd] in H; [|discriminate].
      rewrite (IH w1 H). eapply gameStats_handleMenuNavigation. exact E. }
  change (GameState.gameStats (gameState (loaded g)))
    with {| GameState.playTime := 0; GameState.choicesMade := 0 |} in Hstats.
  split; [exact Hstats|]. split.
  - intros currentStep. cbn [GameState.getSerializableGameState GameState.savedGameStats].
    now rewrite Hstats.
  - cbn [GameState.incrementChoicesMade GameState.gameStats GameState.choicesMade].
    now rewrite Hstats.
Qed.

Lemma choices_are_not_counted_witness :
  GameState.gameStats (gameState (after [Enter; Enter] storyGated))
  = {| GameState.playTime := 0; GameState.choicesMade := 0 |}.
Proof.
  apply (choices_are_not_counted [Enter; Enter] (gameOf storyGated)
                                 (after [Enter; Enter] storyGated)).
  vm_compute. reflexivity.
Defined.

End Statistics.

(** ** Checkpoints and the empty inventory *)

Section Remainder.

Import InventoryManager.

Lemma startsWith_inv (p s : str) :
  startsWith p s = true -> s = p ++ drop (length p) s.
Proof.
  revert s. induction p as [|a p IH]; intros [|b s] H; simpl in *; try discriminate;
    try reflexivity.
  apply andb_true_iff in H as [Hab H]. apply N.eqb_eq in Hab. subst b.
  f_equal. now apply IH.
Qed.

Lemma replace_unfold (pat rep s : str) :
  replace pat rep s
  = if startsWith pat s then rep ++ drop (length pat) s
    else match s with
         | [] => []
         | c :: r => c :: replace pat rep r
         end.
Proof. now destruct s. Qed.

Lemma replace_prefix (p s : str) : replace p [] (p ++ s) = s.
Proof.
  rewrite replace_unfold, startsWith_app. cbn [app]. apply drop_app_length.
Qed.

(** X26: the checkpoints are the lines of the block that begin with [STEP_],
    without it and without the white space around them: what follows
    [STEP_] in a checkpoint line is what follows it in the tag of the step
    section.  Every other line is dropped without an error. *)
Theorem parseCheckpoints_lines (content checkpoint : str) :
  checkpoint ∈ parseCheckpoints content
  <-> exists line, line ∈ split 10 content /\ trim line = lit "STEP_" ++ checkpoint.
Proof.
  unfold parseCheckpoints. split.
  - intros H. apply list_elem_of_fmap in H as (item & -> & H).
    apply list_elem_of_In, List.filter_In in H as [H Hstep].
    apply List.in_map_iff in H as (line & <- & H).
    exists line. split; [now apply list_elem_of_In|].
    apply startsWith_inv in Hstep.
    remember (drop (length (lit "STEP_")) (trim line)) as rest eqn:Erest.
    rewrite Hstep. now rewrite replace_prefix.
  - intros (line & Hin & Htrim).
    rewrite <- (replace_prefix (lit "STEP_") checkpoint), <- Htrim.
    apply list_elem_of_fmap_2. apply list_elem_of_In, List.filter_In. split.
    + apply List.in_map. now apply list_elem_of_In.
    + rewrite Htrim. apply startsWith_app.
Qed.

Lemma total_positive (inv : gmap str Z) :
  positiveStock inv -> inv <> ∅ -> (0 < getTotalItemCount inv)%Z.
Proof.
  induction inv as [|item q inv Hfresh _ IH] using map_first_key_ind.
  - intros _ H. now destruct H.
  - intros Hpos _. rewrite total_insert_fresh by exact Hfresh.
    pose proof (Hpos item q (lookup_insert_eq _ _ _)) as Hq. cbv beta in Hq.
    assert (Hpos' : positiveStock inv).
    { intros other q' Hother. apply (Hpos other q').
      rewrite lookup_insert_ne; [exact Hother|]. intros ->. congruence. }
    destruct (decide (inv = ∅)) as [->|Hne].
    + change (getTotalItemCount ∅) with 0%Z. lia.
    + specialize (IH Hpos' Hne). lia.
Qed.

(** X27: while every quantity held is positive, as the operations on the
    inventory keep it, the inventory is empty exactly when the total it
    reports is 0. *)
Theorem isEmpty_total (inv : gmap str Z) :
  positiveStock inv ->
  (isEmpty inv = true <-> getTotalItemCount inv = 0%Z).
Proof.
  intros Hpos.
  assert (Hempty : isEmpty inv = true <-> inv = ∅).
  { unfold isEmpty. rewrite Nat.eqb_eq. apply map_size_empty_iff. }
  rewrite Hempty; split.
  - intros ->. reflexivity.
  - intros Htotal. destruct (decide (inv = ∅)) as [E|Hne]; [exact E|].
    pose proof (total_positive inv Hpos Hne). lia.
Qed.

Lemma isEmpty_total_witness :
  isEmpty (snd (removeItem {[ lit "coin" := 3%Z ]} (lit "coin") 3)) = true
  <-> getTotalItemCount (snd (removeItem {[ lit "coin" := 3%Z ]} (lit "coin") 3)) = 0%Z.
Proof.
  apply (isEmpty_total (snd (removeItem {[ lit "coin" := 3%Z ]} (lit "coin") 3))).
  apply removeItem_positive. intros item q H.
  apply lookup_singleton_Some in H as [_ <-]. reflexivity.
Defined.

End Remainder.
